(** * rlog: a buffered log writer with flushing and file rotation

    A shallow embedding of [rlog.go] (package [rlog]): the [Writer]
    struct, its constructor [New], the public methods [Write], [Flush]
    and [Close], and the internal methods [flush] and [rotate].

    The operating system is an explicit [World]: the files of the log
    directory, a script of outcomes for the system calls still to come,
    the readings the clock will give, and the trace of the system calls
    made so far.  A method of [*Writer] is a state transformer over the
    pair of the Writer's fields and the World. *)

From Stdlib Require Import ZArith List String Ascii Bool Lia Permutation.
From Stdlib Require Import Strings.Byte.
Import ListNotations.

Open Scope Z_scope.

(** ** Bytes and 64-bit integers *)

Definition bytes := list Byte.byte.

Definition minInt64 : Z := - 2 ^ 63.
Definition maxInt64 : Z := 2 ^ 63 - 1.

(** Two's-complement wrap-around of Go's [int64]. *)
Definition wrap64 (z : Z) : Z := (z + 2 ^ 63) mod 2 ^ 64 - 2 ^ 63.

Definition int64_add (a b : Z) : Z := wrap64 (a + b).

(** ** Package [time] *)

Module Time.

(** A [time.Time] as [time.Now] returns it: a wall-clock reading (in
    nanoseconds since the Unix epoch, in the local zone) and a
    monotonic-clock reading (in nanoseconds). *)
Record t : Type := mk { wall : Z; mono : Z }.

(** [time.Duration] is an [int64] count of nanoseconds. *)
Definition Duration := Z.
Definition Second : Duration := 1000000000.

(** [t.Sub(u)]: both readings carry the monotonic clock, so the
    difference is taken there; it saturates at the ends of [int64]. *)
Definition Sub (a b : t) : Duration :=
  let d := mono a - mono b in
  if d <? minInt64 then minInt64
  else if maxInt64 <? d then maxInt64
  else d.

(** *** Formatting *)

Definition digit (d : Z) : ascii := ascii_of_nat (48 + Z.to_nat d).

(** The [w] low decimal digits of [n], most significant first. *)
Fixpoint fixed (w : nat) (n : Z) : list ascii :=
  match w with
  | O => []
  | S w' => fixed w' (n / 10) ++ [digit (n mod 10)]
  end.

Fixpoint ndigits_aux (fuel : nat) (u : Z) : nat :=
  match fuel with
  | O => O
  | S f => if u <=? 0 then O else S (ndigits_aux f (u / 10))
  end.

(** Number of decimal digits of [u] (none for zero). *)
Definition ndigits (u : Z) : nat :=
  ndigits_aux (S (Z.to_nat (Z.log2 u))) u.

(** [appendInt]: a minus sign for a negative number, then its decimal
    digits, zero-padded on the left to [width]. *)
Definition appendInt (x : Z) (width : nat) : list ascii :=
  let u := Z.abs x in
  (if x <? 0 then ["-"%char] else []) ++
  fixed (Nat.max width (ndigits u)) u.

(** Year, month and day of the proleptic Gregorian calendar, from the
    number of days since 1970-01-01. *)
Definition civil_from_days (days : Z) : Z * Z * Z :=
  let z := days + 719468 in
  let era := z / 146097 in
  let doe := z - era * 146097 in
  let yoe := (doe - doe / 1460 + doe / 36524 - doe / 146096) / 365 in
  let doy := doe - (365 * yoe + yoe / 4 - yoe / 100) in
  let mp := (5 * doy + 2) / 153 in
  let d := doy - (153 * mp + 2) / 5 + 1 in
  let m := if mp <? 10 then mp + 3 else mp - 9 in
  let y := yoe + era * 400 in
  (if m <=? 2 then y + 1 else y, m, d).

(** The microsecond tick of an instant: what survives of it in a
    format with six fractional digits. *)
Definition micro (a : t) : Z := wall a / 1000.

(** [t.Format("20060102-150405.000000")]: four-digit year, two-digit
    month and day, a dash, two-digit hour, minute and second, a dot,
    and the nine-digit nanosecond cut to its first six digits. *)
Definition Format_chars (a : t) : list ascii :=
  let sec := wall a / 1000000000 in
  let nsec := wall a mod 1000000000 in
  let days := sec / 86400 in
  let sod := sec mod 86400 in
  let '(y, m, d) := civil_from_days days in
  appendInt y 4 ++ appendInt m 2 ++ appendInt d 2 ++ ["-"%char] ++
  appendInt (sod / 3600) 2 ++ appendInt (sod mod 3600 / 60) 2 ++
  appendInt (sod mod 60) 2 ++
  ["."%char] ++ firstn 6 (appendInt nsec 9).

Definition Format (a : t) : string := string_of_list_ascii (Format_chars a).

End Time.

(** ** Package [path/filepath] *)

(** [filepath.Join] of a directory and a file name.  The directory is
    taken as given (a clean, non-empty path); the cleaning that Go's
    [Join] performs on other paths is not modelled. *)
Definition filepath_Join (dir name : string) : string :=
  (dir ++ "/" ++ name)%string.

(** ** The operating system *)

(** The outcome the system will give to a call: success, or failure; a
    failing write has put [partial] bytes into the file first. *)
Inductive outcome : Type :=
| Succeeds
| Fails (partial : nat).

Inductive syscall : Type :=
| SysStatPath (path : string)
| SysOpen (path : string)
| SysStat (path : string)
| SysWrite (path : string) (data : bytes)
| SysSync (path : string)
| SysClose (path : string)
| SysRename (src dst : string).

Record event : Type := Event { call : syscall; succeeded : bool }.

Inductive error : Type :=
| ErrDirNotExist (path : string)   (* "directory %q does not exist" *)
| ErrNotDir (path : string)        (* "path %q is not a directory" *)
| ErrLogClosed (path : string)     (* "log file %q is closed" *)
| ErrInvalid                       (* os.ErrInvalid: nil *os.File *)
| ErrFileClosed                    (* os.ErrClosed: file already closed *)
| ErrNotExist (path : string)      (* the path names no file *)
| ErrIO (c : syscall).             (* the system call failed *)

Record World : Type := mkWorld {
  dirs : list string;              (* the directories that exist *)
  files : list (string * bytes);   (* regular files, oldest entry first *)
  script : list outcome;           (* outcomes of the calls to come *)
  now : Time.t;                    (* the last clock reading *)
  future : list Time.t;            (* the clock readings to come *)
  trace : list event               (* system calls made, oldest first *)
}.

(** *** Files by path *)

Fixpoint fs_lookup (p : string) (fs : list (string * bytes)) : option bytes :=
  match fs with
  | [] => None
  | (q, c) :: r => if String.eqb p q then Some c else fs_lookup p r
  end.

Fixpoint fs_remove (p : string) (fs : list (string * bytes))
  : list (string * bytes) :=
  match fs with
  | [] => []
  | (q, c) :: r => if String.eqb p q then fs_remove p r
                   else (q, c) :: fs_remove p r
  end.

Fixpoint fs_append (p : string) (data : bytes) (fs : list (string * bytes))
  : list (string * bytes) :=
  match fs with
  | [] => []
  | (q, c) :: r => if String.eqb p q then (q, c ++ data) :: r
                   else (q, c) :: fs_append p data r
  end.

(** [O_CREATE]: a missing file comes into being, empty. *)
Definition fs_create (p : string) (fs : list (string * bytes))
  : list (string * bytes) :=
  match fs_lookup p fs with
  | Some _ => fs
  | None => fs ++ [(p, [])]
  end.

(** [rename(2)] replaces whatever the destination named. *)
Definition fs_rename (src dst : string) (fs : list (string * bytes))
  : option (list (string * bytes)) :=
  match fs_lookup src fs with
  | None => None
  | Some c => Some (fs_remove dst (fs_remove src fs) ++ [(dst, c)])
  end.

(** ** The Writer *)

(** An [*os.File]: a handle that is open or has been closed. *)
Record os_File : Type := mkFile { closed : bool }.

Record Writer : Type := mkWriter {
  dirPath : string;
  filePath : string;
  maxFileSize : Z;                 (* int64 *)
  maxBufSize : Z;                  (* int *)
  maxBufAge : Time.Duration;
  lastFlush : Time.t;
  mutex : bool;                    (* whether a *sync.Mutex is set *)
  file : option os_File;           (* nil is [None] *)
  buf : bytes
}.

Definition DefaultMaxFileSize : Z := 256 * 1024 * 1024.
Definition DefaultMaxBufSize : Z := 4096.
Definition DefaultMaxBuffAge : Time.Duration := 15 * Time.Second.

Definition set_file (f : option os_File) (w : Writer) : Writer :=
  mkWriter (dirPath w) (filePath w) (maxFileSize w) (maxBufSize w)
           (maxBufAge w) (lastFlush w) (mutex w) f (buf w).

Definition set_buf (b : bytes) (w : Writer) : Writer :=
  mkWriter (dirPath w) (filePath w) (maxFileSize w) (maxBufSize w)
           (maxBufAge w) (lastFlush w) (mutex w) (file w) b.

Definition set_lastFlush (t : Time.t) (w : Writer) : Writer :=
  mkWriter (dirPath w) (filePath w) (maxFileSize w) (maxBufSize w)
           (maxBufAge w) t (mutex w) (file w) (buf w).

(** ** State and effects *)

Record St : Type := mkSt { wr : Writer; os : World }.

Definition M (A : Type) : Type := St -> A * St.

Definition ret {A} (a : A) : M A := fun s => (a, s).

Definition bind {A B} (m : M A) (k : A -> M B) : M B :=
  fun s => let (a, s') := m s in k a s'.

Notation "x <- m ;; k" := (bind m (fun x => k))
  (at level 61, m at next level, right associativity).
Notation "m ;;; k" := (bind m (fun _ => k))
  (at level 61, right associativity).

(** [if err := m; err != nil { return err }]. *)
Definition guard (m : M (option error)) (k : M (option error))
  : M (option error) :=
  e <- m ;; match e with Some err => ret (Some err) | None => k end.

Notation "'check' m ;; k" := (guard m k)
  (at level 61, m at next level, right associativity).

Definition get_writer : M Writer := fun s => (wr s, s).

Definition modify_writer (f : Writer -> Writer) : M unit :=
  fun s => (tt, mkSt (f (wr s)) (os s)).

(** The system decides the next call by the head of its script; an
    exhausted script lets every call succeed. *)
Definition next_outcome (x : World) : outcome :=
  match script x with
  | [] => Succeeds
  | o :: _ => o
  end.

Definition is_ok (o : outcome) : bool :=
  match o with Succeeds => true | Fails _ => false end.

(** One system call: take its outcome off the script, record the call
    and install the files it leaves behind. *)
Definition syscall_step (c : syscall) (fs : list (string * bytes)) (ok : bool)
  (x : World) : World :=
  mkWorld (dirs x) fs (tl (script x)) (now x) (future x)
          (trace x ++ [Event c ok]).

(** *** System calls on the World *)

Definition sys (A : Type) : Type := World -> A * World.

(** [time.Now()]: the next reading of the clock. *)
Definition clock_read : sys Time.t :=
  fun x =>
    match future x with
    | [] => (now x, x)
    | t :: r => (t, mkWorld (dirs x) (files x) (script x) t r (trace x))
    end.

Definition size_of (p : string) (fs : list (string * bytes)) : Z :=
  match fs_lookup p fs with
  | Some c => Z.of_nat (List.length c)
  | None => 0
  end.

(** A path that leads through a file: one of the files is named by the
    path up to one of its separators.  The system refuses such a path
    with [ENOTDIR]. *)
Definition under_a_file (p : string) (fs : list (string * bytes)) : bool :=
  existsb (fun f => String.prefix (fst f ++ "/") p) fs.

(** [os.Stat(path)], as [New] uses it: is [path] a directory?  A path
    that names nothing fails with [ENOENT], which [os.IsNotExist]
    recognizes; one that leads through a file fails with [ENOTDIR], which
    it does not, and [New] returns that error as it is. *)
Definition sys_stat_path (p : string) : sys (option error) :=
  fun x =>
    let c := SysStatPath p in
    match next_outcome x with
    | Fails _ => (Some (ErrIO c), syscall_step c (files x) false x)
    | Succeeds =>
        if existsb (String.eqb p) (dirs x) then
          (None, syscall_step c (files x) true x)
        else
          match fs_lookup p (files x) with
          | Some _ => (Some (ErrNotDir p), syscall_step c (files x) true x)
          | None =>
              if under_a_file p (files x) then
                (Some (ErrIO c), syscall_step c (files x) false x)
              else
                (Some (ErrDirNotExist p), syscall_step c (files x) false x)
          end
    end.

(** [os.OpenFile(path, O_CREATE|O_WRONLY|O_APPEND, 0644)]. *)
Definition sys_open (p : string) : sys (os_File + error) :=
  fun x =>
    let c := SysOpen p in
    match next_outcome x with
    | Fails _ => (inr (ErrIO c), syscall_step c (files x) false x)
    | Succeeds => (inl (mkFile false), syscall_step c (fs_create p (files x)) true x)
    end.

(** [os.Rename(src, dst)]. *)
Definition sys_rename (src dst : string) : sys (option error) :=
  fun x =>
    let c := SysRename src dst in
    match next_outcome x with
    | Fails _ => (Some (ErrIO c), syscall_step c (files x) false x)
    | Succeeds =>
        match fs_rename src dst (files x) with
        | Some fs => (None, syscall_step c fs true x)
        | None => (Some (ErrNotExist src), syscall_step c (files x) false x)
        end
    end.

(** [fstat] on an open handle of [p]: the size of the file. *)
Definition sys_fstat (p : string) : sys (Z + error) :=
  fun x =>
    let c := SysStat p in
    match next_outcome x with
    | Fails _ => (inr (ErrIO c), syscall_step c (files x) false x)
    | Succeeds => (inl (size_of p (files x)), syscall_step c (files x) true x)
    end.

(** [write] on an open handle of [p], opened with [O_APPEND]. *)
Definition sys_write (p : string) (data : bytes) : sys (option error) :=
  fun x =>
    let c := SysWrite p data in
    match next_outcome x with
    | Fails n =>
        (Some (ErrIO c),
         syscall_step c (fs_append p (firstn n data) (files x)) false x)
    | Succeeds => (None, syscall_step c (fs_append p data (files x)) true x)
    end.

Definition sys_fsync (p : string) : sys (option error) :=
  fun x =>
    let c := SysSync p in
    match next_outcome x with
    | Fails _ => (Some (ErrIO c), syscall_step c (files x) false x)
    | Succeeds => (None, syscall_step c (files x) true x)
    end.

(** [close]: the descriptor is released whether or not an error is
    reported. *)
Definition sys_close (p : string) : sys (option error) :=
  fun x =>
    let c := SysClose p in
    match next_outcome x with
    | Fails _ => (Some (ErrIO c), syscall_step c (files x) false x)
    | Succeeds => (None, syscall_step c (files x) true x)
    end.

Definition lift {A} (m : sys A) : M A :=
  fun s => let (a, x) := m (os s) in (a, mkSt (wr s) x).

(** *** Methods of the Writer's [*os.File]

    A nil receiver gives [os.ErrInvalid], a closed one [os.ErrClosed];
    neither reaches the system. *)

Definition on_file {A} (fail : error -> A) (m : M A) : M A :=
  w <- get_writer ;;
  match file w with
  | None => ret (fail ErrInvalid)
  | Some f => if closed f then ret (fail ErrFileClosed) else m
  end.

Definition file_Stat : M (Z + error) :=
  w <- get_writer ;; on_file inr (lift (sys_fstat (filePath w))).

Definition file_Write (data : bytes) : M (option error) :=
  w <- get_writer ;; on_file Some (lift (sys_write (filePath w) data)).

Definition file_Sync : M (option error) :=
  w <- get_writer ;; on_file Some (lift (sys_fsync (filePath w))).

Definition file_Close : M (option error) :=
  w <- get_writer ;;
  on_file Some (e <- lift (sys_close (filePath w)) ;;
                modify_writer (set_file (Some (mkFile true))) ;;;
                ret e).

Definition time_Now : M Time.t := lift clock_read.

(** [time.Since(t)] is [time.Now().Sub(t)]. *)
Definition time_Since (t : Time.t) : M Time.Duration :=
  n <- time_Now ;; ret (Time.Sub n t).

(** ** [rlog.go] *)

(** *** Options and [New] *)

Inductive Option_ : Type :=
| WithMaxFileSize (size : Z)
| WithMaxBufSize (size : Z)
| WithMaxBufAge (d : Time.Duration)
| WithSync.

(** [WithMaxBufSize] also grows the capacity of [buf], keeping the bytes
    it holds; the contents are all that the model keeps of a slice. *)
Definition apply_Option (o : Option_) (w : Writer) : Writer :=
  match o with
  | WithMaxFileSize size =>
      mkWriter (dirPath w) (filePath w) size (maxBufSize w) (maxBufAge w)
               (lastFlush w) (mutex w) (file w) (buf w)
  | WithMaxBufSize size =>
      mkWriter (dirPath w) (filePath w) (maxFileSize w) size (maxBufAge w)
               (lastFlush w) (mutex w) (file w) (buf w)
  | WithMaxBufAge d =>
      mkWriter (dirPath w) (filePath w) (maxFileSize w) (maxBufSize w) d
               (lastFlush w) (mutex w) (file w) (buf w)
  | WithSync =>
      mkWriter (dirPath w) (filePath w) (maxFileSize w) (maxBufSize w)
               (maxBufAge w) (lastFlush w) true (file w) (buf w)
  end.

Definition New (dir : string) (opts : list Option_) : sys (Writer + error) :=
  fun x =>
    let (e, x1) := sys_stat_path dir x in
    match e with
    | Some err => (inr err, x1)
    | None =>
        let (t, x2) := clock_read x1 in
        let w := mkWriter dir EmptyString DefaultMaxFileSize DefaultMaxBufSize
                          DefaultMaxBuffAge t false None [] in
        let w := fold_left (fun w o => apply_Option o w) opts w in
        let path := filepath_Join (dirPath w) "latest.log" in
        let (r, x3) := sys_open path x2 in
        match r with
        | inr err => (inr err, x3)
        | inl f =>
            (inl (mkWriter (dirPath w) path (maxFileSize w) (maxBufSize w)
                           (maxBufAge w) (lastFlush w) (mutex w) (Some f)
                           (buf w)), x3)
        end
    end.

(** *** Internal methods *)

(** With a mutex set, a public method locks it on entry and unlocks it
    on return; in a sequential run neither changes the state. *)
Definition locked {A} (m : M A) : M A := m.

Definition rotate : M (option error) :=
  w <- get_writer ;;
  check (match file w with
         | Some _ =>
             check file_Close ;;
             modify_writer (set_file None) ;;; ret None
         | None => ret None
         end) ;;
  t <- time_Now ;;
  let ts := Time.Format t in
  let newPath := filepath_Join (dirPath w) (ts ++ ".log") in
  check lift (sys_rename (filePath w) newPath) ;;
  r <- lift (sys_open (filePath w)) ;;
  match r with
  | inr err => modify_writer (set_file None) ;;; ret (Some err)
  | inl f => modify_writer (set_file (Some f)) ;;; ret None
  end.

Definition flush : M (option error) :=
  w <- get_writer ;;
  match file w with
  | None => ret (Some (ErrLogClosed (filePath w)))
  | Some _ =>
      if (List.length (buf w) =? 0)%nat then ret None
      else
        r <- file_Stat ;;
        match r with
        | inr err => ret (Some err)
        | inl size =>
            check (if int64_add size (Z.of_nat (List.length (buf w)))
                      >=? maxFileSize w
                   then rotate else ret None) ;;
            w <- get_writer ;;
            check file_Write (buf w) ;;
            check file_Sync ;;
            modify_writer (set_buf []) ;;;
            t <- time_Now ;;
            modify_writer (set_lastFlush t) ;;;
            ret None
        end
  end.

(** *** Public methods *)

Definition Write (p : bytes) : M (Z * option error) :=
  locked (
    modify_writer (fun w => set_buf (buf w ++ p) w) ;;;
    w <- get_writer ;;
    due <- (if Z.of_nat (List.length (buf w)) >=? maxBufSize w then ret true
            else d <- time_Since (lastFlush w) ;; ret (d >=? maxBufAge w)) ;;
    if due : bool then
      e <- flush ;;
      match e with
      | Some err => ret (0, Some err)
      | None => ret (Z.of_nat (List.length p), None)
      end
    else ret (Z.of_nat (List.length p), None)).

Definition Flush : M (option error) := locked flush.

Definition Close : M (option error) :=
  locked (check flush ;; file_Close).

(** ** Runs *)

Inductive op : Type :=
| OpWrite (p : bytes)
| OpFlush
| OpClose.

(** What a call gave back: its error ([None] is nil) and, for [Write],
    the count. *)
Record outcome_of_call : Type := Ret { count : Z; err : option error }.

Definition step (o : op) : M outcome_of_call :=
  match o with
  | OpWrite p => r <- Write p ;; ret (Ret (fst r) (snd r))
  | OpFlush => e <- Flush ;; ret (Ret 0 e)
  | OpClose => e <- Close ;; ret (Ret 0 e)
  end.

Fixpoint run (ops : list op) : M (list outcome_of_call) :=
  match ops with
  | [] => ret []
  | o :: rest => r <- step o ;; rs <- run rest ;; ret (r :: rs)
  end.

(** The states a program can bring a Writer to: those [New] returns, and
    those a public method leaves behind. *)
Inductive reachable : St -> Prop :=
| reach_New dir opts x w x' :
    New dir opts x = (inl w, x') -> reachable (mkSt w x')
| reach_step o s :
    reachable s -> reachable (snd (step o s)).

(** ** [logger/logger.go] *)

(** The leveled logger of package [logger], a client of the Writer.  It
    holds four loggers of the standard [log] package, one per severity;
    each writes its entries either to [io.Discard] or to the Writer.  A
    standard logger reads the clock, makes of the message an entry of
    bytes (prefix, date, message, final newline) and hands it to its
    output in one [Write]; an [entry] is here the bytes as a function of
    the time read.  The atomics and the mutex are plain fields, as for the
    Writer. *)

Definition levelDebug : Z := 0.
Definition levelInfo : Z := 1.
Definition levelWarn : Z := 2.
Definition levelError : Z := 3.
Definition levelNone : Z := 4.

Inductive lerror : Type :=
| ErrInvalidLogLevel (level : string)  (* wraps ErrInvalidLogLevel *)
| ErrClosed                            (* "logger closed" *)
| ErrMkdir (dir : string)              (* "failed to create log directory" *)
| ErrInit (dir : string) (cause : error)
                                       (* "failed to initialize rlog writer" *)
| ErrFlush (cause : error)             (* "failed to flush rlog writer" *)
| ErrClose (cause : error).            (* "failed to close rlog writer" *)

(** Where a standard logger writes: [io.Discard] or the Writer. *)
Inductive sink : Type := io_Discard | ToWriter.

Record Logger : Type := mkLogger {
  lg_closed : Z;                   (* atomic.Uint32 *)
  lg_level : Z;                    (* atomic.Uint32 *)
  lg_writer : bool;                (* whether writer is non-nil *)
  lg_debug : sink;
  lg_info : sink;
  lg_warn : sink;
  lg_error : sink
}.

(** The Logger, the Writer it points to with the World, and what has
    been handed to the package-level [log.Printf]. *)
Record LSt : Type := mkLSt {
  lg : Logger;
  core : St;
  reported : list error
}.

(** [strings.ToLower], on ASCII letters; Go maps the runes beyond ASCII
    by the Unicode tables, which are not modelled. *)
Definition lower_ascii (c : ascii) : ascii :=
  let n := nat_of_ascii c in
  if ((65 <=? n) && (n <=? 90))%nat then ascii_of_nat (n + 32) else c.

Fixpoint strings_ToLower (s : string) : string :=
  match s with
  | EmptyString => EmptyString
  | String c r => String (lower_ascii c) (strings_ToLower r)
  end.

(** [os.MkdirAll]: nothing to do for a directory that exists; an error
    where the path names a file, leads through one, or is empty.  Only the
    path itself is kept, not its parents; the trace keeps the calls on
    files and is left as it is. *)
Definition sys_mkdir_all (p : string) : sys (option lerror) :=
  fun x =>
    let x' := mkWorld (dirs x) (files x) (tl (script x)) (now x) (future x)
                      (trace x) in
    match next_outcome x with
    | Fails _ => (Some (ErrMkdir p), x')
    | Succeeds =>
        if existsb (String.eqb p) (dirs x) then (None, x')
        else
          match fs_lookup p (files x) with
          | Some _ => (Some (ErrMkdir p), x')
          | None =>
              if String.eqb p EmptyString || under_a_file p (files x) then
                (Some (ErrMkdir p), x')
              else
                (None,
                 mkWorld (dirs x ++ [p]) (files x) (tl (script x)) (now x)
                         (future x) (trace x))
          end
    end.

Definition Logger_IsClosed (l : Logger) : bool := lg_closed l =? 1.

Definition isLevelEnabled (l : Logger) (level : Z) : bool :=
  if Logger_IsClosed l then false else lg_level l <=? level.

(** What a logging call is given, once formatted. *)
Definition entry : Type := Time.t -> bytes.

(** [Output] of a standard logger whose output is [out]: nothing for
    [io.Discard]; otherwise the clock is read first, for the date of the
    entry, and the entry written. *)
Definition log_Output (out : sink) (e : entry) (L : LSt)
  : option error * LSt :=
  match out with
  | io_Discard => (None, L)
  | ToWriter =>
      let (t, s0) := time_Now (core L) in
      let (r, s) := Write (e t) s0 in
      (snd r, mkLSt (lg L) s (reported L))
  end.

(** The package-level [log.Printf], by which the logging methods report
    an error of [Output]: the standard logger of the program reads the
    clock and prints to standard error. *)
Definition log_Printf (err : error) (L : LSt) : LSt :=
  let (_, s) := time_Now (core L) in
  mkLSt (lg L) s (reported L ++ [err]).

(** The body the logging methods share: [Debug], [Debugf] and the rest
    differ in the level they test, the standard logger they use and how
    the message is formatted. *)
Definition emit (level : Z) (out : Logger -> sink) (e : entry) (L : LSt)
  : LSt :=
  if isLevelEnabled (lg L) level then
    match log_Output (out (lg L)) e L with
    | (Some err, L') => log_Printf err L'
    | (None, L') => L'
    end
  else L.

Definition Logger_Debug : entry -> LSt -> LSt := emit levelDebug lg_debug.
Definition Logger_Info : entry -> LSt -> LSt := emit levelInfo lg_info.
Definition Logger_Warn : entry -> LSt -> LSt := emit levelWarn lg_warn.
Definition Logger_Error : entry -> LSt -> LSt := emit levelError lg_error.

Definition set_outputs (d i w e : sink) (level : Z) (l : Logger) : Logger :=
  mkLogger (lg_closed l) level (lg_writer l) d i w e.

Definition Logger_SetLevel (level : string) (L : LSt) : option lerror * LSt :=
  if Logger_IsClosed (lg L) then (Some ErrClosed, L)
  else
    let name := strings_ToLower level in
    let set d i w e n :=
      (None, mkLSt (set_outputs d i w e n (lg L)) (core L) (reported L)) in
    if String.eqb name "debug" then
      set ToWriter ToWriter ToWriter ToWriter levelDebug
    else if String.eqb name "info" then
      set io_Discard ToWriter ToWriter ToWriter levelInfo
    else if String.eqb name "warn" then
      set io_Discard io_Discard ToWriter ToWriter levelWarn
    else if String.eqb name "error" then
      set io_Discard io_Discard io_Discard ToWriter levelError
    else if String.eqb name "none" then
      set io_Discard io_Discard io_Discard io_Discard levelNone
    else (Some (ErrInvalidLogLevel level), L).

Definition Logger_Flush (L : LSt) : option lerror * LSt :=
  if Logger_IsClosed (lg L) then (Some ErrClosed, L)
  else
    let (e, s) := Flush (core L) in
    (option_map ErrFlush e, mkLSt (lg L) s (reported L)).

Definition Logger_Close (L : LSt) : option lerror * LSt :=
  if Logger_IsClosed (lg L) then (Some ErrClosed, L)
  else
    let l := mkLogger 1 (lg_level (lg L)) (lg_writer (lg L))
                      io_Discard io_Discard io_Discard io_Discard in
    if lg_writer l then
      let (e, s) := Close (core L) in
      (option_map ErrClose e,
       mkLSt (mkLogger 1 (lg_level l) false
                       io_Discard io_Discard io_Discard io_Discard)
             s (reported L))
    else (None, mkLSt l (core L) (reported L)).

(** What [logger.New] returns: no Logger and an error, or a Logger
    together with whatever [SetLevel] said of the level asked for. *)
Inductive New_result : Type :=
| NoLogger (e : lerror) (x : World)
| NewLogger (L : LSt) (e : option lerror).

Definition logger_New (dirPath level : string) (x : World) : New_result :=
  let (e, x1) := sys_mkdir_all dirPath x in
  match e with
  | Some err => NoLogger err x1
  | None =>
      match New dirPath [WithSync] x1 with
      | (inr err, x2) => NoLogger (ErrInit dirPath err) x2
      | (inl w, x2) =>
          let l := mkLogger 0 levelNone true
                            io_Discard io_Discard io_Discard io_Discard in
          let (e, L) := Logger_SetLevel level (mkLSt l (mkSt w x2) []) in
          NewLogger L e
      end
  end.

(** *** Runs of a Logger *)

Inductive severity : Type := SDebug | SInfo | SWarn | SError.

Inductive lop : Type :=
| LLog (sv : severity) (e : entry)
| LSetLevel (level : string)
| LFlush
| LClose.

Definition log_at (sv : severity) : entry -> LSt -> LSt :=
  match sv with
  | SDebug => Logger_Debug
  | SInfo => Logger_Info
  | SWarn => Logger_Warn
  | SError => Logger_Error
  end.

Definition lstep (o : lop) (L : LSt) : option lerror * LSt :=
  match o with
  | LLog sv e => (None, log_at sv e L)
  | LSetLevel level => Logger_SetLevel level L
  | LFlush => Logger_Flush L
  | LClose => Logger_Close L
  end.

Fixpoint lrun (ops : list lop) (L : LSt) : list (option lerror) * LSt :=
  match ops with
  | [] => ([], L)
  | o :: rest =>
      let (r, L1) := lstep o L in
      let (rs, L2) := lrun rest L1 in
      (r :: rs, L2)
  end.

(** The states a program can bring a Logger to. *)
Inductive lreachable : LSt -> Prop :=
| lreach_New dir level x L e :
    logger_New dir level x = NewLogger L e -> lreachable L
| lreach_step o L : lreachable L -> lreachable (snd (lstep o L)).

(** * Vocabulary of the properties *)

(** ** Relations between the states before and after a call *)

Definition preserves {A} (R : St -> St -> Prop) (m : M A) : Prop :=
  forall s, R s (snd (m s)).

(** A relation on states made of one on the Writer and one on the
    World. *)
Definition both (RW : Writer -> Writer -> Prop) (RX : World -> World -> Prop)
  (s s' : St) : Prop :=
  RW (wr s) (wr s') /\ RX (os s) (os s').

Definition same_config (w w' : Writer) : Prop :=
  dirPath w' = dirPath w /\ filePath w' = filePath w /\
  maxFileSize w' = maxFileSize w /\ maxBufSize w' = maxBufSize w /\
  maxBufAge w' = maxBufAge w /\ mutex w' = mutex w.

Definition grows (x x' : World) : Prop :=
  dirs x' = dirs x /\ exists new, trace x' = trace x ++ new.

Definition evolves : St -> St -> Prop := both same_config grows.

Definition same_pending (w w' : Writer) : Prop :=
  buf w' = buf w /\ lastFlush w' = lastFlush w.

Definition any_world (x x' : World) : Prop := True.

Definition keeps_pending : St -> St -> Prop := both same_pending any_world.

(** ** The steps of [flush] and [Write] *)

(** The test [flush] makes on the size [Stat] reported. *)
Definition rotation_due (size : Z) (w : Writer) : bool :=
  int64_add size (Z.of_nat (List.length (buf w))) >=? maxFileSize w.

(** The state a successful flush leaves: buffer reset, [lastFlush] read
    off the clock. *)
Definition flushed (s : St) : St :=
  mkSt (set_lastFlush (fst (clock_read (os s))) (set_buf [] (wr s)))
       (snd (clock_read (os s))).

(** The Writer once [p] has been appended to its buffer. *)
Definition appended (p : bytes) (s : St) : St :=
  mkSt (set_buf (buf (wr s) ++ p) (wr s)) (os s).

(** The state once the clock has been read. *)
Definition ticked (s : St) : St := mkSt (wr s) (snd (clock_read (os s))).

(** The time since the last flush, as the next clock reading gives it. *)
Definition age (s : St) : Time.Duration :=
  Time.Sub (fst (clock_read (os s))) (lastFlush (wr s)).

(** What [Write p] returns once the flush it triggered has returned. *)
Definition answer (p : bytes) (r : option error * St)
  : (Z * option error) * St :=
  match fst r with
  | Some e => ((0, Some e), snd r)
  | None => ((Z.of_nat (List.length p), None), snd r)
  end.

(** The name a rotation at instant [t] gives the archive. *)
Definition archive_path (dir : string) (t : Time.t) : string :=
  filepath_Join dir (Time.Format t ++ ".log").

(** ** States a program can reach *)

(** The active file is [latest.log] of the directory; a Writer left
    without a handle has bytes it could not write; an open handle has its
    file. *)
Definition wf (s : St) : Prop :=
  filePath (wr s) = filepath_Join (dirPath (wr s)) "latest.log" /\
  (file (wr s) = None -> buf (wr s) <> []) /\
  (file (wr s) = Some (mkFile false) ->
   fs_lookup (filePath (wr s)) (files (os s)) <> None).

(** ** Rotation *)

Definition is_rotation_call (e : event) : bool :=
  match call e with
  | SysClose _ | SysRename _ _ | SysOpen _ => true
  | _ => false
  end.

Definition is_output_call (e : event) : bool :=
  match call e with
  | SysWrite _ _ | SysSync _ => true
  | _ => false
  end.

(** The world a successful rotation leaves: the handle closed, the
    active file renamed to [arch], a fresh active file opened. *)
Definition rotated (path arch : string) (fs : list (string * bytes))
  (x : World) : World :=
  syscall_step (SysOpen path) (fs_create path fs) true
    (syscall_step (SysRename path arch) fs true
       (snd (clock_read (syscall_step (SysClose path) (files x) true x)))).

(** ** What the directory holds *)

(** The bytes on disk: the archives, oldest first, then the active
    file. *)
Definition on_disk (s : St) : bytes :=
  List.concat (map snd (fs_remove (filePath (wr s)) (files (os s)))) ++
  match fs_lookup (filePath (wr s)) (files (os s)) with
  | Some c => c
  | None => []
  end.

(** The flush a call makes returns nil; a rotation is part of its
    flush.  [Write] flushes if one of its two tests says so, [Flush] and
    [Close] always do; what [Close] does after its flush, closing the
    file, is not a flush. *)
Definition flush_succeeds (o : op) (s : St) : Prop :=
  match o with
  | OpWrite p =>
      let s1 := appended p s in
      if Z.of_nat (List.length (buf (wr s1))) >=? maxBufSize (wr s1)
      then fst (flush s1) = None
      else if age s1 >=? maxBufAge (wr s1)
           then fst (flush (ticked s1)) = None
           else True
  | OpFlush | OpClose => fst (flush s) = None
  end.

Fixpoint every_flush_succeeds (ops : list op) (s : St) : Prop :=
  match ops with
  | [] => True
  | o :: rest =>
      flush_succeeds o s /\ every_flush_succeeds rest (snd (step o s))
  end.

(** The bytes of the [Write] calls that returned nil, in call order. *)
Fixpoint accepted (ops : list op) (rs : list outcome_of_call) : bytes :=
  match ops, rs with
  | OpWrite p :: ops', r :: rs' =>
      match err r with
      | None => p ++ accepted ops' rs'
      | Some _ => accepted ops' rs'
      end
  | _ :: ops', _ :: rs' => accepted ops' rs'
  | _, _ => []
  end.

Definition names (x : World) : list string := map fst (files x).

(** The names that successful renames gave, in order. *)
Definition renamed_to (tr : list event) : list string :=
  flat_map (fun e => match call e with
                     | SysRename _ dst => if succeeded e then [dst] else []
                     | _ => []
                     end) tr.

(** The system calls made on the way from [s] to [s']. *)
Definition calls_between (s s' : St) : list event :=
  skipn (List.length (trace (os s))) (trace (os s')).

(** The bytes a call hands to the Writer. *)
Definition payload (o : op) : bytes :=
  match o with
  | OpWrite p => p
  | _ => []
  end.

(** ** The calendar, one era of 400 years at a time *)

(** Year of the era, month and day of a day of the era, as
    [Time.civil_from_days] computes them. *)
Definition civil_of_doe (doe : Z) : Z * Z * Z :=
  let yoe := (doe - doe / 1460 + doe / 36524 - doe / 146096) / 365 in
  let doy := doe - (365 * yoe + yoe / 4 - yoe / 100) in
  let mp := (5 * doy + 2) / 153 in
  let d := doy - (153 * mp + 2) / 5 + 1 in
  let m := if mp <? 10 then mp + 3 else mp - 9 in
  (yoe, m, d).

(** The day of the era of a date. *)
Definition doe_of_civil (yoe m d : Z) : Z :=
  let mp := if 2 <? m then m - 3 else m + 9 in
  let doy := (153 * mp + 2) / 5 + d - 1 in
  yoe * 365 + yoe / 4 - yoe / 100 + doy.

(** A day of the era has a date in range, and is the day of that date. *)
Definition civil_ok (doe : Z) : bool :=
  let '(yoe, m, d) := civil_of_doe doe in
  (0 <=? yoe) && (yoe <=? 399) && (1 <=? m) && (m <=? 12) &&
  (1 <=? d) && (d <=? 31) && (doe_of_civil yoe m d =? doe).

(** [f] holds of the [n] integers from [z] on. *)
Fixpoint all_from (f : Z -> bool) (n : nat) (z : Z) : bool :=
  match n with
  | O => true
  | S k => f z && all_from f k (z + 1)
  end.

(** The timestamp as a function of the microsecond tick alone. *)
Definition Format_of_micro (u : Z) : list ascii :=
  let sec := u / 1000000 in
  let days := sec / 86400 in
  let sod := sec mod 86400 in
  let '(y, m, d) := Time.civil_from_days days in
  Time.appendInt y 4 ++ Time.fixed 2 m ++ Time.fixed 2 d ++ ["-"%char] ++
  Time.fixed 2 (sod / 3600) ++ Time.fixed 2 (sod mod 3600 / 60) ++
  Time.fixed 2 (sod mod 60) ++
  ["."%char] ++ Time.fixed 6 (u mod 1000000).

(** ** A log directory to run on *)

Module Demo.

Definition b (s : string) : bytes := list_byte_of_string s.

Definition clock : Time.t := Time.mk 1761849000123456789 0.

(** An empty directory [logs]; [faults] scripts the system calls. *)
Definition world (faults : list outcome) (readings : list Time.t) : World :=
  mkWorld ["logs"%string] [] faults clock readings [].

(** The Writer [New("logs", opts...)] returns, with the world it
    leaves; the zero Writer if [New] fails. *)
Definition start (opts : list Option_) (x : World) : St :=
  match New "logs" opts x with
  | (inl w, x') => mkSt w x'
  | (inr _, x') =>
      mkSt (mkWriter "" "" 0 0 0 (Time.mk 0 0) false None []) x'
  end.

Definition after (ops : list op) (s : St) : St := snd (run ops s).

(** The directory [logs] left by an earlier session: an active file of
    eighteen bytes. *)
Definition prior (faults : list outcome) (readings : list Time.t) : World :=
  mkWorld ["logs"%string] [("logs/latest.log"%string, b "123456789012345678")]
          faults clock readings [].

End Demo.

(** * Vocabulary of the further properties *)

(** ** Options *)

Definition pick_MaxFileSize (o : Option_) : option Z :=
  match o with WithMaxFileSize size => Some size | _ => None end.

Definition pick_MaxBufSize (o : Option_) : option Z :=
  match o with WithMaxBufSize size => Some size | _ => None end.

Definition pick_MaxBufAge (o : Option_) : option Time.Duration :=
  match o with WithMaxBufAge d => Some d | _ => None end.

Definition pick_Sync (o : Option_) : option bool :=
  match o with WithSync => Some true | _ => None end.

(** The values the options of one kind give, in the order given. *)
Definition settings {A} (pick : Option_ -> option A) (opts : list Option_)
  : list A :=
  flat_map (fun o => match pick o with Some v => [v] | None => [] end) opts.

(** The last of them, the default if there is none. *)
Definition last_setting {A} (pick : Option_ -> option A) (default : A)
  (opts : list Option_) : A :=
  last (settings pick opts) default.

(** ** Calls confined to the active file *)

(** A system call of the Writer's own: on its active file, a rename
    taking the active file to an archive name of its directory. *)
Definition own_call (path dir : string) (e : event) : Prop :=
  match call e with
  | SysStat p | SysSync p | SysClose p | SysOpen p => p = path
  | SysWrite p _ => p = path
  | SysRename src dst => src = path /\ exists t, dst = archive_path dir t
  | SysStatPath _ => False
  end.

(** From [s] to [s'] the configuration stayed, every call made was the
    Writer's own, and a file that is neither the active file nor the
    target of a rename holds what it held. *)
Definition confined (s s' : St) : Prop :=
  same_config (wr s) (wr s') /\
  exists new,
    trace (os s') = trace (os s) ++ new /\
    Forall (own_call (filePath (wr s)) (dirPath (wr s))) new /\
    forall q, q <> filePath (wr s) -> ~ In q (renamed_to new) ->
              fs_lookup q (files (os s')) = fs_lookup q (files (os s)).

(** Every clock reading still to come is younger than [maxBufAge]. *)
Definition stays_young (s : St) : Prop :=
  Forall (fun t => Time.Sub t (lastFlush (wr s)) < maxBufAge (wr s))
         (now (os s) :: future (os s)).

(** ** The Logger *)

Definition severity_level (sv : severity) : Z :=
  match sv with
  | SDebug => levelDebug
  | SInfo => levelInfo
  | SWarn => levelWarn
  | SError => levelError
  end.

(** The level a name stands for, once in lower case. *)
Definition level_rank (name : string) : option Z :=
  if String.eqb name "debug" then Some levelDebug
  else if String.eqb name "info" then Some levelInfo
  else if String.eqb name "warn" then Some levelWarn
  else if String.eqb name "error" then Some levelError
  else if String.eqb name "none" then Some levelNone
  else None.

(** Where the standard logger of severity [m] writes when the level is
    [level]. *)
Definition sink_for (level m : Z) : sink :=
  if level <=? m then ToWriter else io_Discard.

(** The outputs of the four standard loggers agree with the level: a
    Logger that is open has a Writer and sends to it exactly the
    severities at or above its level; one that is closed has no Writer and
    discards everything. *)
Definition in_step (l : Logger) : Prop :=
  (lg_closed l = 1 /\ lg_writer l = false /\
   lg_debug l = io_Discard /\ lg_info l = io_Discard /\
   lg_warn l = io_Discard /\ lg_error l = io_Discard) \/
  (lg_closed l = 0 /\ lg_writer l = true /\ 0 <= lg_level l <= 4 /\
   lg_debug l = sink_for (lg_level l) levelDebug /\
   lg_info l = sink_for (lg_level l) levelInfo /\
   lg_warn l = sink_for (lg_level l) levelWarn /\
   lg_error l = sink_for (lg_level l) levelError).

(** The Writer as [logger.New] sets it up: synchronized, with the
    default limits. *)
Definition as_the_Logger_made_it (w : Writer) : Prop :=
  mutex w = true /\ maxFileSize w = DefaultMaxFileSize /\
  maxBufSize w = DefaultMaxBufSize /\ maxBufAge w = DefaultMaxBuffAge.

(** What the Logger relies on of its Writer. *)
Definition sound (s : St) : Prop := wf s /\ as_the_Logger_made_it (wr s).

(** What a logging call with its severity enabled does: the clock read,
    one [Write] of the entry dated with it and, if that fails, the error
    printed by the program's standard logger, which reads the clock
    again. *)
Definition handed_over (e : entry) (L : LSt) : LSt :=
  let t := fst (clock_read (os (core L))) in
  let r := Write (e t) (ticked (core L)) in
  match snd (fst r) with
  | None => mkLSt (lg L) (snd r) (reported L)
  | Some err => mkLSt (lg L) (ticked (snd r)) (reported L ++ [err])
  end.

(** An entry that does not depend on the time. *)
Definition plain (b : bytes) : entry := fun _ => b.

(** What a call on a closed Logger returns. *)
Definition closed_answer (o : lop) : option lerror :=
  match o with
  | LLog _ _ => None
  | _ => Some ErrClosed
  end.

(** A string of ASCII characters only, where [strings_ToLower] is Go's
    [strings.ToLower]. *)
Definition is_ascii (s : string) : bool :=
  forallb (fun c => (nat_of_ascii c <? 128)%nat) (list_ascii_of_string s).

(** The bytes the logging calls of a run hand to the Writer: for every
    call whose severity is enabled when it is made, the entry dated with
    the clock reading of that call. *)
Fixpoint entries_of (ops : list lop) (L : LSt) : bytes :=
  match ops with
  | [] => []
  | o :: rest =>
      match o with
      | LLog sv e =>
          if isLevelEnabled (lg L) (severity_level sv)
          then e (fst (clock_read (os (core L))))
          else []
      | _ => []
      end ++ entries_of rest (snd (lstep o L))
  end.

(** * Properties *)

Arguments Time.Format : simpl never.

(** ** How the methods of the file handle behave *)

Lemma on_file_cases {A} (fail : error -> A) (m : M A) s :
  (file (wr s) = None /\ on_file fail m s = (fail ErrInvalid, s)) \/
  (file (wr s) = Some (mkFile true) /\
   on_file fail m s = (fail ErrFileClosed, s)) \/
  (file (wr s) = Some (mkFile false) /\ on_file fail m s = m s).
Proof.
  unfold on_file, bind, get_writer, ret.
  destruct (file (wr s)) as [[[|]]|]; auto.
Qed.

Lemma lift_eq {A} (m : sys A) s :
  lift m s = (fst (m (os s)), mkSt (wr s) (snd (m (os s)))).
Proof. unfold lift. destruct (m (os s)); reflexivity. Qed.

Lemma bind_inv {A B} (m : M A) (k : A -> M B) s r s' :
  bind m k s = (r, s') -> exists a s1, m s = (a, s1) /\ k a s1 = (r, s').
Proof. unfold bind. destruct (m s) as [a s1]. eauto. Qed.

Lemma guard_inv m k s r s' :
  guard m k s = (r, s') ->
  (exists e, m s = (Some e, s') /\ r = Some e) \/
  (exists s1, m s = (None, s1) /\ k s1 = (r, s')).
Proof.
  unfold guard. intros H. apply bind_inv in H as (e & s1 & Hm & Hk).
  destruct e as [e|]; [left | right; eauto].
  injection Hk as <- <-. eauto.
Qed.

Create HintDb pres.

(** ** Relations that every step of a method preserves *)

Section Preservation.

Variable RW : Writer -> Writer -> Prop.
Variable RX : World -> World -> Prop.
Hypothesis RW_refl : forall w, RW w w.
Hypothesis RW_trans : forall a b c, RW a b -> RW b c -> RW a c.
Hypothesis RX_refl : forall x, RX x x.
Hypothesis RX_trans : forall a b c, RX a b -> RX b c -> RX a c.

Lemma both_refl s : both RW RX s s.
Proof. split; auto. Qed.

Lemma both_trans a b c :
  both RW RX a b -> both RW RX b c -> both RW RX a c.
Proof. intros [? ?] [? ?]; split; eauto. Qed.

Lemma preserves_ret {A} (a : A) : preserves (both RW RX) (ret a).
Proof. intros s; apply both_refl. Qed.

Lemma preserves_bind {A B} (m : M A) (k : A -> M B) :
  preserves (both RW RX) m -> (forall a, preserves (both RW RX) (k a)) ->
  preserves (both RW RX) (bind m k).
Proof.
  intros Hm Hk s. unfold bind.
  specialize (Hm s). destruct (m s) as [a s1]. cbn in Hm.
  eapply both_trans; [exact Hm | apply Hk].
Qed.

Lemma preserves_guard m k :
  preserves (both RW RX) m -> preserves (both RW RX) k -> preserves (both RW RX) (guard m k).
Proof.
  intros Hm Hk. unfold guard. apply preserves_bind; auto.
  intros [e|]; auto using preserves_ret.
Qed.

Lemma preserves_get_writer : preserves (both RW RX) get_writer.
Proof. intros s; apply both_refl. Qed.

Lemma preserves_modify f :
  (forall w, RW w (f w)) -> preserves (both RW RX) (modify_writer f).
Proof. intros Hf s; split; cbn; auto. Qed.

Lemma preserves_lift {A} (m : sys A) :
  (forall x, RX x (snd (m x))) -> preserves (both RW RX) (lift m).
Proof. intros Hm s. rewrite lift_eq. split; cbn; auto. Qed.

Lemma preserves_on_file {A} (fail : error -> A) m :
  preserves (both RW RX) m -> preserves (both RW RX) (on_file fail m).
Proof.
  intros Hm s.
  destruct (on_file_cases fail m s) as [[_ ->]|[[_ ->]|[_ ->]]];
    auto using both_refl.
Qed.

(** What the relation must allow: any system call, a clock reading,
    and the replacement of the file handle. *)
Hypothesis RX_syscall : forall c fs ok x, RX x (syscall_step c fs ok x).
Hypothesis RX_clock : forall x, RX x (snd (clock_read x)).
Hypothesis RW_file : forall f w, RW w (set_file f w).

Lemma preserves_sys_fstat p x : RX x (snd (sys_fstat p x)).
Proof. unfold sys_fstat; destruct (next_outcome x); cbn; auto. Qed.

Lemma preserves_sys_write p d x : RX x (snd (sys_write p d x)).
Proof. unfold sys_write; destruct (next_outcome x); cbn; auto. Qed.

Lemma preserves_sys_fsync p x : RX x (snd (sys_fsync p x)).
Proof. unfold sys_fsync; destruct (next_outcome x); cbn; auto. Qed.

Lemma preserves_sys_close p x : RX x (snd (sys_close p x)).
Proof. unfold sys_close; destruct (next_outcome x); cbn; auto. Qed.

Lemma preserves_sys_open p x : RX x (snd (sys_open p x)).
Proof. unfold sys_open; destruct (next_outcome x); cbn; auto. Qed.

Lemma preserves_sys_rename a b x : RX x (snd (sys_rename a b x)).
Proof.
  unfold sys_rename; destruct (next_outcome x); cbn; auto.
  destruct (fs_rename a b (files x)); cbn; auto.
Qed.

#[local] Hint Resolve preserves_ret preserves_bind preserves_guard
  preserves_get_writer preserves_modify preserves_lift preserves_on_file
  preserves_sys_fstat preserves_sys_write preserves_sys_fsync
  preserves_sys_close preserves_sys_open preserves_sys_rename : pres.

Lemma preserves_file_Stat : preserves (both RW RX) file_Stat.
Proof. unfold file_Stat; auto 10 with pres. Qed.

Lemma preserves_file_Write d : preserves (both RW RX) (file_Write d).
Proof. unfold file_Write; auto 10 with pres. Qed.

Lemma preserves_file_Sync : preserves (both RW RX) file_Sync.
Proof. unfold file_Sync; auto 10 with pres. Qed.

Lemma preserves_file_Close : preserves (both RW RX) file_Close.
Proof. unfold file_Close; auto 10 with pres. Qed.

Lemma preserves_time_Now : preserves (both RW RX) time_Now.
Proof. unfold time_Now; auto with pres. Qed.

#[local] Hint Resolve preserves_file_Stat preserves_file_Write preserves_file_Sync
  preserves_file_Close preserves_time_Now : pres.

Lemma preserves_rotate : preserves (both RW RX) rotate.
Proof.
  unfold rotate.
  apply preserves_bind; [auto with pres|]. intros w.
  apply preserves_guard.
  - destruct (file w); auto 10 with pres.
  - apply preserves_bind; [auto with pres|]. intros t.
    apply preserves_guard; [auto with pres|].
    apply preserves_bind; [auto with pres|].
    intros [f|e]; auto 10 with pres.
Qed.

(** The rest needs the relation to allow what a successful flush and
    a [Write] do to the Writer. *)
Hypothesis RW_buf : forall b w, RW w (set_buf b w).
Hypothesis RW_lastFlush : forall t w, RW w (set_lastFlush t w).

Lemma preserves_flush : preserves (both RW RX) flush.
Proof.
  unfold flush.
  apply preserves_bind; [auto with pres|]. intros w.
  destruct (file w); [|auto with pres].
  destruct (List.length (buf w) =? 0)%nat; [auto with pres|].
  apply preserves_bind; [auto with pres|].
  intros [size|e]; [|auto with pres].
  apply preserves_guard.
  - destruct (_ >=? _); auto using preserves_rotate with pres.
  - apply preserves_bind; [auto with pres|]. intros w2.
    repeat (apply preserves_guard; [auto with pres|]).
    auto 10 with pres.
Qed.

Lemma preserves_Write p : preserves (both RW RX) (Write p).
Proof.
  unfold Write, locked, time_Since.
  apply preserves_bind; [auto with pres|]. intros _.
  apply preserves_bind; [auto with pres|]. intros w.
  apply preserves_bind.
  - destruct (_ >=? _); auto 10 with pres.
  - intros [|]; [|auto with pres].
    apply preserves_bind; [apply preserves_flush|].
    intros [e|]; auto with pres.
Qed.

Lemma preserves_Flush : preserves (both RW RX) Flush.
Proof. apply preserves_flush. Qed.

Lemma preserves_Close : preserves (both RW RX) Close.
Proof.
  unfold Close, locked. apply preserves_guard;
    auto using preserves_flush with pres.
Qed.

Lemma preserves_step o : preserves (both RW RX) (step o).
Proof.
  destruct o; cbn [step];
    (apply preserves_bind;
     [auto using preserves_Write, preserves_Flush, preserves_Close
     |auto with pres]).
Qed.

Lemma preserves_run ops : preserves (both RW RX) (run ops).
Proof.
  induction ops as [|o rest IH]; cbn [run]; [auto with pres|].
  apply preserves_bind; [apply preserves_step|]. intros r.
  apply preserves_bind; auto with pres.
Qed.

End Preservation.

Lemma preserves_eq {A} R (m : M A) s a s' :
  preserves R m -> m s = (a, s') -> R s s'.
Proof. intros H E. specialize (H s). rewrite E in H. exact H. Qed.

(** *** The configuration is fixed and the trace only grows *)

Lemma same_config_refl w : same_config w w.
Proof. repeat split. Qed.

Lemma same_config_trans a b c :
  same_config a b -> same_config b c -> same_config a c.
Proof. unfold same_config; intuition congruence. Qed.

Lemma grows_refl x : grows x x.
Proof. split; [reflexivity | exists []; now rewrite app_nil_r]. Qed.

Lemma grows_trans a b c : grows a b -> grows b c -> grows a c.
Proof.
  intros [D1 [n1 T1]] [D2 [n2 T2]]. split; [congruence|].
  exists (n1 ++ n2). now rewrite T2, T1, app_assoc.
Qed.

Lemma grows_syscall c fs ok x : grows x (syscall_step c fs ok x).
Proof. split; cbn; eauto. Qed.

Lemma grows_clock x : grows x (snd (clock_read x)).
Proof.
  unfold clock_read. destruct (future x); cbn; [apply grows_refl|].
  split; cbn; [reflexivity | exists []; now rewrite app_nil_r].
Qed.

Ltac evolves_side :=
  first [ exact same_config_refl | exact same_config_trans
        | exact grows_refl | exact grows_trans
        | exact grows_syscall | exact grows_clock
        | intros; repeat split ].

Lemma evolves_run ops : preserves evolves (run ops).
Proof.
  apply preserves_run;
    evolves_side.
Qed.

Lemma evolves_step o : preserves evolves (step o).
Proof.
  apply preserves_step;
    evolves_side.
Qed.

Lemma evolves_flush : preserves evolves flush.
Proof.
  apply preserves_flush;
    evolves_side.
Qed.

Lemma evolves_rotate : preserves evolves rotate.
Proof.
  apply preserves_rotate;
    evolves_side.
Qed.

(** *** What is pending stays pending until a flush succeeds *)

Lemma same_pending_trans a b c :
  same_pending a b -> same_pending b c -> same_pending a c.
Proof. unfold same_pending; intuition congruence. Qed.

Lemma keeps_pending_refl s : keeps_pending s s.
Proof. repeat split. Qed.

Lemma keeps_pending_trans a b c :
  keeps_pending a b -> keeps_pending b c -> keeps_pending a c.
Proof.
  apply both_trans; [apply same_pending_trans | unfold any_world; auto].
Qed.

Ltac pending_side :=
  first [ apply same_pending_trans
        | intros; repeat split ].

Lemma pending_rotate : preserves keeps_pending rotate.
Proof. apply preserves_rotate; pending_side. Qed.

Lemma pending_file_Stat : preserves keeps_pending file_Stat.
Proof. apply preserves_file_Stat; pending_side. Qed.

Lemma pending_file_Write d : preserves keeps_pending (file_Write d).
Proof. apply preserves_file_Write; pending_side. Qed.

Lemma pending_file_Sync : preserves keeps_pending file_Sync.
Proof. apply preserves_file_Sync; pending_side. Qed.

Lemma pending_file_Close : preserves keeps_pending file_Close.
Proof. apply preserves_file_Close; pending_side. Qed.

(** ** The paths through [flush] *)

Lemma flush_nil_file s :
  file (wr s) = None -> flush s = (Some (ErrLogClosed (filePath (wr s))), s).
Proof. intros H. unfold flush, bind, get_writer. now rewrite H. Qed.

Lemma flush_empty s :
  file (wr s) <> None -> buf (wr s) = [] -> flush s = (None, s).
Proof.
  intros Hf Hb. unfold flush, bind, get_writer.
  destruct (file (wr s)); [|contradiction]. now rewrite Hb.
Qed.

(** Every path of a flush that has bytes to write and a handle to write
    them to. *)
Lemma flush_paths s r s' :
  flush s = (r, s') -> file (wr s) <> None -> buf (wr s) <> [] ->
  (exists e, file_Stat s = (inr e, s') /\ r = Some e) \/
  exists size s1,
    file_Stat s = (inl size, s1) /\
    ((exists e, rotation_due size (wr s) = true /\
                rotate s1 = (Some e, s') /\ r = Some e) \/
     exists s2,
       (if rotation_due size (wr s) then rotate s1 = (None, s2)
        else s2 = s1) /\
       ((exists e, file_Write (buf (wr s)) s2 = (Some e, s') /\ r = Some e) \/
        exists s3,
          file_Write (buf (wr s)) s2 = (None, s3) /\
          ((exists e, file_Sync s3 = (Some e, s') /\ r = Some e) \/
           exists s4,
             file_Sync s3 = (None, s4) /\ r = None /\ s' = flushed s4))).
Proof.
  intros H Hf Hb. unfold flush in H.
  apply bind_inv in H as (w & s0 & Hw & H).
  injection Hw as <- <-.
  destruct (file (wr s)); [|contradiction].
  destruct (List.length (buf (wr s)) =? 0)%nat eqn:E0.
  { apply Nat.eqb_eq, length_zero_iff_nil in E0. contradiction. }
  apply bind_inv in H as ([size|e] & s1 & HS & H).
  2:{ injection H as <- <-. left; eauto. }
  right. exists size, s1. split; [exact HS|].
  fold (rotation_due size (wr s)) in H.
  apply guard_inv in H as [(e & HR & ->) | (s2 & HR & H)].
  { left. exists e. destruct (rotation_due size (wr s)); [|inversion HR].
    repeat split. exact HR. }
  right. exists s2.
  assert (Hs2 : if rotation_due size (wr s) then rotate s1 = (None, s2)
                else s2 = s1).
  { destruct (rotation_due size (wr s)); [exact HR|].
    now injection HR as <-. }
  split; [exact Hs2|].
  apply bind_inv in H as (w2 & s2' & Hw2 & H). injection Hw2 as <- <-.
  assert (Hb2 : buf (wr s2) = buf (wr s)).
  { pose proof (preserves_eq _ _ _ _ _ pending_file_Stat HS) as [[B1 _] _].
    destruct (rotation_due size (wr s)); [|now subst].
    pose proof (preserves_eq _ _ _ _ _ pending_rotate Hs2) as [[B2 _] _].
    congruence. }
  rewrite Hb2 in H.
  apply guard_inv in H as [(e & HW & ->) | (s3 & HW & H)]; [left; eauto|].
  right. exists s3. split; [exact HW|].
  apply guard_inv in H as [(e & HY & ->) | (s4 & HY & H)]; [left; eauto|].
  right. exists s4. split; [exact HY|].
  unfold bind, modify_writer, time_Now, ret in H. rewrite lift_eq in H.
  cbn in H. injection H as <- <-. split; reflexivity.
Qed.

(** A flush that reports an error leaves the buffer and [lastFlush]
    alone. *)
Lemma flush_error_pending s e s' :
  flush s = (Some e, s') -> keeps_pending s s'.
Proof.
  intros H.
  destruct (file (wr s)) eqn:Hf.
  2:{ rewrite flush_nil_file in H by assumption. injection H as _ <-.
      apply keeps_pending_refl. }
  destruct (buf (wr s)) eqn:Hb.
  { rewrite flush_empty in H by congruence. discriminate. }
  apply flush_paths in H; [|congruence|congruence].
  destruct H as [(e1 & HS & _) | (size & s1 & HS & H)].
  { eapply preserves_eq; [apply pending_file_Stat | exact HS]. }
  pose proof (preserves_eq _ _ _ _ _ pending_file_Stat HS) as P1.
  destruct H as [(e1 & _ & HR & _) | (s2 & HR & H)].
  { eapply keeps_pending_trans; [exact P1|].
    eapply preserves_eq; [apply pending_rotate | exact HR]. }
  assert (P2 : keeps_pending s s2).
  { destruct (rotation_due size (wr s)); [|now subst].
    eapply keeps_pending_trans; [exact P1|].
    eapply preserves_eq; [apply pending_rotate | exact HR]. }
  destruct H as [(e1 & HW & _) | (s3 & HW & H)].
  { eapply keeps_pending_trans; [exact P2|].
    eapply preserves_eq; [apply pending_file_Write | exact HW]. }
  destruct H as [(e1 & HY & _) | (s4 & _ & ? & _)]; [|discriminate].
  eapply keeps_pending_trans; [exact P2|].
  eapply keeps_pending_trans.
  - eapply preserves_eq; [apply pending_file_Write | exact HW].
  - eapply preserves_eq; [apply pending_file_Sync | exact HY].
Qed.

Lemma evolves_file_Stat : preserves evolves file_Stat.
Proof. apply preserves_file_Stat; evolves_side. Qed.

(** *** Calls on the handle that succeed *)

Lemma file_Stat_ok s size s' :
  file_Stat s = (inl size, s') ->
  file (wr s) = Some (mkFile false) /\
  next_outcome (os s) = Succeeds /\
  size = size_of (filePath (wr s)) (files (os s)) /\
  s' = mkSt (wr s) (syscall_step (SysStat (filePath (wr s))) (files (os s))
                                 true (os s)).
Proof.
  change (file_Stat s) with
    (on_file (@inr Z error) (lift (sys_fstat (filePath (wr s)))) s).
  destruct (on_file_cases (@inr Z error) (lift (sys_fstat (filePath (wr s)))) s)
    as [[_ ->]|[[_ ->]|[Hf ->]]]; try discriminate.
  rewrite lift_eq. unfold sys_fstat.
  destruct (next_outcome (os s)); cbn; intros [= <- <-]; auto.
Qed.

Lemma file_Write_ok d s s' :
  file_Write d s = (None, s') ->
  file (wr s) = Some (mkFile false) /\
  next_outcome (os s) = Succeeds /\
  s' = mkSt (wr s)
            (syscall_step (SysWrite (filePath (wr s)) d)
                          (fs_append (filePath (wr s)) d (files (os s)))
                          true (os s)).
Proof.
  change (file_Write d s) with
    (on_file (@Some error) (lift (sys_write (filePath (wr s)) d)) s).
  destruct (on_file_cases (@Some error) (lift (sys_write (filePath (wr s)) d)) s)
    as [[_ ->]|[[_ ->]|[Hf ->]]]; try discriminate.
  rewrite lift_eq. unfold sys_write.
  destruct (next_outcome (os s)); cbn; intros [= <-]; auto.
Qed.

Lemma file_Sync_ok s s' :
  file_Sync s = (None, s') ->
  file (wr s) = Some (mkFile false) /\
  next_outcome (os s) = Succeeds /\
  s' = mkSt (wr s)
            (syscall_step (SysSync (filePath (wr s))) (files (os s)) true (os s)).
Proof.
  change (file_Sync s) with
    (on_file (@Some error) (lift (sys_fsync (filePath (wr s)))) s).
  destruct (on_file_cases (@Some error) (lift (sys_fsync (filePath (wr s)))) s)
    as [[_ ->]|[[_ ->]|[Hf ->]]]; try discriminate.
  rewrite lift_eq. unfold sys_fsync.
  destruct (next_outcome (os s)); cbn; intros [= <-]; auto.
Qed.

(** [Close] on the handle, whatever the handle is. *)
Lemma file_Close_eq s :
  file_Close s =
  match file (wr s) with
  | None => (Some ErrInvalid, s)
  | Some f =>
      if closed f then (Some ErrFileClosed, s)
      else
        let c := SysClose (filePath (wr s)) in
        (if is_ok (next_outcome (os s)) then None else Some (ErrIO c),
         mkSt (set_file (Some (mkFile true)) (wr s))
              (syscall_step c (files (os s)) (is_ok (next_outcome (os s)))
                            (os s)))
  end.
Proof.
  unfold file_Close, on_file, bind, get_writer, modify_writer, ret.
  destruct (file (wr s)) as [[[|]]|]; try reflexivity.
  unfold lift, sys_close. cbn.
  destruct (next_outcome (os s)); reflexivity.
Qed.

Lemma clock_read_now x : now (snd (clock_read x)) = fst (clock_read x).
Proof. unfold clock_read. destruct (future x); reflexivity. Qed.

Lemma clock_read_files x : files (snd (clock_read x)) = files x.
Proof. unfold clock_read. destruct (future x); reflexivity. Qed.

Lemma clock_read_trace x : trace (snd (clock_read x)) = trace x.
Proof. unfold clock_read. destruct (future x); reflexivity. Qed.


(** ** A flush and the buffer *)

(** C7.  A flush that fails, wherever it fails, leaves the buffer with
    the bytes it held and [lastFlush] as it was.  A flush that writes a
    non-empty buffer and succeeds leaves the buffer empty and [lastFlush]
    at the clock reading taken after the write and the sync, which are
    then the last two system calls made, both successful. *)
Theorem flush_buffer_atomicity s r s' :
  flush s = (r, s') ->
  (r <> None ->
   buf (wr s') = buf (wr s) /\ lastFlush (wr s') = lastFlush (wr s)) /\
  (r = None -> buf (wr s) <> [] ->
   buf (wr s') = [] /\ lastFlush (wr s') = now (os s') /\
   exists before,
     trace (os s') =
     before ++ [Event (SysWrite (filePath (wr s)) (buf (wr s))) true;
                Event (SysSync (filePath (wr s))) true]).
Proof.
  intros H. split.
  - destruct r as [e|]; [intros _|congruence].
    apply flush_error_pending in H. destruct H as [[? ?] _]. auto.
  - intros -> Hb.
    destruct (file (wr s)) eqn:Hf.
    2:{ rewrite flush_nil_file in H by assumption. discriminate. }
    apply flush_paths in H; [|congruence|assumption].
    destruct H as [(e & _ & ?) | (size & s1 & HS & H)]; [discriminate|].
    destruct H as [(e & _ & _ & ?) | (s2 & HR & H)]; [discriminate|].
    destruct H as [(e & _ & ?) | (s3 & HW & H)]; [discriminate|].
    destruct H as [(e & _ & ?) | (s4 & HY & _ & ->)]; [discriminate|].
    assert (P : filePath (wr s2) = filePath (wr s)).
    { pose proof (preserves_eq _ _ _ _ _ evolves_file_Stat HS) as [[_ [P1 _]] _].
      destruct (rotation_due size (wr s)); [|subst; exact P1].
      pose proof (preserves_eq _ _ _ _ _ evolves_rotate HR) as [[_ [P2 _]] _].
      congruence. }
    apply file_Write_ok in HW as (_ & _ & ->).
    apply file_Sync_ok in HY as (_ & _ & ->).
    unfold flushed. cbn. rewrite clock_read_now, clock_read_trace. cbn.
    rewrite P. repeat split.
    exists (trace (os s2)). now rewrite <- app_assoc.
Qed.

(** *** [Write], step by step *)

Lemma Write_eq p s :
  Write p s =
  let s1 := appended p s in
  if Z.of_nat (List.length (buf (wr s1))) >=? maxBufSize (wr s1)
  then answer p (flush s1)
  else if age s1 >=? maxBufAge (wr s1)
       then answer p (flush (ticked s1))
       else ((Z.of_nat (List.length p), None), ticked s1).
Proof.
  unfold Write, locked, time_Since, time_Now.
  generalize flush. intros F.
  unfold bind, modify_writer, get_writer, ret, answer, age, ticked, appended.
  cbn.
  destruct (_ >=? maxBufSize (wr s)).
  - match goal with |- context [F ?x] => destruct (F x) as [[e|] s2] end;
      reflexivity.
  - rewrite lift_eq. cbn.
    destruct (_ >=? maxBufAge (wr s)).
    + match goal with |- context [F ?x] => destruct (F x) as [[e|] s2] end;
        reflexivity.
    + reflexivity.
Qed.

Lemma appended_nil s : appended [] s = s.
Proof.
  destruct s as [w x]. destruct w. unfold appended, set_buf. cbn.
  now rewrite app_nil_r.
Qed.

(** C5.  [Write p] appends [p] to the buffer.  It then flushes exactly
    when the buffer has reached [maxBufSize] or the time since the last
    flush has reached [maxBufAge], and returns [(len(p), nil)] if no flush
    was due or the flush succeeded, and [(0, err)] if the flush failed
    with [err]. *)
Theorem Write_appends_then_flushes_when_due p s :
  let s1 := appended p s in
  buf (wr s1) = buf (wr s) ++ p /\
  (maxBufSize (wr s) <= Z.of_nat (List.length (buf (wr s) ++ p)) ->
   Write p s = answer p (flush s1)) /\
  (Z.of_nat (List.length (buf (wr s) ++ p)) < maxBufSize (wr s) ->
   maxBufAge (wr s) <= age s ->
   Write p s = answer p (flush (ticked s1))) /\
  (Z.of_nat (List.length (buf (wr s) ++ p)) < maxBufSize (wr s) ->
   age s < maxBufAge (wr s) ->
   Write p s = ((Z.of_nat (List.length p), None), ticked s1) /\
   trace (os (ticked s1)) = trace (os s) /\
   files (os (ticked s1)) = files (os s)) /\
  (forall r, fst r = None ->
             answer p r = ((Z.of_nat (List.length p), None), snd r)) /\
  (forall r e, fst r = Some e -> answer p r = ((0, Some e), snd r)).
Proof.
  cbn zeta. split; [reflexivity|].
  rewrite Write_eq. cbn zeta.
  change (buf (wr (appended p s))) with (buf (wr s) ++ p).
  change (maxBufSize (wr (appended p s))) with (maxBufSize (wr s)).
  change (maxBufAge (wr (appended p s))) with (maxBufAge (wr s)).
  change (age (appended p s)) with (age s).
  repeat split.
  - intros H. destruct (Z.geb_spec (Z.of_nat (List.length (buf (wr s) ++ p)))
                                    (maxBufSize (wr s))); [reflexivity|lia].
  - intros H1 H2.
    destruct (Z.geb_spec (Z.of_nat (List.length (buf (wr s) ++ p)))
                         (maxBufSize (wr s))); [lia|].
    destruct (Z.geb_spec (age s) (maxBufAge (wr s))); [reflexivity|lia].
  - destruct (Z.geb_spec (Z.of_nat (List.length (buf (wr s) ++ p)))
                         (maxBufSize (wr s))); [lia|].
    destruct (Z.geb_spec (age s) (maxBufAge (wr s))); [lia|reflexivity].
  - cbn. apply clock_read_trace.
  - cbn. apply clock_read_files.
  - intros r Hr. unfold answer. now rewrite Hr.
  - intros r e Hr. unfold answer. now rewrite Hr.
Qed.

(** *** The paths through [rotate] *)

(** [rotate] as [flush] calls it, with the handle open. *)
Lemma rotate_open_eq s :
  file (wr s) = Some (mkFile false) ->
  rotate s =
  let path := filePath (wr s) in
  let x := os s in
  match next_outcome x with
  | Fails _ =>
      (Some (ErrIO (SysClose path)),
       mkSt (set_file (Some (mkFile true)) (wr s))
            (syscall_step (SysClose path) (files x) false x))
  | Succeeds =>
      let x1 := syscall_step (SysClose path) (files x) true x in
      let t := fst (clock_read x1) in
      let x2 := snd (clock_read x1) in
      let r := sys_rename path (archive_path (dirPath (wr s)) t) x2 in
      match fst r with
      | Some e => (Some e, mkSt (set_file None (wr s)) (snd r))
      | None =>
          let o := sys_open path (snd r) in
          match fst o with
          | inr e => (Some e, mkSt (set_file None (wr s)) (snd o))
          | inl f => (None, mkSt (set_file (Some f) (wr s)) (snd o))
          end
      end
  end.
Proof.
  intros Hf. unfold rotate, guard, bind, get_writer, ret.
  rewrite Hf. rewrite file_Close_eq, Hf. cbn [closed].
  unfold modify_writer, time_Now, archive_path.
  destruct (next_outcome (os s)); cbn [is_ok]; [|reflexivity].
  rewrite !lift_eq. cbn [fst snd wr os].
  match goal with |- context [sys_rename ?a ?b ?c] =>
    destruct (sys_rename a b c) as [[e|] x3] end; cbn [fst snd]; [reflexivity|].
  rewrite !lift_eq. cbn [fst snd wr os filePath set_file].
  match goal with |- context [sys_open ?a ?c] =>
    destruct (sys_open a c) as [[f|e] x4] end; reflexivity.
Qed.

(** *** Files that exist *)

Lemma fs_lookup_append p q d fs :
  fs_lookup p (fs_append q d fs) =
  if String.eqb p q
  then option_map (fun c => c ++ d) (fs_lookup p fs)
  else fs_lookup p fs.
Proof.
  induction fs as [|[k c] r IH]; cbn.
  - now destruct (String.eqb p q).
  - destruct (String.eqb_spec q k) as [->|Hqk]; cbn.
    + destruct (String.eqb_spec p k) as [->|Hpk]; cbn; reflexivity.
    + destruct (String.eqb_spec p k) as [->|Hpk]; cbn.
      * destruct (String.eqb_spec k q); [congruence|reflexivity].
      * exact IH.
Qed.

Lemma fs_lookup_snoc p q c fs :
  fs_lookup p (fs ++ [(q, c)]) =
  match fs_lookup p fs with
  | Some c' => Some c'
  | None => if String.eqb p q then Some c else None
  end.
Proof.
  induction fs as [|[k c'] r IH]; cbn; [reflexivity|].
  destruct (String.eqb p k); [reflexivity | exact IH].
Qed.

Lemma fs_lookup_create p fs : fs_lookup p (fs_create p fs) <> None.
Proof.
  unfold fs_create. destruct (fs_lookup p fs) eqn:E; [congruence|].
  rewrite fs_lookup_snoc, E, String.eqb_refl. discriminate.
Qed.

(** *** States a Writer can be in *)

Lemma apply_Options_frame opts w :
  let w' := fold_left (fun w o => apply_Option o w) opts w in
  dirPath w' = dirPath w /\ buf w' = buf w /\ file w' = file w /\
  lastFlush w' = lastFlush w.
Proof.
  revert w. induction opts as [|o rest IH]; intros w; cbn; [auto|].
  destruct (IH (apply_Option o w)) as (H1 & H2 & H3 & H4).
  cbn zeta in *. rewrite H1, H2, H3, H4. destruct o; auto.
Qed.

Lemma New_wf dir opts x w x' :
  New dir opts x = (inl w, x') -> wf (mkSt w x').
Proof.
  unfold New.
  destruct (sys_stat_path dir x) as [[e|] x1]; [discriminate|].
  destruct (clock_read x1) as [t x2].
  set (w0 := mkWriter _ _ _ _ _ _ _ _ _).
  destruct (apply_Options_frame opts w0) as (Hd & Hb & _ & _).
  cbn zeta in *.
  set (w1 := fold_left _ opts w0) in *.
  unfold sys_open. destruct (next_outcome x2); [|discriminate].
  intros [= <- <-]. repeat split; cbn.
  - discriminate.
  - intros _. apply fs_lookup_create.
Qed.

(** A call that changes neither the Writer nor the set of files that
    exist keeps the state well-formed. *)
Lemma wf_same_writer s s' :
  wf s -> wr s' = wr s ->
  (forall p, fs_lookup p (files (os s)) <> None ->
             fs_lookup p (files (os s')) <> None) ->
  wf s'.
Proof.
  intros (H1 & H2 & H3) Hw Hx. unfold wf. rewrite Hw.
  repeat split; auto.
Qed.

Lemma file_Stat_eq s :
  file_Stat s =
  on_file (@inr Z error) (lift (sys_fstat (filePath (wr s)))) s.
Proof. reflexivity. Qed.

Lemma file_Write_eq d s :
  file_Write d s =
  on_file (@Some error) (lift (sys_write (filePath (wr s)) d)) s.
Proof. reflexivity. Qed.

Lemma file_Sync_eq s :
  file_Sync s = on_file (@Some error) (lift (sys_fsync (filePath (wr s)))) s.
Proof. reflexivity. Qed.

Lemma file_Stat_wf s : wf s -> wf (snd (file_Stat s)).
Proof.
  intros H. rewrite file_Stat_eq.
  destruct (on_file_cases (@inr Z error) (lift (sys_fstat (filePath (wr s)))) s)
    as [[_ ->]|[[_ ->]|[_ ->]]]; auto.
  rewrite lift_eq. cbn [snd]. apply (wf_same_writer s); auto.
  unfold sys_fstat. destruct (next_outcome (os s)); auto.
Qed.

Lemma file_Write_wf d s : wf s -> wf (snd (file_Write d s)).
Proof.
  intros H. rewrite file_Write_eq.
  destruct (on_file_cases (@Some error) (lift (sys_write (filePath (wr s)) d)) s)
    as [[_ ->]|[[_ ->]|[_ ->]]]; auto.
  rewrite lift_eq. cbn [snd]. apply (wf_same_writer s); auto.
  unfold sys_write. intros p Hp.
  destruct (next_outcome (os s)); cbn; rewrite fs_lookup_append;
    destruct (String.eqb p (filePath (wr s))); auto;
    destruct (fs_lookup p (files (os s))); cbn; congruence.
Qed.

Lemma file_Sync_wf s : wf s -> wf (snd (file_Sync s)).
Proof.
  intros H. rewrite file_Sync_eq.
  destruct (on_file_cases (@Some error) (lift (sys_fsync (filePath (wr s)))) s)
    as [[_ ->]|[[_ ->]|[_ ->]]]; auto.
  rewrite lift_eq. cbn [snd]. apply (wf_same_writer s); auto.
  unfold sys_fsync. destruct (next_outcome (os s)); auto.
Qed.

Lemma file_Close_wf s : wf s -> wf (snd (file_Close s)).
Proof.
  intros H. rewrite file_Close_eq.
  destruct (file (wr s)) as [[[|]]|] eqn:Hf; auto.
  destruct H as (H1 & _ & _). cbn. repeat split; cbn; auto; discriminate.
Qed.

Lemma rotate_wf s :
  wf s -> file (wr s) = Some (mkFile false) -> buf (wr s) <> [] ->
  wf (snd (rotate s)).
Proof.
  intros (H1 & _ & _) Hf Hb. rewrite rotate_open_eq by assumption. cbn zeta.
  destruct (next_outcome (os s)).
  2:{ repeat split; cbn; auto; discriminate. }
  match goal with |- context [sys_rename ?a ?b ?c] =>
    destruct (sys_rename a b c) as [[e|] x3] end; cbn [fst snd].
  { repeat split; cbn; auto; discriminate. }
  unfold sys_open. destruct (next_outcome x3); cbn [fst snd].
  - repeat split; cbn; auto; try discriminate.
    intros _. apply fs_lookup_create.
  - repeat split; cbn; auto; discriminate.
Qed.

Lemma flush_wf s : wf s -> wf (snd (flush s)).
Proof.
  intros H.
  destruct (file (wr s)) eqn:Hf.
  2:{ now rewrite flush_nil_file. }
  destruct (buf (wr s)) eqn:Hb.
  { rewrite flush_empty by congruence. exact H. }
  destruct (flush s) as [r s'] eqn:E. cbn [snd].
  apply flush_paths in E; [|congruence|congruence].
  destruct E as [(e & HS & _) | (size & s1 & HS & E)].
  { apply file_Stat_wf in H. now rewrite HS in H. }
  pose proof (file_Stat_wf s H) as W1. rewrite HS in W1. cbn [snd] in W1.
  apply file_Stat_ok in HS as (Hopen & _ & _ & Hs1).
  assert (W2 : forall s2,
             (if rotation_due size (wr s) then rotate s1 = (None, s2)
              else s2 = s1) -> wf s2).
  { intros s2 HR. destruct (rotation_due size (wr s)); [|now subst].
    pose proof (rotate_wf s1 W1) as W. rewrite HR in W. apply W.
    - now subst s1.
    - subst s1. cbn. congruence. }
  destruct E as [(e & _ & HR & _) | (s2 & HR & E)].
  { pose proof (rotate_wf s1 W1) as W. rewrite HR in W. apply W.
    - now subst s1.
    - subst s1. cbn. congruence. }
  specialize (W2 s2 HR).
  destruct E as [(e & HW & _) | (s3 & HW & E)].
  { apply (file_Write_wf (buf (wr s))) in W2. now rewrite HW in W2. }
  pose proof (file_Write_wf (buf (wr s)) s2 W2) as W3.
  rewrite HW in W3. cbn [snd] in W3.
  destruct E as [(e & HY & _) | (s4 & HY & _ & ->)].
  { apply file_Sync_wf in W3. now rewrite HY in W3. }
  pose proof (file_Sync_wf s3 W3) as W4. rewrite HY in W4. cbn [snd] in W4.
  apply file_Sync_ok in HY as (Hopen3 & _ & Hs4).
  destruct W4 as (A & B & C). unfold flushed. repeat split; cbn.
  - exact A.
  - subst s4. cbn. rewrite Hopen3. discriminate.
  - rewrite clock_read_files. exact C.
Qed.

Lemma appended_wf p s : wf s -> wf (appended p s).
Proof.
  intros (A & B & C). repeat split; cbn; auto.
  intros Hf E. apply app_eq_nil in E as [E _]. now apply B.
Qed.

Lemma ticked_wf s : wf s -> wf (ticked s).
Proof.
  intros (A & B & C). repeat split; cbn; auto.
  rewrite clock_read_files. exact C.
Qed.

Lemma answer_snd p r : snd (answer p r) = snd r.
Proof. unfold answer. destruct (fst r); reflexivity. Qed.

Lemma Write_wf p s : wf s -> wf (snd (Write p s)).
Proof.
  intros H. rewrite Write_eq. cbn zeta.
  destruct (_ >=? _).
  - rewrite answer_snd. auto using flush_wf, appended_wf.
  - destruct (_ >=? _).
    + rewrite answer_snd. auto using flush_wf, appended_wf, ticked_wf.
    + cbn [snd]. auto using appended_wf, ticked_wf.
Qed.

Lemma Close_eq s :
  Close s =
  match fst (flush s) with
  | Some e => (Some e, snd (flush s))
  | None => file_Close (snd (flush s))
  end.
Proof.
  unfold Close, locked, guard, bind. generalize flush; intros F.
  destruct (F s) as [[e|] s1]; reflexivity.
Qed.

Lemma Close_wf s : wf s -> wf (snd (Close s)).
Proof.
  intros H. rewrite Close_eq. apply flush_wf in H.
  destruct (fst (flush s)); [exact H | now apply file_Close_wf].
Qed.

Lemma step_wf o s : wf s -> wf (snd (step o s)).
Proof.
  intros H. destruct o; cbn [step]; unfold bind.
  - pose proof (Write_wf p s H) as W.
    destruct (Write p s) as [r s1]. exact W.
  - pose proof (flush_wf s H) as W. unfold Flush, locked.
    destruct (flush s) as [r s1]. exact W.
  - pose proof (Close_wf s H) as W.
    destruct (Close s) as [r s1]. exact W.
Qed.

Lemma reachable_wf s : reachable s -> wf s.
Proof.
  induction 1 as [dir opts x w x' H | o s _ IH].
  - eapply New_wf; eauto.
  - now apply step_wf.
Qed.

(** ** The states of [Demo] are states of a program *)

Lemma start_reachable opts x :
  (exists w x', New "logs" opts x = (inl w, x')) ->
  reachable (Demo.start opts x).
Proof.
  intros (w & x' & H). unfold Demo.start. rewrite H. eapply reach_New; eauto.
Qed.

Lemma after_reachable ops s : reachable s -> reachable (Demo.after ops s).
Proof.
  unfold Demo.after. revert s.
  induction ops as [|o rest IH]; intros s H; cbn [run]; [exact H|].
  unfold bind. pose proof (reach_step o s H) as H1.
  destruct (step o s) as [r s1]. cbn [snd] in H1.
  specialize (IH s1 H1). destruct (run rest s1) as [rs s2]. exact IH.
Qed.

(** ** Claims about [Write] and [Flush] *)

(** C9.  On a Writer with an empty buffer [Flush] returns nil and
    changes nothing, [lastFlush] included; a [Write] that comes once
    [maxBufAge] has gone by since [lastFlush] therefore still flushes. *)
Theorem Flush_of_empty_buffer_changes_nothing s :
  reachable s -> buf (wr s) = [] ->
  Flush s = (None, s) /\
  forall p,
    Z.of_nat (List.length p) < maxBufSize (wr s) ->
    maxBufAge (wr s) <= age s ->
    Write p (snd (Flush s)) = answer p (flush (ticked (appended p s))).
Proof.
  intros Hr Hb.
  assert (E : Flush s = (None, s)).
  { apply flush_empty; [|exact Hb].
    apply reachable_wf in Hr as (_ & H & _). intros Hf. now apply H. }
  split; [exact E|]. intros p Hp Ha.
  rewrite E. cbn [snd]. rewrite Write_eq. cbn zeta.
  change (buf (wr (appended p s))) with (buf (wr s) ++ p).
  change (maxBufSize (wr (appended p s))) with (maxBufSize (wr s)).
  change (maxBufAge (wr (appended p s))) with (maxBufAge (wr s)).
  change (age (appended p s)) with (age s).
  rewrite Hb. cbn [app].
  destruct (Z.geb_spec (Z.of_nat (List.length p)) (maxBufSize (wr s))); [lia|].
  destruct (Z.geb_spec (age s) (maxBufAge (wr s))); [reflexivity|lia].
Qed.

Lemma Flush_of_empty_buffer_changes_nothing_witness :
  let s := Demo.start [WithMaxBufAge 5]
             (Demo.world [] [Demo.clock; Time.mk 1761849000123456799 10]) in
  Flush s = (None, s) /\
  Write (Demo.b "late") (snd (Flush s)) =
  answer (Demo.b "late") (flush (ticked (appended (Demo.b "late") s))).
Proof.
  intros s.
  assert (R : reachable s).
  { apply start_reachable. vm_compute. eauto. }
  destruct (Flush_of_empty_buffer_changes_nothing s R eq_refl) as [H1 H2].
  split; [exact H1|].
  apply H2; vm_compute; first [reflexivity | discriminate].
Defined.

Lemma Write_appends_then_flushes_when_due_witness :
  let p := Demo.b "67890" in
  let s := Demo.after [OpWrite (Demo.b "12345")]
             (Demo.start [WithMaxBufSize 10; WithMaxFileSize 1000000]
                         (Demo.world [] [])) in
  Write p s = answer p (flush (appended p s)) /\
  fst (Write p s) = (5, None) /\
  fs_lookup "logs/latest.log" (files (os (snd (Write p s)))) =
  Some (Demo.b "1234567890").
Proof.
  intros p s.
  destruct (Write_appends_then_flushes_when_due p s) as (_ & H & _).
  split; [apply H; vm_compute; discriminate|].
  vm_compute. split; reflexivity.
Defined.

Lemma flush_buffer_atomicity_witness :
  let s := Demo.after [OpWrite (Demo.b "abc")]
             (Demo.start [] (Demo.world [Succeeds; Succeeds; Succeeds; Fails 2] [])) in
  fst (flush s) = Some (ErrIO (SysWrite "logs/latest.log" (Demo.b "abc"))) /\
  buf (wr (snd (flush s))) = Demo.b "abc" /\
  lastFlush (wr (snd (flush s))) = lastFlush (wr s) /\
  fst (flush (snd (flush s))) = None /\
  buf (wr (snd (flush (snd (flush s))))) = [].
Proof.
  intros s.
  destruct (flush_buffer_atomicity s (fst (flush s)) (snd (flush s)))
    as [H1 _]; [apply surjective_pairing|].
  destruct (flush_buffer_atomicity (snd (flush s))
              (fst (flush (snd (flush s)))) (snd (flush (snd (flush s)))))
    as [_ H2]; [apply surjective_pairing|].
  split; [reflexivity|].
  destruct H1 as [A B]; [vm_compute; discriminate|].
  destruct H2 as (C & _ & _); [reflexivity | vm_compute; discriminate|].
  repeat split; assumption.
Defined.

(** ** Where the code parts from its documentation *)

(** C1.  The Writer has no field for a first error and none of its
    methods records one: after a [Flush] whose write failed, the next
    [Flush] goes to the file again and returns nil. *)
Theorem first_error_is_not_latched :
  let s := Demo.after [OpWrite (Demo.b "a")]
             (Demo.start []
                (Demo.world [Succeeds; Succeeds; Succeeds; Fails 0] [])) in
  reachable s /\
  fst (Flush s) = Some (ErrIO (SysWrite "logs/latest.log" (Demo.b "a"))) /\
  fst (Flush (snd (Flush s))) = None /\
  trace (os (snd (Flush (snd (Flush s))))) =
  trace (os (snd (Flush s))) ++
  [Event (SysStat "logs/latest.log") true;
   Event (SysWrite "logs/latest.log" (Demo.b "a")) true;
   Event (SysSync "logs/latest.log") true].
Proof.
  intros s. split.
  - apply after_reachable, start_reachable. vm_compute. eauto.
  - vm_compute. repeat split.
Qed.

(** C2.  [Close] leaves the handle in place, closed, and nothing
    records that the Writer was closed: after a successful [Close] a
    [Write] below the flush thresholds returns [(len(p), nil)] and a
    [Flush] of the empty buffer returns nil.  A second [Close] does fail,
    with the error of closing a closed file, and makes no system call. *)
Theorem calls_after_Close_can_succeed :
  let s := Demo.start [] (Demo.world [] []) in
  reachable s /\
  fst (Close s) = None /\
  fst (Flush (snd (Close s))) = None /\
  fst (Write (Demo.b "x") (snd (Close s))) = (1, None) /\
  fst (Close (snd (Close s))) = Some ErrFileClosed /\
  trace (os (snd (Close (snd (Close s))))) = trace (os (snd (Close s))).
Proof.
  intros s. split.
  - apply start_reachable. vm_compute. eauto.
  - vm_compute. repeat split.
Qed.

(** C3.  [Close] returns as soon as its flush fails: the error is the
    flush's, and the file handle is left open, no close having been
    asked of the system. *)
Theorem Close_keeps_handle_open_when_flush_fails :
  let s := Demo.after [OpWrite (Demo.b "a")]
             (Demo.start [] (Demo.world [Succeeds; Succeeds; Fails 0] [])) in
  reachable s /\
  fst (Close s) = Some (ErrIO (SysStat "logs/latest.log")) /\
  file (wr (snd (Close s))) = Some (mkFile false) /\
  trace (os (snd (Close s))) =
  trace (os s) ++ [Event (SysStat "logs/latest.log") false].
Proof.
  intros s. split.
  - apply after_reachable, start_reachable. vm_compute. eauto.
  - vm_compute. repeat split.
Qed.

(** ** Rotation inside a flush *)

Lemma wrap64_small z : minInt64 <= z <= maxInt64 -> wrap64 z = z.
Proof.
  unfold wrap64, minInt64, maxInt64. intros H.
  rewrite Z.mod_small; lia.
Qed.

Lemma size_of_nonneg p fs : 0 <= size_of p fs.
Proof. unfold size_of. destruct (fs_lookup p fs); lia. Qed.

Lemma file_Stat_open s :
  file (wr s) = Some (mkFile false) -> next_outcome (os s) = Succeeds ->
  file_Stat s =
  (inl (size_of (filePath (wr s)) (files (os s))),
   mkSt (wr s) (syscall_step (SysStat (filePath (wr s))) (files (os s))
                             true (os s))).
Proof.
  intros Hf Ho. rewrite file_Stat_eq.
  destruct (on_file_cases (@inr Z error) (lift (sys_fstat (filePath (wr s)))) s)
    as [[E _]|[[E _]|[_ ->]]]; try congruence.
  rewrite lift_eq. unfold sys_fstat. now rewrite Ho.
Qed.

Lemma file_Write_open d s :
  file (wr s) = Some (mkFile false) ->
  exists ok,
    (ok = true <-> fst (file_Write d s) = None) /\
    wr (snd (file_Write d s)) = wr s /\
    trace (os (snd (file_Write d s))) =
    trace (os s) ++ [Event (SysWrite (filePath (wr s)) d) ok].
Proof.
  intros Hf. rewrite file_Write_eq.
  destruct (on_file_cases (@Some error) (lift (sys_write (filePath (wr s)) d)) s)
    as [[E _]|[[E _]|[_ ->]]]; try congruence.
  rewrite lift_eq. unfold sys_write.
  destruct (next_outcome (os s)); cbn.
  - exists true. repeat split.
  - exists false. repeat split; discriminate.
Qed.

Lemma file_Sync_open s :
  file (wr s) = Some (mkFile false) ->
  exists ok,
    (ok = true <-> fst (file_Sync s) = None) /\
    trace (os (snd (file_Sync s))) =
    trace (os s) ++ [Event (SysSync (filePath (wr s))) ok].
Proof.
  intros Hf. rewrite file_Sync_eq.
  destruct (on_file_cases (@Some error) (lift (sys_fsync (filePath (wr s)))) s)
    as [[E _]|[[E _]|[_ ->]]]; try congruence.
  rewrite lift_eq. unfold sys_fsync.
  destruct (next_outcome (os s)); cbn.
  - exists true. repeat split.
  - exists false. repeat split; discriminate.
Qed.

Lemma clock_read_after_syscall c fs ok x :
  fst (clock_read (syscall_step c fs ok x)) = fst (clock_read x).
Proof. unfold clock_read. cbn. destruct (future x); reflexivity. Qed.

(** A rotation makes rotation calls only, and at least one. *)
Lemma rotate_open_trace s :
  file (wr s) = Some (mkFile false) ->
  exists rot,
    trace (os (snd (rotate s))) = trace (os s) ++ rot /\
    forallb is_rotation_call rot = true /\ rot <> [].
Proof.
  intros Hf. rewrite rotate_open_eq by assumption. cbn zeta.
  destruct (next_outcome (os s)).
  2:{ exists [Event (SysClose (filePath (wr s))) false].
      repeat split; cbn; congruence. }
  set (x2 := snd (clock_read _)).
  assert (T2 : trace x2 =
               trace (os s) ++ [Event (SysClose (filePath (wr s))) true]).
  { subst x2. now rewrite clock_read_trace. }
  unfold sys_rename.
  destruct (next_outcome x2).
  2:{ cbn. rewrite T2, <- app_assoc.
      eexists. split; [reflexivity|]. split; [reflexivity | discriminate]. }
  destruct (fs_rename _ _ _) as [fs|]; cbn [fst snd].
  2:{ cbn. rewrite T2, <- app_assoc.
      eexists. split; [reflexivity|]. split; [reflexivity | discriminate]. }
  unfold sys_open.
  match goal with |- context [next_outcome ?x] => destruct (next_outcome x) end;
    cbn; rewrite T2, <- !app_assoc;
    (eexists; split; [reflexivity|]; split; [reflexivity | discriminate]).
Qed.

(** A rotation that succeeds. *)
Lemma rotate_open_ok s s' :
  file (wr s) = Some (mkFile false) -> rotate s = (None, s') ->
  let path := filePath (wr s) in
  let arch := archive_path (dirPath (wr s)) (fst (clock_read (os s))) in
  exists fs,
    fs_rename path arch (files (os s)) = Some fs /\
    s' = mkSt (set_file (Some (mkFile false)) (wr s))
              (rotated path arch fs (os s)).
Proof.
  intros Hf. rewrite rotate_open_eq by assumption. cbn zeta.
  destruct (next_outcome (os s)); [|discriminate].
  unfold sys_rename. rewrite clock_read_files.
  set (x2 := snd (clock_read _)).
  destruct (next_outcome x2); [|discriminate].
  rewrite clock_read_after_syscall.
  cbn [files syscall_step].
  destruct (fs_rename _ _ _) as [fs|] eqn:Er; cbn [fst snd]; [|discriminate].
  unfold sys_open.
  match goal with |- context [next_outcome ?x] => destruct (next_outcome x) end;
    cbn [fst snd]; [|discriminate].
  intros [= <-]. exists fs. split; reflexivity.
Qed.

Lemma fs_lookup_remove p q fs :
  fs_lookup p (fs_remove q fs) =
  if String.eqb p q then None else fs_lookup p fs.
Proof.
  induction fs as [|[k c] r IH]; cbn.
  - now destruct (String.eqb p q).
  - destruct (String.eqb_spec q k) as [->|Hqk]; cbn.
    + rewrite IH. destruct (String.eqb_spec p k); reflexivity.
    + rewrite IH. destruct (String.eqb_spec p k) as [->|Hpk].
      * destruct (String.eqb_spec k q); [congruence|reflexivity].
      * reflexivity.
Qed.

(** *** The archive is never the active file *)

Lemma fixed_head k u :
  exists d rest, Time.fixed (S k) u = Time.digit d :: rest /\ 0 <= d < 10.
Proof.
  revert u. induction k as [|k IH]; intros u.
  - exists (u mod 10), []. split; [reflexivity | apply Z.mod_pos_bound; lia].
  - destruct (IH (u / 10)) as (d & rest & E & Hd).
    change (Time.fixed (S (S k)) u)
      with (Time.fixed (S k) (u / 10) ++ [Time.digit (u mod 10)]).
    rewrite E. exists d, (rest ++ [Time.digit (u mod 10)]). split; auto.
Qed.

Lemma digit_not_letter d c :
  0 <= d < 10 -> (c = "l" \/ c = "-")%char -> Time.digit d <> c.
Proof.
  intros Hd Hc.
  assert (d = 0 \/ d = 1 \/ d = 2 \/ d = 3 \/ d = 4 \/ d = 5 \/ d = 6 \/
          d = 7 \/ d = 8 \/ d = 9) as H by lia.
  destruct Hc as [-> | ->];
    repeat (destruct H as [-> | H]; [discriminate|]); subst; discriminate.
Qed.

Lemma appendInt_head x w :
  (0 < w)%nat ->
  exists c rest,
    Time.appendInt x w = c :: rest /\
    (c = "-"%char \/ exists d, 0 <= d < 10 /\ c = Time.digit d).
Proof.
  intros Hw. unfold Time.appendInt.
  destruct (Nat.max w (Time.ndigits (Z.abs x))) as [|k] eqn:E; [lia|].
  destruct (fixed_head k (Z.abs x)) as (d & rest & -> & Hd).
  destruct (x <? 0); cbn; eauto 10.
Qed.

Lemma Format_head t :
  exists c rest, Time.Format t = String c rest /\ c <> "l"%char.
Proof.
  unfold Time.Format, Time.Format_chars.
  destruct (Time.civil_from_days _) as [[y m] d].
  destruct (appendInt_head y 4) as (c & rest & -> & Hc); [lia|].
  cbn [app string_of_list_ascii]. eexists _, _. split; [reflexivity|].
  destruct Hc as [-> | (k & Hk & ->)]; [discriminate|].
  apply digit_not_letter; auto.
Qed.

Lemma string_app_inv_head a x y : (a ++ x = a ++ y)%string -> x = y.
Proof.
  induction a as [|c a IH]; cbn; [auto|]. intros [= H]. auto.
Qed.

Lemma archive_path_not_latest dir t :
  archive_path dir t <> filepath_Join dir "latest.log".
Proof.
  unfold archive_path, filepath_Join. intros H.
  apply string_app_inv_head in H. cbn in H. injection H as H.
  destruct (Format_head t) as (c & rest & E & Hc).
  rewrite E in H. cbn in H. injection H as H _. contradiction.
Qed.

Lemma rotation_files path arch old d fs :
  fs_lookup path fs = Some old -> arch <> path ->
  let fs' := fs_append path d
               (fs_create path
                  (fs_remove arch (fs_remove path fs) ++ [(arch, old)])) in
  fs_lookup arch fs' = Some old /\ fs_lookup path fs' = Some d.
Proof.
  intros Hp Hne. cbn zeta.
  assert (E1 : String.eqb arch path = false) by now apply String.eqb_neq.
  assert (E2 : String.eqb path arch = false)
    by (apply String.eqb_neq; congruence).
  assert (N : fs_lookup path
                (fs_remove arch (fs_remove path fs) ++ [(arch, old)]) = None).
  { rewrite fs_lookup_snoc, !fs_lookup_remove, E2, String.eqb_refl.
    reflexivity. }
  assert (A : fs_lookup arch
                (fs_remove arch (fs_remove path fs) ++ [(arch, old)]) =
              Some old).
  { rewrite fs_lookup_snoc, fs_lookup_remove, !String.eqb_refl.
    reflexivity. }
  unfold fs_create. rewrite N. rewrite !fs_lookup_append, E1, String.eqb_refl.
  rewrite (fs_lookup_snoc arch), (fs_lookup_snoc path path), A, N,
    String.eqb_refl.
  split; reflexivity.
Qed.

(** C6.  A flush with bytes to write, whose handle is open and whose
    size query succeeds, rotates exactly when the size of the active file
    plus the length of the buffer reaches [maxFileSize].  The calls of the
    rotation (close, rename, open) all come before the write and the sync,
    none after; and when such a flush succeeds the archive holds what the
    active file held and the fresh active file holds exactly the buffer. *)
Theorem rotation_comes_before_the_write s r s' :
  reachable s ->
  file (wr s) = Some (mkFile false) ->
  buf (wr s) <> [] ->
  next_outcome (os s) = Succeeds ->
  size_of (filePath (wr s)) (files (os s)) +
  Z.of_nat (List.length (buf (wr s))) <= maxInt64 ->
  flush s = (r, s') ->
  let path := filePath (wr s) in
  let total := size_of path (files (os s)) +
               Z.of_nat (List.length (buf (wr s))) in
  let arch := archive_path (dirPath (wr s)) (fst (clock_read (os s))) in
  exists rot out,
    trace (os s') = trace (os s) ++ Event (SysStat path) true :: rot ++ out /\
    forallb is_rotation_call rot = true /\
    forallb is_output_call out = true /\
    (rot <> [] <-> maxFileSize (wr s) <= total) /\
    (r = None ->
     out = [Event (SysWrite path (buf (wr s))) true;
            Event (SysSync path) true] /\
     (maxFileSize (wr s) <= total ->
      rot = [Event (SysClose path) true; Event (SysRename path arch) true;
             Event (SysOpen path) true] /\
      fs_lookup arch (files (os s')) = fs_lookup path (files (os s)) /\
      fs_lookup path (files (os s')) = Some (buf (wr s))) /\
     (total < maxFileSize (wr s) ->
      fs_lookup path (files (os s')) =
      option_map (fun c => c ++ buf (wr s))
                 (fs_lookup path (files (os s))))).
Proof.
  intros Hr Hf Hb Ho Hfit H. cbn zeta.
  pose proof (reachable_wf s Hr) as (Hpath & _ & Hex).
  specialize (Hex Hf).
  apply flush_paths in H; [|congruence|assumption].
  rewrite file_Stat_open in H by assumption.
  destruct H as [(e & [=] & _) | (size & s1 & [= <- <-] & H)].
  set (path := filePath (wr s)) in *.
  set (size := size_of path (files (os s))) in *.
  set (n := Z.of_nat (List.length (buf (wr s)))) in *.
  set (s1 := mkSt (wr s) (syscall_step (SysStat path) (files (os s)) true (os s)))
    in *.
  assert (Hdue : rotation_due size (wr s) = true <-> maxFileSize (wr s) <= size + n).
  { unfold rotation_due, int64_add. fold n.
    rewrite wrap64_small.
    - destruct (Z.geb_spec (size + n) (maxFileSize (wr s))); split;
        intros; try lia; try congruence.
    - pose proof (size_of_nonneg path (files (os s))).
      unfold minInt64. fold size in H0. lia. }
  assert (Hf1 : file (wr s1) = Some (mkFile false)) by exact Hf.
  destruct H as [(e & Hd & HR & ->) | (s2 & HR & H)].
  { (* the rotation fails *)
    destruct (rotate_open_trace s1 Hf1) as (rot & T & Frot & Hne).
    rewrite HR in T. cbn [snd] in T.
    exists rot, []. rewrite app_nil_r.
    split; [rewrite T; subst s1; cbn; now rewrite <- app_assoc|].
    split; [exact Frot|]. split; [reflexivity|].
    split; [split; intros; [now apply Hdue | exact Hne]|].
    discriminate. }
  (* the state the write starts from *)
  assert (exists rot,
             trace (os s2) = trace (os s) ++ Event (SysStat path) true :: rot /\
             forallb is_rotation_call rot = true /\
             (rot <> [] <-> maxFileSize (wr s) <= size + n) /\
             file (wr s2) = Some (mkFile false) /\
             filePath (wr s2) = path /\
             (maxFileSize (wr s) <= size + n ->
              rot = [Event (SysClose path) true;
                     Event (SysRename path
                              (archive_path (dirPath (wr s))
                                 (fst (clock_read (os s))))) true;
                     Event (SysOpen path) true] /\
              exists old,
                fs_lookup path (files (os s)) = Some old /\
                files (os s2) =
                fs_create path
                  (fs_remove (archive_path (dirPath (wr s))
                                (fst (clock_read (os s))))
                     (fs_remove path (files (os s))) ++
                   [(archive_path (dirPath (wr s)) (fst (clock_read (os s))),
                     old)])) /\
             (size + n < maxFileSize (wr s) -> files (os s2) = files (os s)))
    as (rot & T2 & Frot & Hrot & Hf2 & Hp2 & Hyes & Hno).
  { destruct (rotation_due size (wr s)) eqn:Ed.
    - apply rotate_open_ok in HR; [|exact Hf1].
      destruct HR as (fs & Hren & ->).
      subst s1. cbn [wr os dirPath filePath] in *.
      rewrite clock_read_after_syscall in *.
      cbn [files syscall_step] in Hren.
      unfold fs_rename in Hren.
      destruct (fs_lookup (filePath (wr s)) (files (os s))) as [old|] eqn:El;
        [|discriminate].
      injection Hren as <-.
      eexists. split.
      { unfold rotated. cbn. rewrite clock_read_trace. cbn.
        rewrite <- !app_assoc. reflexivity. }
      split; [reflexivity|]. split; [split; intros; [now apply Hdue|discriminate]|].
      split; [reflexivity|]. split; [reflexivity|].
      split.
      + intros _. split; [reflexivity|]. exists old.
        split; [exact El | reflexivity].
      + intros Hlt. apply proj1 in Hdue. specialize (Hdue eq_refl). lia.
    - subst s2. exists []. split; [reflexivity|]. split; [reflexivity|].
      split.
      { split; [congruence|]. intros Hle. apply Hdue in Hle. congruence. }
      split; [exact Hf|]. split; [reflexivity|].
      split; [|reflexivity].
      intros Hle. apply Hdue in Hle. congruence. }
  destruct (file_Write_open (buf (wr s)) s2 Hf2) as (okw & Hokw & Hw3 & T3).
  rewrite Hp2 in T3.
  destruct H as [(e & HW & ->) | (s3 & HW & H)].
  { rewrite HW in *. cbn [fst snd] in *.
    exists rot, [Event (SysWrite path (buf (wr s))) okw].
    split; [rewrite T3, T2, <- app_assoc; reflexivity|].
    repeat split; try assumption; try apply Hrot; discriminate. }
  rewrite HW in *. cbn [fst snd] in *.
  assert (okw = true) as -> by now apply Hokw.
  assert (Hf3 : file (wr s3) = Some (mkFile false)) by now rewrite Hw3.
  destruct (file_Sync_open s3 Hf3) as (oks & Hoks & T4).
  rewrite Hw3, Hp2 in T4.
  destruct H as [(e & HY & ->) | (s4 & HY & -> & ->)].
  { rewrite HY in *. cbn [fst snd] in *.
    exists rot, [Event (SysWrite path (buf (wr s))) true;
                 Event (SysSync path) oks].
    split; [rewrite T4, T3, T2, <- !app_assoc; reflexivity|].
    repeat split; try assumption; try apply Hrot; discriminate. }
  rewrite HY in *. cbn [fst snd] in *.
  assert (oks = true) as -> by now apply Hoks.
  exists rot, [Event (SysWrite path (buf (wr s))) true;
               Event (SysSync path) true].
  assert (F4 : files (os (flushed s4)) =
               fs_append path (buf (wr s)) (files (os s2))).
  { apply file_Write_ok in HW as (_ & _ & ->).
    apply file_Sync_ok in HY as (_ & _ & ->).
    unfold flushed. cbn. rewrite clock_read_files. cbn. now rewrite Hp2. }
  split.
  { unfold flushed. cbn. rewrite clock_read_trace, T4, T3, T2, <- !app_assoc.
    reflexivity. }
  split; [exact Frot|]. split; [reflexivity|]. split; [exact Hrot|].
  intros _. split; [reflexivity|]. split.
  - intros Hle. destruct (Hyes Hle) as (-> & old & El & F2).
    split; [reflexivity|].
    rewrite F4, F2, El.
    apply rotation_files; [exact El|].
    rewrite Hpath. apply archive_path_not_latest.
  - intros Hlt. rewrite F4, (Hno Hlt), fs_lookup_append, String.eqb_refl.
    reflexivity.
Qed.

Lemma rotation_comes_before_the_write_witness :
  let s := Demo.after [OpWrite (Demo.b "abcde")]
             (Demo.start [WithMaxFileSize 20] (Demo.prior [] [])) in
  let s' := snd (flush s) in
  fs_lookup (archive_path "logs" Demo.clock) (files (os s')) =
  Some (Demo.b "123456789012345678") /\
  fs_lookup "logs/latest.log" (files (os s')) = Some (Demo.b "abcde").
Proof.
  intros s s'.
  assert (R : reachable s).
  { apply after_reachable, start_reachable. vm_compute. eauto. }
  destruct (rotation_comes_before_the_write s (fst (flush s)) (snd (flush s)) R)
    as (rot & out & _ & _ & _ & _ & H);
    [reflexivity | vm_compute; discriminate | reflexivity
    | vm_compute; discriminate | apply surjective_pairing |].
  destruct H as (_ & H & _); [reflexivity|].
  destruct H as (_ & A & B); [vm_compute; discriminate|].
  split; [exact A | exact B].
Defined.

(** ** The bytes on disk *)

Lemma fs_remove_absent p fs : ~ In p (map fst fs) -> fs_remove p fs = fs.
Proof.
  induction fs as [|[k c] r IH]; cbn; [reflexivity|]. intros H.
  destruct (String.eqb_spec p k) as [->|Hpk]; [tauto|].
  rewrite IH; tauto.
Qed.

Lemma fs_remove_names p q fs :
  In q (map fst (fs_remove p fs)) <-> q <> p /\ In q (map fst fs).
Proof.
  induction fs as [|[k c] r IH]; cbn; [tauto|].
  destruct (String.eqb_spec p k) as [->|Hpk]; cbn; rewrite IH.
  - split; [tauto|]. intros [H1 [H2|H2]]; [congruence|tauto].
  - split; [|tauto]. intros [H|H]; [|tauto]. subst. split; auto.
Qed.

Lemma fs_remove_NoDup p fs :
  NoDup (map fst fs) -> NoDup (map fst (fs_remove p fs)).
Proof.
  induction fs as [|[k c] r IH]; cbn; [auto|]. intros H.
  inversion H as [|? ? Hk Hr]; subst.
  destruct (String.eqb p k); [auto|]. cbn. constructor; [|auto].
  rewrite fs_remove_names. tauto.
Qed.

Lemma fs_remove_app p a b :
  fs_remove p (a ++ b) = fs_remove p a ++ fs_remove p b.
Proof.
  induction a as [|[k c] r IH]; cbn; [reflexivity|].
  destruct (String.eqb p k); cbn; now rewrite IH.
Qed.

Lemma fs_remove_append p d fs :
  fs_remove p (fs_append p d fs) = fs_remove p fs.
Proof.
  induction fs as [|[k c] r IH]; cbn; [reflexivity|].
  destruct (String.eqb_spec p k) as [->|Hpk]; cbn.
  - now rewrite String.eqb_refl.
  - destruct (String.eqb_spec p k); [contradiction|]. now rewrite IH.
Qed.

Lemma fs_append_names p d fs : map fst (fs_append p d fs) = map fst fs.
Proof.
  induction fs as [|[k c] r IH]; cbn; [reflexivity|].
  destruct (String.eqb p k); cbn; now rewrite ?IH.
Qed.

Lemma fs_lookup_names p fs : fs_lookup p fs <> None <-> In p (map fst fs).
Proof.
  induction fs as [|[k c] r IH]; cbn; [tauto|].
  destruct (String.eqb_spec p k) as [->|Hpk].
  - split; [auto | discriminate].
  - rewrite IH. split; [auto|]. intros [H|H]; [congruence | exact H].
Qed.

Lemma fs_remove_perm p fs :
  NoDup (map fst fs) -> In p (map fst fs) ->
  Permutation (map fst fs) (p :: map fst (fs_remove p fs)).
Proof.
  induction fs as [|[k c] r IH]; cbn; [tauto|]. intros H Hin.
  inversion H as [|? ? Hk Hr]; subst.
  destruct (String.eqb_spec p k) as [->|Hpk].
  - rewrite fs_remove_absent by assumption. reflexivity.
  - destruct Hin as [E|Hin]; [congruence|]. cbn.
    rewrite perm_swap. constructor. auto.
Qed.

Lemma renamed_to_app a b : renamed_to (a ++ b) = renamed_to a ++ renamed_to b.
Proof. apply flat_map_app. Qed.

Lemma calls_between_app s s' new :
  trace (os s') = trace (os s) ++ new -> calls_between s s' = new.
Proof.
  unfold calls_between. intros ->.
  rewrite skipn_app, skipn_all, Nat.sub_diag. reflexivity.
Qed.

(** A flush with no rotation appends the buffer to the active file. *)
Lemma on_disk_append s d (x' : World) w' :
  fs_lookup (filePath (wr s)) (files (os s)) <> None ->
  filePath w' = filePath (wr s) ->
  files x' = fs_append (filePath (wr s)) d (files (os s)) ->
  on_disk (mkSt w' x') = on_disk s ++ d.
Proof.
  intros Hex Hp Hfs. unfold on_disk. cbn [wr os]. rewrite Hp, Hfs.
  rewrite fs_remove_append, fs_lookup_append, String.eqb_refl.
  destruct (fs_lookup (filePath (wr s)) (files (os s))); [|congruence].
  cbn. now rewrite app_assoc.
Qed.

(** A rotation to a new name, then the write: the archive takes what
    the active file held, the fresh active file takes the buffer. *)
Lemma on_disk_rotate path arch old d fs :
  fs_lookup path fs = Some old -> NoDup (map fst fs) ->
  ~ In arch (map fst fs) ->
  let fs' := fs_append path d
               (fs_create path
                  (fs_remove arch (fs_remove path fs) ++ [(arch, old)])) in
  List.concat (map snd (fs_remove path fs')) ++
  match fs_lookup path fs' with Some c => c | None => [] end =
  (List.concat (map snd (fs_remove path fs)) ++ old) ++ d /\
  NoDup (map fst fs') /\
  Permutation (map fst fs') (map fst fs ++ [arch]).
Proof.
  intros Hl Hnd Hnew. cbn zeta.
  assert (Hin : In path (map fst fs)).
  { apply fs_lookup_names. congruence. }
  assert (Hne : arch <> path) by (intros ->; contradiction).
  destruct (rotation_files path arch old d fs Hl Hne) as [_ ->].
  set (X := fs_remove path fs).
  assert (HX : fs_remove arch X = X).
  { apply fs_remove_absent. unfold X. rewrite fs_remove_names. tauto. }
  assert (HpX : ~ In path (map fst X)).
  { unfold X. rewrite fs_remove_names. tauto. }
  assert (HaX : ~ In arch (map fst X)).
  { unfold X. rewrite fs_remove_names. tauto. }
  rewrite HX.
  assert (N : fs_lookup path (X ++ [(arch, old)]) = None).
  { destruct (fs_lookup path (X ++ [(arch, old)])) eqn:E; [|reflexivity].
    assert (In path (map fst (X ++ [(arch, old)]))) as Hi
      by (apply fs_lookup_names; congruence).
    rewrite map_app, in_app_iff in Hi. cbn in Hi.
    destruct Hi as [Hi|[Hi|[]]]; [contradiction | congruence]. }
  unfold fs_create. rewrite N.
  split; [|split].
  - rewrite fs_remove_append, !fs_remove_app.
    rewrite (fs_remove_absent path X) by assumption.
    cbn. destruct (String.eqb_spec path arch); [congruence|].
    rewrite String.eqb_refl. cbn.
    rewrite app_nil_r, map_app, concat_app. cbn. now rewrite app_nil_r.
  - rewrite fs_append_names, !map_app. cbn.
    rewrite <- app_assoc. cbn.
    apply NoDup_app; [now apply fs_remove_NoDup| |].
    + constructor; [cbn; intuition congruence|].
      constructor; [auto | constructor].
    + intros q Hq [<-|[<-|[]]]; contradiction.
  - rewrite fs_append_names, !map_app. cbn.
    rewrite <- app_assoc. cbn.
    apply Permutation_sym.
    transitivity ((path :: map fst X) ++ [arch]).
    { apply Permutation_app_tail. apply fs_remove_perm; assumption. }
    cbn.
    replace (map fst X ++ [arch; path])
      with ((map fst X ++ [arch]) ++ [path])
      by (rewrite <- app_assoc; reflexivity).
    apply Permutation_cons_append.
Qed.

(** What a successful flush does to the bytes on disk, provided the
    rotation, if there is one, renames to a name new to the directory. *)
Lemma flush_roundtrip s s' :
  wf s -> flush s = (None, s') ->
  exists new,
    trace (os s') = trace (os s) ++ new /\
    (NoDup (names (os s)) ->
     (forall dst, In dst (renamed_to new) -> ~ In dst (names (os s))) ->
     on_disk s' ++ buf (wr s') = on_disk s ++ buf (wr s) /\
     NoDup (names (os s')) /\
     Permutation (names (os s')) (names (os s) ++ renamed_to new)).
Proof.
  intros W H.
  destruct (file (wr s)) eqn:Hf.
  2:{ rewrite flush_nil_file in H by assumption. discriminate. }
  destruct (buf (wr s)) eqn:Hb.
  { rewrite flush_empty in H by congruence. injection H as <-.
    exists []. rewrite !app_nil_r. split; [reflexivity|]. intros Hnd _.
    rewrite Hb, app_nil_r. auto. }
  rewrite <- Hb in *.
  apply flush_paths in H; [|congruence|rewrite Hb; discriminate].
  destruct H as [(e & _ & ?) | (size & s1 & HS & H)]; [discriminate|].
  destruct H as [(e & _ & _ & ?) | (s2 & HR & H)]; [discriminate|].
  destruct H as [(e & _ & ?) | (s3 & HW & H)]; [discriminate|].
  destruct H as [(e & _ & ?) | (s4 & HY & _ & ->)]; [discriminate|].
  apply file_Stat_ok in HS as (Hopen & _ & _ & ->).
  destruct W as (Hpath & _ & Hex). specialize (Hex Hopen).
  set (path := filePath (wr s)) in *.
  destruct (rotation_due size (wr s)).
  - apply rotate_open_ok in HR; [|exact Hopen].
    cbn [wr os dirPath filePath files syscall_step] in HR.
    destruct HR as (fs & Hren & ->).
    set (arch := archive_path _ _) in *.
    unfold fs_rename in Hren. fold path in Hren.
    destruct (fs_lookup path (files (os s))) as [old|] eqn:El; [|discriminate].
    injection Hren as <-.
    apply file_Write_ok in HW as (_ & _ & ->).
    apply file_Sync_ok in HY as (_ & _ & ->).
    exists [Event (SysStat path) true; Event (SysClose path) true;
            Event (SysRename path arch) true; Event (SysOpen path) true;
            Event (SysWrite path (buf (wr s))) true;
            Event (SysSync path) true].
    split.
    { unfold flushed, rotated. cbn. repeat (rewrite clock_read_trace; cbn).
      rewrite <- !app_assoc. reflexivity. }
    intros Hnd Hnew. specialize (Hnew arch (or_introl eq_refl)).
    destruct (on_disk_rotate path arch old (buf (wr s)) (files (os s))
                El Hnd Hnew) as (D & N & P).
    unfold on_disk, names, flushed, rotated. cbn.
    repeat (rewrite clock_read_files; cbn). fold path.
    rewrite app_nil_r, El. auto.
  - subst s2.
    apply file_Write_ok in HW as (_ & _ & ->).
    apply file_Sync_ok in HY as (_ & _ & ->).
    exists [Event (SysStat path) true;
            Event (SysWrite path (buf (wr s))) true;
            Event (SysSync path) true].
    split.
    { unfold flushed. cbn. repeat (rewrite clock_read_trace; cbn).
      rewrite <- !app_assoc. reflexivity. }
    intros Hnd _. cbn [renamed_to flat_map call succeeded app].
    rewrite !app_nil_r. split; [|split].
    + unfold flushed. rewrite (on_disk_append s (buf (wr s)));
        [reflexivity | exact Hex | reflexivity |].
      cbn. now rewrite clock_read_files.
    + unfold names, flushed. cbn. rewrite clock_read_files. cbn.
      now rewrite fs_append_names.
    + unfold names, flushed. cbn. rewrite clock_read_files. cbn.
      now rewrite fs_append_names.
Qed.

Lemma on_disk_same s s' :
  filePath (wr s') = filePath (wr s) -> files (os s') = files (os s) ->
  on_disk s' = on_disk s.
Proof. unfold on_disk. now intros -> ->. Qed.

Lemma NoDup_app_disjoint {A} (l1 l2 : list A) a :
  NoDup (l1 ++ l2) -> In a l2 -> ~ In a l1.
Proof.
  induction l1 as [|b l1 IH]; cbn; [tauto|]. intros H Ha [->|Hb].
  - inversion H; subst. rewrite in_app_iff in *. tauto.
  - inversion H; subst. tauto.
Qed.

Lemma step_roundtrip o s r s' :
  wf s -> step o s = (r, s') -> err r = None ->
  exists new,
    trace (os s') = trace (os s) ++ new /\
    (NoDup (names (os s)) ->
     (forall dst, In dst (renamed_to new) -> ~ In dst (names (os s))) ->
     on_disk s' ++ buf (wr s') = on_disk s ++ buf (wr s) ++ payload o /\
     NoDup (names (os s')) /\
     Permutation (names (os s')) (names (os s) ++ renamed_to new)).
Proof.
  intros W H Hr.
  destruct o as [p| |]; cbn [step payload] in *.
  - (* Write *)
    apply bind_inv in H as ([n e] & s1 & HW & H).
    injection H as <- <-. cbn in Hr. subst e.
    rewrite Write_eq in HW. cbn zeta in HW.
    assert (Hfl : forall s0,
               wf s0 -> buf (wr s0) = buf (wr s) ++ p ->
               filePath (wr s0) = filePath (wr s) ->
               files (os s0) = files (os s) -> trace (os s0) = trace (os s) ->
               answer p (flush s0) = (n, None, s1) ->
               exists new,
                 trace (os s1) = trace (os s) ++ new /\
                 (NoDup (names (os s)) ->
                  (forall dst, In dst (renamed_to new) ->
                               ~ In dst (names (os s))) ->
                  on_disk s1 ++ buf (wr s1) = on_disk s ++ buf (wr s) ++ p /\
                  NoDup (names (os s1)) /\
                  Permutation (names (os s1))
                              (names (os s) ++ renamed_to new))).
    { intros s0 W0 B0 P0 F0 T0 HA. unfold answer in HA.
      destruct (flush s0) as [[e|] s2] eqn:E; cbn in HA; [discriminate|].
      injection HA as _ <-.
      destruct (flush_roundtrip s0 s2 W0 E) as (new & T & K).
      exists new. rewrite <- T0. split; [exact T|].
      unfold names in *. rewrite <- F0, <- B0, <- (on_disk_same s s0) by auto.
      exact K. }
    destruct (_ >=? _).
    + apply (Hfl (appended p s)); auto using appended_wf.
    + destruct (_ >=? _).
      * apply (Hfl (ticked (appended p s)));
          auto using appended_wf, ticked_wf; cbn.
        -- apply clock_read_files.
        -- apply clock_read_trace.
      * injection HW as _ <-. exists []. cbn.
        rewrite clock_read_trace, !app_nil_r. split; [reflexivity|].
        intros Hnd _. unfold names. cbn. rewrite clock_read_files.
        split; [|auto].
        rewrite (on_disk_same s); [reflexivity | reflexivity |].
        cbn. apply clock_read_files.
  - (* Flush *)
    apply bind_inv in H as (e & s1 & HF & H).
    injection H as <- <-. cbn in Hr. subst e.
    destruct (flush_roundtrip s s1 W HF) as (new & T & K).
    exists new. split; [exact T|]. rewrite app_nil_r. exact K.
  - (* Close *)
    apply bind_inv in H as (e & s1 & HC & H).
    injection H as <- <-. cbn in Hr. subst e.
    rewrite Close_eq in HC.
    destruct (flush s) as [[e|] s2] eqn:E; cbn [fst snd] in HC; [discriminate|].
    destruct (flush_roundtrip s s2 W E) as (new & T & K).
    rewrite file_Close_eq in HC.
    destruct (file (wr s2)) as [[[|]]|]; try discriminate.
    destruct (next_outcome (os s2)); cbn in HC; [|discriminate].
    injection HC as <-.
    exists (new ++ [Event (SysClose (filePath (wr s2))) true]). cbn.
    split; [now rewrite T, app_assoc|].
    rewrite renamed_to_app. cbn. rewrite !app_nil_r.
    intros Hnd Hnew. destruct (K Hnd Hnew) as (A & B & C).
    split; [|auto]. rewrite <- A. reflexivity.
Qed.

Lemma accepted_cons o ops r rs :
  err r = None -> accepted (o :: ops) (r :: rs) = payload o ++ accepted ops rs.
Proof. intros H. destruct o; cbn; now rewrite ?H. Qed.

Lemma run_roundtrip ops s rs s' :
  reachable s -> run ops s = (rs, s') ->
  Forall (fun r => err r = None) rs ->
  exists new,
    trace (os s') = trace (os s) ++ new /\
    (NoDup (names (os s) ++ renamed_to new) ->
     on_disk s' ++ buf (wr s') = on_disk s ++ buf (wr s) ++ accepted ops rs).
Proof.
  revert s rs s'. induction ops as [|o rest IH]; intros s rs s' R H Hok.
  - injection H as <- <-. exists []. rewrite !app_nil_r. split; [reflexivity|].
    intros _. reflexivity.
  - cbn [run] in H.
    apply bind_inv in H as (r & s1 & H1 & H).
    apply bind_inv in H as (rs1 & s2 & H2 & H).
    injection H as <- <-.
    inversion Hok as [|? ? Hr Hrest]; subst.
    assert (R1 : reachable s1).
    { pose proof (reach_step o s R) as R1. now rewrite H1 in R1. }
    destruct (step_roundtrip o s r s1 (reachable_wf s R) H1 Hr)
      as (new1 & T1 & K1).
    destruct (IH s1 rs1 s2 R1 H2 Hrest) as (new2 & T2 & K2).
    exists (new1 ++ new2). split; [now rewrite T2, T1, app_assoc|].
    rewrite renamed_to_app. intros Hnd.
    assert (Hnd1 : NoDup (names (os s) ++ renamed_to new1)).
    { rewrite app_assoc in Hnd. now apply NoDup_app_remove_r in Hnd. }
    destruct K1 as (A1 & _ & P1).
    { now apply NoDup_app_remove_r in Hnd1. }
    { intros dst Hd. now apply (NoDup_app_disjoint _ _ _ Hnd1). }
    rewrite K2.
    + rewrite accepted_cons by assumption.
      rewrite app_assoc, A1, <- !app_assoc. reflexivity.
    + rewrite app_assoc in Hnd.
      eapply Permutation_NoDup; [|exact Hnd].
      apply Permutation_app_tail. now apply Permutation_sym.
Qed.

Lemma New_buf dir opts x w x' : New dir opts x = (inl w, x') -> buf w = [].
Proof.
  unfold New.
  destruct (sys_stat_path dir x) as [[e|] x1]; [discriminate|].
  destruct (clock_read x1) as [t x2].
  set (w0 := mkWriter _ _ _ _ _ _ _ _ _).
  destruct (apply_Options_frame opts w0) as (_ & Hb & _ & _).
  cbn zeta in *.
  destruct (sys_open _ x2) as [[f|e] x3]; [|discriminate].
  intros [= <- _]. exact Hb.
Qed.

(** *** Runs whose flushes all succeed *)

(** [Write] and [Flush] return the error of their flush and no other. *)
Lemma flush_succeeds_Write p s :
  flush_succeeds (OpWrite p) s <-> snd (fst (Write p s)) = None.
Proof.
  unfold flush_succeeds. rewrite Write_eq. cbn zeta.
  destruct (_ >=? _).
  - unfold answer. destruct (fst (flush (appended p s))); cbn;
      split; congruence.
  - destruct (_ >=? _); [|cbn; tauto].
    unfold answer. destruct (fst (flush (ticked (appended p s)))); cbn;
      split; congruence.
Qed.

Lemma flush_succeeds_err o s :
  flush_succeeds o s -> o <> OpClose -> err (fst (step o s)) = None.
Proof.
  intros H Hne. destruct o as [p| |]; [| |contradiction].
  - apply flush_succeeds_Write in H. cbn [step]. unfold bind, ret.
    destruct (Write p s) as [[n e] s1]. exact H.
  - cbn [step flush_succeeds] in *. unfold bind, ret, Flush, locked.
    destruct (flush s) as [e s1]. exact H.
Qed.

(** Closing the file moves no byte. *)
Lemma file_Close_keeps s :
  exists new,
    trace (os (snd (file_Close s))) = trace (os s) ++ new /\
    renamed_to new = [] /\
    files (os (snd (file_Close s))) = files (os s) /\
    buf (wr (snd (file_Close s))) = buf (wr s) /\
    filePath (wr (snd (file_Close s))) = filePath (wr s).
Proof.
  rewrite file_Close_eq.
  destruct (file (wr s)) as [[[|]]|]; cbn [snd closed];
    try (exists []; now rewrite app_nil_r).
  eexists [_]. cbn. auto.
Qed.

Lemma op_eq_Close o : o = OpClose \/ o <> OpClose.
Proof. destruct o; [right|right|left]; congruence. Qed.

Lemma step_roundtrip_flush o s :
  wf s -> flush_succeeds o s ->
  exists new,
    trace (os (snd (step o s))) = trace (os s) ++ new /\
    (NoDup (names (os s)) ->
     (forall dst, In dst (renamed_to new) -> ~ In dst (names (os s))) ->
     on_disk (snd (step o s)) ++ buf (wr (snd (step o s))) =
     on_disk s ++ buf (wr s) ++ payload o /\
     NoDup (names (os (snd (step o s)))) /\
     Permutation (names (os (snd (step o s))))
                 (names (os s) ++ renamed_to new)).
Proof.
  intros W H.
  destruct (op_eq_Close o) as [->|Hne].
  2:{ exact (step_roundtrip o s _ _ W (surjective_pairing _)
               (flush_succeeds_err o s H Hne)). }
  cbn [flush_succeeds] in H. cbn [step payload]. unfold bind, ret.
  destruct (Close s) as [e s'] eqn:HC. cbn [snd].
  assert (E : s' = snd (Close s)) by now rewrite HC.
  rewrite Close_eq in E.
  destruct (flush s) as [oe s2] eqn:EF. cbn [fst snd] in *. subst oe.
  destruct (flush_roundtrip s s2 W EF) as (new & T & K).
  destruct (file_Close_keeps s2) as (more & T2 & Rn & Fs & Bf & Pa).
  rewrite <- E in *.
  exists (new ++ more). split; [now rewrite T2, T, app_assoc|].
  rewrite renamed_to_app, Rn, !app_nil_r.
  intros Hnd Hnew. destruct (K Hnd Hnew) as (A & B & C).
  unfold names in *. rewrite Fs, Bf, (on_disk_same s2 s') by assumption.
  auto.
Qed.

Lemma accepted_step o ops s rs :
  flush_succeeds o s ->
  accepted (o :: ops) (fst (step o s) :: rs) = payload o ++ accepted ops rs.
Proof.
  intros H. destruct o as [p| |]; try reflexivity.
  cbn [accepted payload].
  now rewrite (flush_succeeds_err (OpWrite p) s H) by discriminate.
Qed.

Lemma run_roundtrip_flush ops s :
  wf s -> every_flush_succeeds ops s ->
  exists new,
    trace (os (snd (run ops s))) = trace (os s) ++ new /\
    (NoDup (names (os s) ++ renamed_to new) ->
     on_disk (snd (run ops s)) ++ buf (wr (snd (run ops s))) =
     on_disk s ++ buf (wr s) ++ accepted ops (fst (run ops s))).
Proof.
  revert s. induction ops as [|o rest IH]; intros s W Hok.
  - exists []. cbn. rewrite !app_nil_r. split; [reflexivity|].
    intros _. reflexivity.
  - destruct Hok as [Ho Hrest].
    destruct (step_roundtrip_flush o s W Ho) as (new1 & T1 & K1).
    pose proof (accepted_step o rest s (fst (run rest (snd (step o s)))) Ho)
      as Acc.
    pose proof (step_wf o s W) as W1.
    cbn [run]. unfold bind, ret.
    destruct (step o s) as [r s1]. cbn [fst snd] in *.
    destruct (IH s1 W1 Hrest) as (new2 & T2 & K2).
    destruct (run rest s1) as [rs s2]. cbn [fst snd] in *.
    exists (new1 ++ new2). split; [now rewrite T2, T1, app_assoc|].
    rewrite renamed_to_app. intros Hnd.
    assert (Hnd1 : NoDup (names (os s) ++ renamed_to new1)).
    { rewrite app_assoc in Hnd. now apply NoDup_app_remove_r in Hnd. }
    destruct K1 as (A1 & _ & P1).
    { now apply NoDup_app_remove_r in Hnd1. }
    { intros dst Hd. now apply (NoDup_app_disjoint _ _ _ Hnd1). }
    rewrite K2.
    + rewrite Acc, app_assoc, A1, <- !app_assoc. reflexivity.
    + rewrite app_assoc in Hnd.
      eapply Permutation_NoDup; [|exact Hnd].
      apply Permutation_app_tail. now apply Permutation_sym.
Qed.

(** A run of calls that all return nil is one whose flushes all
    succeed. *)
Lemma nil_calls_flush_succeeds ops s :
  Forall (fun r => err r = None) (fst (run ops s)) ->
  every_flush_succeeds ops s.
Proof.
  revert s. induction ops as [|o rest IH]; intros s H; [exact I|].
  cbn [run every_flush_succeeds] in *. unfold bind, ret in H.
  destruct (step o s) as [r s1] eqn:E. cbn [snd].
  specialize (IH s1). destruct (run rest s1) as [rs s2]. cbn [fst] in *.
  inversion H as [|? ? Hr Hrest]; subst. split; [|auto].
  destruct o as [p| |]; cbn [step] in E; unfold bind, ret in E.
  - apply flush_succeeds_Write. destruct (Write p s) as [[n e] s3].
    injection E as <- _. exact Hr.
  - cbn [flush_succeeds]. unfold Flush, locked in E.
    destruct (flush s) as [e s3]. injection E as <- _. exact Hr.
  - cbn [flush_succeeds]. rewrite Close_eq in E.
    destruct (fst (flush s)) as [e|]; [|reflexivity].
    injection E as <- _. exact Hr.
Qed.

(** C4, as the code has it.  Over any run of calls in which every flush,
    and so every rotation, succeeds, and in which no rotation renames to
    a name already in the directory, the archives in rotation order, then
    the active file, then the bytes still in the buffer, are what the
    directory held when the Writer was made followed by every byte
    written, in call order.  A [Close] that flushes and then fails to
    close the file, or finds it closed already, is such a call. *)
Theorem roundtrip_with_pending_bytes dir opts x w x0 ops :
  New dir opts x = (inl w, x0) ->
  let s0 := mkSt w x0 in
  let rs := fst (run ops s0) in
  let s1 := snd (run ops s0) in
  every_flush_succeeds ops s0 ->
  NoDup (names x0 ++ renamed_to (calls_between s0 s1)) ->
  on_disk s1 ++ buf (wr s1) = on_disk s0 ++ accepted ops rs.
Proof.
  intros HN s0 rs s1 Hok Hnd.
  assert (W : wf s0) by (eapply New_wf; eauto).
  destruct (run_roundtrip_flush ops s0 W Hok) as (new & T & K).
  fold s1 in T, K. fold rs in K.
  rewrite (calls_between_app _ _ _ T) in Hnd.
  rewrite (K Hnd). cbn [s0 wr]. now rewrite (New_buf _ _ _ _ _ HN).
Qed.

Lemma roundtrip_with_pending_bytes_witness :
  let s0 := Demo.start [WithMaxFileSize 20; WithMaxBufSize 5]
              (Demo.prior [] []) in
  let ops := [OpWrite (Demo.b "abcde"); OpWrite (Demo.b "xy"); OpFlush;
              OpWrite (Demo.b "z"); OpClose; OpClose] in
  map err (fst (run ops s0)) =
  [None; None; None; None; None; Some ErrFileClosed] /\
  on_disk (snd (run ops s0)) ++ buf (wr (snd (run ops s0))) =
  Demo.b "123456789012345678" ++ Demo.b "abcdexyz".
Proof.
  intros s0 ops. split; [vm_compute; reflexivity|].
  refine (roundtrip_with_pending_bytes "logs"
            [WithMaxFileSize 20; WithMaxBufSize 5] (Demo.prior [] [])
            (wr s0) (os s0) ops eq_refl _ _).
  - vm_compute. repeat split.
  - vm_compute. repeat (constructor; [cbn; intuition discriminate|]).
    constructor.
Defined.

(** C4 as stated fails, in three ways, although no flush and no
    rotation fails.  A [Write] below the thresholds returns nil and its
    bytes are in no file.  A directory whose [latest.log] held bytes
    before the Writer was made keeps them in front of what is written.
    And three rotations within one microsecond rename to one name, the
    third replacing the archive that held the first [Write]. *)
Lemma roundtrip_misses_pending_bytes :
  (let s0 := Demo.start [] (Demo.world [] []) in
   let ops := [OpWrite (Demo.b "a")] in
   every_flush_succeeds ops s0 /\
   Forall (fun r => err r = None) (fst (run ops s0)) /\
   on_disk s0 = [] /\
   accepted ops (fst (run ops s0)) = Demo.b "a" /\
   on_disk (snd (run ops s0)) <> accepted ops (fst (run ops s0))) /\
  (let s0 := Demo.start [] (Demo.prior [] []) in
   let ops := [OpWrite (Demo.b "a"); OpFlush] in
   every_flush_succeeds ops s0 /\
   Forall (fun r => err r = None) (fst (run ops s0)) /\
   buf (wr (snd (run ops s0))) = [] /\
   accepted ops (fst (run ops s0)) = Demo.b "a" /\
   on_disk (snd (run ops s0)) = Demo.b "123456789012345678a") /\
  (let s0 := Demo.start [WithMaxFileSize 1; WithMaxBufSize 1]
               (Demo.world [] []) in
   let ops := [OpWrite (Demo.b "a"); OpWrite (Demo.b "b");
               OpWrite (Demo.b "c")] in
   every_flush_succeeds ops s0 /\
   Forall (fun r => err r = None) (fst (run ops s0)) /\
   on_disk s0 = [] /\
   buf (wr (snd (run ops s0))) = [] /\
   accepted ops (fst (run ops s0)) = Demo.b "abc" /\
   on_disk (snd (run ops s0)) = Demo.b "bc").
Proof.
  vm_compute. repeat split; try discriminate; repeat constructor.
Qed.

(** ** The timestamp in an archive's name *)

Lemma length_fixed w n : List.length (Time.fixed w n) = w.
Proof.
  revert n. induction w as [|w IH]; intros n; cbn; [reflexivity|].
  rewrite length_app, IH. cbn. lia.
Qed.

Lemma digit_inj a b :
  0 <= a < 10 -> 0 <= b < 10 -> Time.digit a = Time.digit b -> a = b.
Proof.
  intros Ha Hb H. unfold Time.digit in H.
  apply (f_equal nat_of_ascii) in H.
  rewrite !nat_ascii_embedding in H by lia. lia.
Qed.

Lemma fixed_inj w a b :
  0 <= a < 10 ^ Z.of_nat w -> 0 <= b < 10 ^ Z.of_nat w ->
  Time.fixed w a = Time.fixed w b -> a = b.
Proof.
  revert a b. induction w as [|w IH]; intros a b Ha Hb H.
  - cbn in Ha, Hb. lia.
  - cbn [Time.fixed] in H. apply app_inj_tail in H as [H1 H2].
    rewrite Nat2Z.inj_succ, Z.pow_succ_r in Ha, Hb by lia.
    apply digit_inj in H2; try (apply Z.mod_pos_bound; lia).
    apply IH in H1.
    + rewrite (Z.div_mod a 10), (Z.div_mod b 10) by lia. congruence.
    + split; [apply Z.div_pos; lia | apply Z.div_lt_upper_bound; lia].
    + split; [apply Z.div_pos; lia | apply Z.div_lt_upper_bound; lia].
Qed.

Lemma ndigits_aux_bound fuel u :
  0 <= u < 2 ^ Z.of_nat fuel -> u < 10 ^ Z.of_nat (Time.ndigits_aux fuel u).
Proof.
  revert u. induction fuel as [|f IH]; intros u Hu.
  - cbn in *. lia.
  - cbn [Time.ndigits_aux]. destruct (Z.leb_spec u 0); [cbn; lia|].
    rewrite Nat2Z.inj_succ, Z.pow_succ_r in * by lia.
    assert (u / 10 < 10 ^ Z.of_nat (Time.ndigits_aux f (u / 10))).
    { apply IH. split; [apply Z.div_pos; lia|].
      apply Z.div_lt_upper_bound; lia. }
    rewrite (Z.div_mod u 10) at 1 by lia.
    pose proof (Z.mod_pos_bound u 10). lia.
Qed.

Lemma ndigits_bound u : 0 <= u -> u < 10 ^ Z.of_nat (Time.ndigits u).
Proof.
  intros Hu. apply ndigits_aux_bound. split; [exact Hu|].
  rewrite Nat2Z.inj_succ, Z2Nat.id by apply Z.log2_nonneg.
  destruct (Z.eq_dec u 0) as [->|Hne]; [cbn; lia|].
  apply Z.log2_spec. lia.
Qed.

Lemma ndigits_aux_le fuel u w :
  u < 10 ^ Z.of_nat w -> (Time.ndigits_aux fuel u <= w)%nat.
Proof.
  revert u w. induction fuel as [|f IH]; intros u w Hu; cbn; [lia|].
  destruct (Z.leb_spec u 0); [lia|].
  destruct w as [|w]; [cbn in Hu; lia|].
  apply le_n_S, IH.
  rewrite Nat2Z.inj_succ, Z.pow_succ_r in Hu by lia.
  apply Z.div_lt_upper_bound; lia.
Qed.

(** Within its width a number is printed with exactly that many
    digits. *)
Lemma appendInt_small x w :
  0 <= x < 10 ^ Z.of_nat w -> Time.appendInt x w = Time.fixed w x.
Proof.
  intros Hx. unfold Time.appendInt.
  destruct (Z.ltb_spec x 0); [lia|]. rewrite Z.abs_eq by lia. cbn [app].
  rewrite Nat.max_l; [reflexivity|].
  apply ndigits_aux_le. lia.
Qed.

Lemma appendInt_inj x y w :
  (0 < w)%nat -> Time.appendInt x w = Time.appendInt y w -> x = y.
Proof.
  intros Hw. unfold Time.appendInt.
  set (kx := Nat.max w (Time.ndigits (Z.abs x))).
  set (ky := Nat.max w (Time.ndigits (Z.abs y))).
  assert (Bx : 0 <= Z.abs x < 10 ^ Z.of_nat kx).
  { split; [lia|]. eapply Z.lt_le_trans; [apply ndigits_bound; lia|].
    apply Z.pow_le_mono_r; lia. }
  assert (By : 0 <= Z.abs y < 10 ^ Z.of_nat ky).
  { split; [lia|]. eapply Z.lt_le_trans; [apply ndigits_bound; lia|].
    apply Z.pow_le_mono_r; lia. }
  assert (Hd : forall k u l, (0 < k)%nat -> Time.fixed k u <> "-"%char :: l).
  { intros [|k] u l Hk E; [lia|].
    destruct (fixed_head k u) as (d & rest & E' & Hd).
    rewrite E' in E. injection E as E _.
    revert E. apply digit_not_letter; auto. }
  assert (Hsame : Time.fixed kx (Z.abs x) = Time.fixed ky (Z.abs y) ->
                  Z.abs x = Z.abs y).
  { intros E. assert (kx = ky).
    { apply (f_equal (@List.length ascii)) in E.
      now rewrite !length_fixed in E. }
    subst ky. rewrite H in *. eapply fixed_inj; eauto. }
  destruct (Z.ltb_spec x 0), (Z.ltb_spec y 0); cbn [app]; intros E.
  - injection E as E. apply Hsame in E. lia.
  - symmetry in E. apply Hd in E; [contradiction | lia].
  - apply Hd in E; [contradiction | lia].
  - apply Hsame in E. lia.
Qed.

Lemma firstn_fixed_9_6 n :
  firstn 6 (Time.fixed 9 n) = Time.fixed 6 (n / 1000).
Proof.
  change (Time.fixed 9 n)
    with (Time.fixed 6 (n / 10 / 10 / 10) ++
          [Time.digit (n / 10 / 10 mod 10)] ++
          [Time.digit (n / 10 mod 10)] ++ [Time.digit (n mod 10)]).
  rewrite firstn_app, length_fixed, Nat.sub_diag, firstn_O, app_nil_r.
  rewrite firstn_all2 by (rewrite length_fixed; lia).
  rewrite !Z.div_div by lia. reflexivity.
Qed.

Lemma all_from_spec f n z :
  all_from f n z = true -> forall i, z <= i < z + Z.of_nat n -> f i = true.
Proof.
  revert z. induction n as [|n IH]; intros z H i Hi; [lia|].
  cbn [all_from] in H. apply andb_prop in H as [H0 H1].
  destruct (Z.eq_dec i z) as [->|Hne]; [exact H0|].
  apply (IH (z + 1)); [exact H1 | lia].
Qed.

Lemma civil_ok_era : all_from civil_ok (Z.to_nat 146097) 0 = true.
Proof. vm_cast_no_check (eq_refl true). Qed.

Lemma civil_ok_all doe : 0 <= doe < 146097 -> civil_ok doe = true.
Proof.
  intros H. apply (all_from_spec civil_ok _ 0 civil_ok_era).
  rewrite Z2Nat.id; lia.
Qed.

Lemma civil_from_days_eq days :
  Time.civil_from_days days =
  let z := days + 719468 in
  let era := z / 146097 in
  let '(yoe, m, d) := civil_of_doe (z - era * 146097) in
  (if m <=? 2 then yoe + era * 400 + 1 else yoe + era * 400, m, d).
Proof. reflexivity. Qed.

Lemma civil_of_doe_spec doe yoe m d :
  0 <= doe < 146097 -> civil_of_doe doe = (yoe, m, d) ->
  0 <= yoe <= 399 /\ 1 <= m <= 12 /\ 1 <= d <= 31 /\
  doe_of_civil yoe m d = doe.
Proof.
  intros H E. pose proof (civil_ok_all doe H) as K.
  unfold civil_ok in K. rewrite E in K.
  repeat (apply andb_prop in K as [K ?]). lia.
Qed.

Lemma civil_from_days_range days y m d :
  Time.civil_from_days days = (y, m, d) -> 1 <= m <= 12 /\ 1 <= d <= 31.
Proof.
  rewrite civil_from_days_eq. cbn zeta.
  set (z := days + 719468). set (era := z / 146097).
  destruct (civil_of_doe (z - era * 146097)) as [[yoe m'] d'] eqn:E.
  intros [= _ <- <-].
  apply civil_of_doe_spec in E; [tauto|].
  subst era. pose proof (Z.mod_pos_bound z 146097).
  rewrite Z.mod_eq in H by lia. lia.
Qed.

Lemma civil_from_days_inj a b :
  Time.civil_from_days a = Time.civil_from_days b -> a = b.
Proof.
  rewrite !civil_from_days_eq. cbn zeta.
  set (za := a + 719468). set (ea := za / 146097).
  set (zb := b + 719468). set (eb := zb / 146097).
  assert (Ha : 0 <= za - ea * 146097 < 146097).
  { subst ea. pose proof (Z.mod_pos_bound za 146097).
    rewrite Z.mod_eq in H by lia. lia. }
  assert (Hb : 0 <= zb - eb * 146097 < 146097).
  { subst eb. pose proof (Z.mod_pos_bound zb 146097).
    rewrite Z.mod_eq in H by lia. lia. }
  destruct (civil_of_doe (za - ea * 146097)) as [[ya ma] da] eqn:Ea.
  destruct (civil_of_doe (zb - eb * 146097)) as [[yb mb] db] eqn:Eb.
  apply civil_of_doe_spec in Ea as (Ya & _ & _ & Da); [|exact Ha].
  apply civil_of_doe_spec in Eb as (Yb & _ & _ & Db); [|exact Hb].
  intros [= Hy <- <-].
  assert (ya + ea * 400 = yb + eb * 400) as Hyy.
  { destruct (ma <=? 2); lia. }
  assert (ea = eb) by lia. assert (ya = yb) by lia. subst.
  assert (za = zb) by lia. subst za zb. lia.
Qed.

Lemma app_inj_length_l {A} (l1 l2 r1 r2 : list A) :
  List.length l1 = List.length l2 -> l1 ++ r1 = l2 ++ r2 ->
  l1 = l2 /\ r1 = r2.
Proof.
  revert l2. induction l1 as [|a l1 IH]; intros [|b l2] L E;
    try discriminate; cbn in *; [auto|].
  injection E as -> E. injection L as L.
  destruct (IH l2 L E) as [-> ->]. auto.
Qed.

Lemma app_inj_length_r {A} (l1 l2 r1 r2 : list A) :
  List.length r1 = List.length r2 -> l1 ++ r1 = l2 ++ r2 ->
  l1 = l2 /\ r1 = r2.
Proof.
  intros L E. apply app_inj_length_l; [|exact E].
  apply (f_equal (@List.length A)) in E. rewrite !length_app in E. lia.
Qed.

(** The timestamp shows the instant to the microsecond and no finer. *)
Lemma Format_chars_micro t :
  Time.Format_chars t = Format_of_micro (Time.micro t).
Proof.
  unfold Time.Format_chars, Format_of_micro, Time.micro. cbv zeta.
  replace (Time.wall t / 1000 / 1000000) with (Time.wall t / 1000000000)
    by (rewrite Z.div_div by lia; reflexivity).
  set (sec := Time.wall t / 1000000000).
  destruct (Time.civil_from_days (sec / 86400)) as [[y m] d] eqn:E.
  cbv iota beta.
  apply civil_from_days_range in E as [Hm Hd].
  pose proof (Z.mod_pos_bound sec 86400 ltac:(lia)) as Hs.
  pose proof (Z.mod_pos_bound (Time.wall t) 1000000000 ltac:(lia)) as Hn.
  set (sod := sec mod 86400) in *.
  rewrite (appendInt_small m 2) by (cbn; lia).
  rewrite (appendInt_small d 2) by (cbn; lia).
  rewrite (appendInt_small (sod / 3600) 2)
    by (cbn; Z.div_mod_to_equations; lia).
  rewrite (appendInt_small (sod mod 3600 / 60) 2)
    by (cbn; Z.div_mod_to_equations; lia).
  rewrite (appendInt_small (sod mod 60) 2)
    by (cbn; Z.div_mod_to_equations; lia).
  rewrite (appendInt_small _ 9) by (cbn; lia).
  rewrite firstn_fixed_9_6.
  replace (Time.wall t mod 1000000000 / 1000)
    with (Time.wall t / 1000 mod 1000000)
    by (Z.div_mod_to_equations; lia).
  reflexivity.
Qed.

Lemma Format_of_micro_inj u v :
  Format_of_micro u = Format_of_micro v -> u = v.
Proof.
  unfold Format_of_micro. cbv zeta.
  set (su := u / 1000000). set (sv := v / 1000000).
  destruct (Time.civil_from_days (su / 86400)) as [[yu mu] du] eqn:Eu.
  destruct (Time.civil_from_days (sv / 86400)) as [[yv mv] dv] eqn:Ev.
  cbv iota beta.
  pose proof (civil_from_days_range _ _ _ _ Eu) as [Hmu Hdu].
  pose proof (civil_from_days_range _ _ _ _ Ev) as [Hmv Hdv].
  pose proof (Z.mod_pos_bound su 86400 ltac:(lia)) as Hsu.
  pose proof (Z.mod_pos_bound sv 86400 ltac:(lia)) as Hsv.
  pose proof (Z.mod_pos_bound u 1000000 ltac:(lia)) as Hfu.
  pose proof (Z.mod_pos_bound v 1000000 ltac:(lia)) as Hfv.
  set (tu := su mod 86400) in *. set (tv := sv mod 86400) in *.
  intros H.
  apply app_inj_length_r in H as [Hy H];
    [|rewrite !length_app, !length_fixed; reflexivity].
  apply appendInt_inj in Hy; [|lia].
  apply app_inj_length_l in H as [Hm H]; [|now rewrite !length_fixed].
  apply app_inj_length_l in H as [Hd H]; [|now rewrite !length_fixed].
  apply app_inj_length_l in H as [_ H]; [|reflexivity].
  apply app_inj_length_l in H as [Hh H]; [|now rewrite !length_fixed].
  apply app_inj_length_l in H as [Hi H]; [|now rewrite !length_fixed].
  apply app_inj_length_l in H as [Hs H]; [|now rewrite !length_fixed].
  apply app_inj_length_l in H as [_ Hf]; [|reflexivity].
  apply fixed_inj in Hm; [|cbn; lia|cbn; lia].
  apply fixed_inj in Hd; [|cbn; lia|cbn; lia].
  apply fixed_inj in Hh;
    [|cbn; Z.div_mod_to_equations; lia|cbn; Z.div_mod_to_equations; lia].
  apply fixed_inj in Hi;
    [|cbn; Z.div_mod_to_equations; lia|cbn; Z.div_mod_to_equations; lia].
  apply fixed_inj in Hs;
    [|cbn; Z.div_mod_to_equations; lia|cbn; Z.div_mod_to_equations; lia].
  apply fixed_inj in Hf; [|cbn; lia|cbn; lia].
  assert (Ed : su / 86400 = sv / 86400).
  { apply civil_from_days_inj. congruence. }
  assert (Et : tu = tv).
  { clear - Hh Hi Hs Hsu Hsv. Z.div_mod_to_equations. lia. }
  assert (Es : su = sv).
  { subst tu tv. clear - Ed Et. Z.div_mod_to_equations. lia. }
  subst su sv. clear - Es Hf. Z.div_mod_to_equations. lia.
Qed.

Lemma list_ascii_of_string_app a b :
  list_ascii_of_string (a ++ b) =
  list_ascii_of_string a ++ list_ascii_of_string b.
Proof. induction a as [|c a IH]; cbn; [reflexivity | now rewrite IH]. Qed.

Lemma archive_path_micro dir t :
  archive_path dir t =
  filepath_Join dir
    (string_of_list_ascii (Format_of_micro (Time.micro t)) ++ ".log").
Proof.
  unfold archive_path, Time.Format. rewrite Format_chars_micro. reflexivity.
Qed.

Lemma archive_path_inj dir t1 t2 :
  archive_path dir t1 = archive_path dir t2 -> Time.micro t1 = Time.micro t2.
Proof.
  rewrite !archive_path_micro. unfold filepath_Join. intros H.
  apply string_app_inv_head in H.
  apply (string_app_inv_head "/") in H.
  apply (f_equal list_ascii_of_string) in H.
  rewrite !list_ascii_of_string_app, !list_ascii_of_string_of_list_ascii in H.
  apply app_inv_tail in H. now apply Format_of_micro_inj.
Qed.

Lemma rotate_closed s :
  file (wr s) = Some (mkFile true) -> fst (rotate s) = Some ErrFileClosed.
Proof.
  intros Hf. unfold rotate, guard, bind, get_writer.
  rewrite Hf, file_Close_eq, Hf. reflexivity.
Qed.

(** C8, as the code has it.  A rotation renames the active file to
    [<dir>/<timestamp>.log], the timestamp being the clock reading taken
    in the rotation, printed as year, month, day, a dash, hour, minute,
    second, a dot and the six digits of the microsecond.  The name is a
    function of the microsecond the instant falls in: two instants get
    the same name exactly when they fall in the same microsecond. *)
Theorem archive_name_is_the_microsecond_timestamp :
  (forall s s',
     file (wr s) <> None -> rotate s = (None, s') ->
     let path := filePath (wr s) in
     let arch := archive_path (dirPath (wr s)) (fst (clock_read (os s))) in
     calls_between s s' =
     [Event (SysClose path) true; Event (SysRename path arch) true;
      Event (SysOpen path) true]) /\
  (forall dir t,
     archive_path dir t =
     filepath_Join dir
       (string_of_list_ascii (Format_of_micro (Time.micro t)) ++ ".log")) /\
  (forall dir t1 t2,
     archive_path dir t1 = archive_path dir t2 <->
     Time.micro t1 = Time.micro t2).
Proof.
  split; [|split].
  - intros s s' Hf H. cbn zeta.
    destruct (file (wr s)) as [[[|]]|] eqn:E; [| |contradiction].
    { pose proof (rotate_closed s E) as C. rewrite H in C. discriminate. }
    apply rotate_open_ok in H as (fs & _ & ->); [|exact E].
    apply calls_between_app. unfold rotated. cbn.
    rewrite clock_read_trace. cbn. now rewrite <- !app_assoc.
  - apply archive_path_micro.
  - intros dir t1 t2. split; [apply archive_path_inj|].
    intros H. rewrite !archive_path_micro. now rewrite H.
Qed.

Lemma archive_name_is_the_microsecond_timestamp_witness :
  let s := Demo.start [] (Demo.prior [] []) in
  calls_between s (snd (rotate s)) =
  [Event (SysClose "logs/latest.log") true;
   Event (SysRename "logs/latest.log" (archive_path "logs" Demo.clock)) true;
   Event (SysOpen "logs/latest.log") true].
Proof.
  intros s.
  destruct archive_name_is_the_microsecond_timestamp as (H & _ & _).
  apply (H s (snd (rotate s))); [vm_compute; discriminate | reflexivity].
Defined.

(** C8 as stated fails: two rotations whose wall-clock readings fall in
    the same microsecond (here the wall clock was set back between them)
    rename to the same name, and the second replaces the archive of the
    first, whose eighteen bytes are gone. *)
Lemma rapid_rotations_share_a_name :
  let t1 := Time.mk 1761849000123456100 1000000000 in
  let t2 := Time.mk 1761849000123456900 3000000000 in
  let s0 := Demo.start [WithMaxFileSize 1; WithMaxBufSize 1]
              (Demo.prior [] [Demo.clock; t1; t1; t2; t2]) in
  let ops := [OpWrite (Demo.b "a"); OpWrite (Demo.b "b")] in
  t1 <> t2 /\
  Forall (fun r => err r = None) (fst (run ops s0)) /\
  renamed_to (trace (os (snd (run ops s0)))) =
  [archive_path "logs" t1; archive_path "logs" t2] /\
  archive_path "logs" t1 = archive_path "logs" t2 /\
  files (os (snd (run ops s0))) =
  [("logs/20251030-183000.123456.log"%string, Demo.b "a");
   ("logs/latest.log"%string, Demo.b "b")].
Proof.
  vm_compute. repeat split; [discriminate | repeat constructor].
Qed.

(** ** A [Write] of nothing *)

(** A flush that returns nil leaves the buffer empty. *)
Lemma flush_ok_empty s s' : flush s = (None, s') -> buf (wr s') = [].
Proof.
  intros H.
  destruct (file (wr s)) eqn:Hf.
  2:{ rewrite flush_nil_file in H by assumption. discriminate. }
  destruct (buf (wr s)) eqn:Hb.
  { rewrite flush_empty in H by congruence. now injection H as <-. }
  apply flush_paths in H; [|congruence|congruence].
  destruct H as [(e & _ & ?) | (size & s1 & _ & H)]; [discriminate|].
  destruct H as [(e & _ & _ & ?) | (s2 & _ & H)]; [discriminate|].
  destruct H as [(e & _ & ?) | (s3 & _ & H)]; [discriminate|].
  destruct H as [(e & _ & ?) | (s4 & _ & _ & ->)]; [discriminate|].
  reflexivity.
Qed.

(** Where a flush that returns nil puts the buffer: at the end of the
    active file, or alone in the fresh one if it rotated. *)
Lemma flush_ok_files s s' :
  wf s -> flush s = (None, s') -> buf (wr s) <> [] ->
  exists old,
    fs_lookup (filePath (wr s)) (files (os s)) = Some old /\
    (rotation_due (Z.of_nat (List.length old)) (wr s) = false /\
     fs_lookup (filePath (wr s)) (files (os s')) = Some (old ++ buf (wr s)) \/
     rotation_due (Z.of_nat (List.length old)) (wr s) = true /\
     fs_lookup (filePath (wr s)) (files (os s')) = Some (buf (wr s))).
Proof.
  intros W H Hb.
  destruct (file (wr s)) eqn:Hf.
  2:{ rewrite flush_nil_file in H by assumption. discriminate. }
  apply flush_paths in H; [|congruence|assumption].
  destruct H as [(e & _ & ?) | (size & s1 & HS & H)]; [discriminate|].
  destruct H as [(e & _ & _ & ?) | (s2 & HR & H)]; [discriminate|].
  destruct H as [(e & _ & ?) | (s3 & HW & H)]; [discriminate|].
  destruct H as [(e & _ & ?) | (s4 & HY & _ & ->)]; [discriminate|].
  apply file_Stat_ok in HS as (Hopen & _ & -> & ->).
  destruct W as (Hpath & _ & Hex). specialize (Hex Hopen).
  set (path := filePath (wr s)) in *.
  destruct (fs_lookup path (files (os s))) as [old|] eqn:El; [|congruence].
  exists old. split; [reflexivity|].
  unfold size_of in HR. rewrite El in HR.
  destruct (rotation_due (Z.of_nat (List.length old)) (wr s)).
  - right. split; [reflexivity|].
    apply rotate_open_ok in HR; [|exact Hopen].
    cbn [wr os dirPath filePath files syscall_step] in HR.
    destruct HR as (fs & Hren & ->).
    set (arch := archive_path _ _) in *.
    unfold fs_rename in Hren. fold path in Hren. rewrite El in Hren.
    injection Hren as <-.
    apply file_Write_ok in HW as (_ & _ & ->).
    apply file_Sync_ok in HY as (_ & _ & ->).
    unfold flushed, rotated. cbn.
    repeat (rewrite clock_read_files; cbn). fold path.
    apply rotation_files; [exact El|].
    rewrite Hpath. apply archive_path_not_latest.
  - left. split; [reflexivity|]. subst s2.
    apply file_Write_ok in HW as (_ & _ & ->).
    apply file_Sync_ok in HY as (_ & _ & ->).
    unfold flushed. cbn. rewrite clock_read_files. cbn. fold path.
    now rewrite fs_lookup_append, String.eqb_refl, El.
Qed.

(** C10.  A [Write] of no bytes adds nothing to the buffer but still
    checks whether a flush is due; it returns a count of zero, with nil if
    no flush was due or the flush succeeded and with the flush's error
    otherwise.  Such a call flushes the bytes buffered before it: when a
    flush is due and the call returns nil, the buffer is empty afterwards
    and its bytes are at the end of the active file, or alone in the
    fresh one if the file was rotated.  Seven bytes written twenty seconds
    earlier into an empty file reach it this way. *)
Theorem Write_of_nothing_checks_flush s :
  appended [] s = s /\
  (maxBufSize (wr s) <= Z.of_nat (List.length (buf (wr s))) ->
   Write [] s = ((0, fst (flush s)), snd (flush s))) /\
  (Z.of_nat (List.length (buf (wr s))) < maxBufSize (wr s) ->
   maxBufAge (wr s) <= age s ->
   Write [] s = ((0, fst (flush (ticked s))), snd (flush (ticked s)))) /\
  (Z.of_nat (List.length (buf (wr s))) < maxBufSize (wr s) ->
   age s < maxBufAge (wr s) ->
   Write [] s = ((0, None), ticked s)) /\
  (reachable s -> buf (wr s) <> [] ->
   maxBufSize (wr s) <= Z.of_nat (List.length (buf (wr s))) \/
   maxBufAge (wr s) <= age s ->
   snd (fst (Write [] s)) = None ->
   buf (wr (snd (Write [] s))) = [] /\
   exists old,
     fs_lookup (filePath (wr s)) (files (os s)) = Some old /\
     fs_lookup (filePath (wr s)) (files (os (snd (Write [] s)))) =
     Some (if rotation_due (Z.of_nat (List.length old)) (wr s)
           then buf (wr s) else old ++ buf (wr s))) /\
  (exists s0,
     reachable s0 /\
     buf (wr s0) = Demo.b "pending" /\
     fs_lookup (filePath (wr s0)) (files (os s0)) = Some [] /\
     fst (Write [] s0) = (0, None) /\
     buf (wr (snd (Write [] s0))) = [] /\
     fs_lookup (filePath (wr s0)) (files (os (snd (Write [] s0)))) =
     Some (Demo.b "pending")).
Proof.
  assert (A : forall r, answer [] r = ((0, fst r), snd r)).
  { intros [[e|] s1]; reflexivity. }
  assert (Size : maxBufSize (wr s) <= Z.of_nat (List.length (buf (wr s))) ->
                 Write [] s = ((0, fst (flush s)), snd (flush s))).
  { intros H. rewrite Write_eq. cbn zeta. rewrite appended_nil, !A.
    destruct (Z.geb_spec (Z.of_nat (List.length (buf (wr s))))
                         (maxBufSize (wr s))); [reflexivity|lia]. }
  assert (Age : Z.of_nat (List.length (buf (wr s))) < maxBufSize (wr s) ->
                maxBufAge (wr s) <= age s ->
                Write [] s =
                ((0, fst (flush (ticked s))), snd (flush (ticked s)))).
  { intros H1 H2. rewrite Write_eq. cbn zeta. rewrite appended_nil, !A.
    destruct (Z.geb_spec (Z.of_nat (List.length (buf (wr s))))
                         (maxBufSize (wr s))); [lia|].
    destruct (Z.geb_spec (age s) (maxBufAge (wr s))); [reflexivity|lia]. }
  split; [apply appended_nil|].
  split; [exact Size|]. split; [exact Age|].
  split; [|split].
  - intros H1 H2. rewrite Write_eq. cbn zeta. rewrite appended_nil.
    destruct (Z.geb_spec (Z.of_nat (List.length (buf (wr s))))
                         (maxBufSize (wr s))); [lia|].
    destruct (Z.geb_spec (age s) (maxBufAge (wr s))); [lia|reflexivity].
  - intros R Hb Hdue Hnil.
    assert (Hfl : exists s1,
               wf s1 /\ wr s1 = wr s /\ files (os s1) = files (os s) /\
               Write [] s = ((0, fst (flush s1)), snd (flush s1))).
    { destruct (Z_lt_le_dec (Z.of_nat (List.length (buf (wr s))))
                            (maxBufSize (wr s))) as [Hlt|Hge].
      - destruct Hdue as [Hd|Hd]; [lia|].
        exists (ticked s). split; [|split; [|split]].
        + apply (ticked_wf s (reachable_wf s R)).
        + reflexivity.
        + apply clock_read_files.
        + apply (Age Hlt Hd).
      - exists s. split; [|split; [|split]];
          [apply (reachable_wf s R) | reflexivity | reflexivity
          | apply (Size Hge)]. }
    destruct Hfl as (s1 & W1 & Ew & Ef & EW).
    rewrite EW in *. cbn [fst snd] in *.
    assert (F : flush s1 = (None, snd (flush s1))).
    { rewrite <- Hnil. apply surjective_pairing. }
    split; [exact (flush_ok_empty s1 _ F)|].
    destruct (flush_ok_files s1 _ W1 F) as (old & El & K).
    { now rewrite Ew. }
    rewrite Ew, Ef in *. exists old. split; [exact El|].
    destruct K as [[-> E]|[-> E]]; exact E.
  - exists (Demo.after [OpWrite (Demo.b "pending")]
              (Demo.start [] (Demo.world []
                 [Demo.clock; Demo.clock;
                  Time.mk 1761849020000000000 20000000000]))).
    split.
    { apply after_reachable, start_reachable. vm_compute. eauto. }
    vm_compute. repeat split.
Qed.

Lemma Write_of_nothing_checks_flush_witness :
  let s := Demo.after [OpWrite (Demo.b "pending")]
             (Demo.start [] (Demo.world []
                [Demo.clock; Demo.clock;
                 Time.mk 1761849020000000000 20000000000])) in
  buf (wr s) = Demo.b "pending" /\
  Write [] s = ((0, fst (flush (ticked s))), snd (flush (ticked s))) /\
  buf (wr (snd (Write [] s))) = [] /\
  exists old,
    fs_lookup (filePath (wr s)) (files (os s)) = Some old /\
    fs_lookup (filePath (wr s)) (files (os (snd (Write [] s)))) =
    Some (if rotation_due (Z.of_nat (List.length old)) (wr s)
          then buf (wr s) else old ++ buf (wr s)).
Proof.
  intros s.
  destruct (Write_of_nothing_checks_flush s) as (_ & _ & H3 & _ & H5 & _).
  split; [vm_compute; reflexivity|].
  split; [apply H3; vm_compute; first [reflexivity | discriminate]|].
  apply H5.
  - apply after_reachable, start_reachable. vm_compute. eauto.
  - vm_compute. discriminate.
  - right. vm_compute. discriminate.
  - vm_compute. reflexivity.
Defined.

(** * Further properties *)

(** ** [New] *)



Lemma fs_lookup_create_other p q fs :
  q <> p -> fs_lookup q (fs_create p fs) = fs_lookup q fs.
Proof.
  intros Hne. unfold fs_create. destruct (fs_lookup p fs); [reflexivity|].
  rewrite fs_lookup_snoc. destruct (fs_lookup q fs); [reflexivity|].
  destruct (String.eqb_spec q p); [contradiction | reflexivity].
Qed.

Lemma fs_lookup_create_same p fs :
  fs_lookup p (fs_create p fs) =
  Some (match fs_lookup p fs with Some c => c | None => [] end).
Proof.
  unfold fs_create. destruct (fs_lookup p fs) eqn:E; [exact E|].
  now rewrite fs_lookup_snoc, E, String.eqb_refl.
Qed.

(** X2.  The Writer [New] returns has an empty buffer, an open handle
    on [<dir>/latest.log] and [lastFlush] at the clock reading taken.  The
    file is created empty if it was missing and is left with what it held
    otherwise; no other file is touched. *)
Theorem New_opens_latest_for_append dir opts x w x' :
  New dir opts x = (inl w, x') ->
  dirPath w = dir /\
  filePath w = filepath_Join dir "latest.log" /\
  buf w = [] /\
  file w = Some (mkFile false) /\
  lastFlush w = now x' /\
  fs_lookup (filePath w) (files x') =
  Some (match fs_lookup (filePath w) (files x) with
        | Some c => c
        | None => []
        end) /\
  forall q, q <> filePath w -> fs_lookup q (files x') = fs_lookup q (files x).
Proof.
  unfold New, sys_stat_path.
  destruct (next_outcome x) eqn:Ho; [|discriminate].
  destruct (existsb (String.eqb dir) (dirs x));
    [|destruct (fs_lookup dir (files x));
      [|destruct (under_a_file dir (files x))]; discriminate].
  set (x1 := syscall_step _ _ _ x).
  pose proof (clock_read_now x1) as Hn.
  pose proof (clock_read_files x1) as Hfs.
  destruct (clock_read x1) as [t x2]. cbn [fst snd] in Hn, Hfs.
  set (w0 := mkWriter _ _ _ _ _ _ _ _ _).
  destruct (apply_Options_frame opts w0) as (Hd & Hb & _ & Hl).
  cbn zeta in *. rewrite Hd. cbn [dirPath w0].
  unfold sys_open. destruct (next_outcome x2); [|discriminate].
  intros [= <- <-]. cbn. rewrite Hfs. cbn.
  repeat split; auto.
  - rewrite Hl. cbn. auto.
  - apply fs_lookup_create_same.
  - intros q Hq. now apply fs_lookup_create_other.
Qed.

Lemma New_opens_latest_for_append_witness :
  let r := New "logs" [WithMaxBufSize 8] (Demo.prior [] []) in
  match fst r with
  | inl w =>
      fs_lookup (filePath w) (files (snd r)) =
      Some (Demo.b "123456789012345678")
  | inr _ => False
  end.
Proof.
  cbv zeta.
  destruct (New "logs" [WithMaxBufSize 8] (Demo.prior [] [])) as [[w|e] x']
    eqn:E; [|vm_compute in E; discriminate].
  cbn [fst snd].
  destruct (New_opens_latest_for_append _ _ _ _ _ E)
    as (_ & Hp & _ & _ & _ & H & _).
  rewrite H, Hp. reflexivity.
Defined.

Lemma last_cons {A} (a : A) l d : last (a :: l) d = last l a.
Proof.
  revert a d. induction l as [|b l IH]; intros a d; [reflexivity|].
  change (last (a :: b :: l) d) with (last (b :: l) d).
  now rewrite (IH b d), (IH b a).
Qed.

Lemma apply_Options_settings opts w :
  let w' := fold_left (fun w o => apply_Option o w) opts w in
  maxFileSize w' = last (settings pick_MaxFileSize opts) (maxFileSize w) /\
  maxBufSize w' = last (settings pick_MaxBufSize opts) (maxBufSize w) /\
  maxBufAge w' = last (settings pick_MaxBufAge opts) (maxBufAge w) /\
  mutex w' = last (settings pick_Sync opts) (mutex w).
Proof.
  revert w. induction opts as [|o rest IH]; intros w; cbn zeta.
  - cbn. auto.
  - cbn [fold_left]. destruct (IH (apply_Option o w)) as (A & B & C & D).
    cbn zeta in *. rewrite A, B, C, D. unfold settings.
    destruct o; cbn [flat_map pick_MaxFileSize pick_MaxBufSize pick_MaxBufAge
                       pick_Sync app apply_Option maxFileSize maxBufSize
                       maxBufAge mutex];
      rewrite ?last_cons; auto.
Qed.

(** X3.  Each option sets its own field of the Writer and no other;
    where the same option is given more than once the last one counts, and
    a field no option names keeps its default. *)
Theorem New_takes_the_last_of_each_option dir opts x w x' :
  New dir opts x = (inl w, x') ->
  maxFileSize w = last_setting pick_MaxFileSize DefaultMaxFileSize opts /\
  maxBufSize w = last_setting pick_MaxBufSize DefaultMaxBufSize opts /\
  maxBufAge w = last_setting pick_MaxBufAge DefaultMaxBuffAge opts /\
  mutex w = last_setting pick_Sync false opts.
Proof.
  unfold New.
  destruct (sys_stat_path dir x) as [[e|] x1]; [discriminate|].
  destruct (clock_read x1) as [t x2].
  set (w0 := mkWriter _ _ _ _ _ _ _ _ _).
  destruct (apply_Options_settings opts w0) as (A & B & C & D).
  cbn zeta in *.
  destruct (sys_open _ x2) as [[f|e] x3]; [|discriminate].
  intros [= <- _]. cbn. auto.
Qed.

Lemma New_takes_the_last_of_each_option_witness :
  let opts := [WithMaxBufSize 8; WithSync; WithMaxFileSize 20;
               WithMaxBufSize 16] in
  match fst (New "logs" opts (Demo.world [] [])) with
  | inl w => maxBufSize w = 16 /\ maxFileSize w = 20 /\ mutex w = true /\
             maxBufAge w = DefaultMaxBuffAge
  | inr _ => False
  end.
Proof.
  cbv zeta.
  destruct (New "logs" _ (Demo.world [] [])) as [[w|e] x'] eqn:E;
    [|vm_compute in E; discriminate].
  cbn [fst].
  destruct (New_takes_the_last_of_each_option _ _ _ _ _ E) as (A & B & C & D).
  rewrite A, B, C, D. repeat split.
Defined.

(** ** What [Write], [Flush] and [Close] promise *)

(** X4.  [Write] never reports a partial count: it returns [len(p)]
    with nil or [0] with an error.  With nil the buffer has been flushed
    empty or holds [p] at its end; with an error [p] is in the buffer all
    the same, so writing it again would put it there twice. *)
Theorem Write_counts_all_or_nothing p s :
  match Write p s with
  | ((n, None), s') =>
      n = Z.of_nat (List.length p) /\
      (buf (wr s') = [] \/ buf (wr s') = buf (wr s) ++ p)
  | ((n, Some _), s') => n = 0 /\ buf (wr s') = buf (wr s) ++ p
  end.
Proof.
  rewrite Write_eq. cbn zeta.
  assert (K : forall s0, buf (wr s0) = buf (wr s) ++ p ->
              match answer p (flush s0) with
              | ((n, None), s') =>
                  n = Z.of_nat (List.length p) /\
                  (buf (wr s') = [] \/ buf (wr s') = buf (wr s) ++ p)
              | ((n, Some _), s') => n = 0 /\ buf (wr s') = buf (wr s) ++ p
              end).
  { intros s0 Hb. unfold answer.
    destruct (flush s0) as [[e|] s1] eqn:E; cbn.
    - apply flush_error_pending in E as [[B _] _]. split; congruence.
    - apply flush_ok_empty in E. auto. }
  destruct (_ >=? _); [apply K; reflexivity|].
  destruct (_ >=? _); [apply K; reflexivity|].
  cbn. auto.
Qed.

Lemma Close_ok_closed s s' :
  Close s = (None, s') ->
  buf (wr s') = [] /\ file (wr s') = Some (mkFile true).
Proof.
  rewrite Close_eq. destruct (flush s) as [[e|] s1] eqn:E; cbn [fst snd];
    [discriminate|].
  apply flush_ok_empty in E. rewrite file_Close_eq.
  destruct (file (wr s1)) as [[[|]]|]; try discriminate.
  destruct (next_outcome (os s1)); cbn; [|discriminate].
  intros [= <-]. cbn. auto.
Qed.

(** X5.  A nil from [Flush] or from [Close] means nothing is pending:
    the buffer is empty, and after [Close] the handle is closed. *)
Theorem nil_means_nothing_pending s s' :
  (Flush s = (None, s') -> buf (wr s') = []) /\
  (Close s = (None, s') ->
   buf (wr s') = [] /\ file (wr s') = Some (mkFile true)).
Proof. split; [apply flush_ok_empty | apply Close_ok_closed]. Qed.

Lemma nil_means_nothing_pending_witness :
  let s := Demo.after [OpWrite (Demo.b "abc")]
             (Demo.start [] (Demo.world [] [])) in
  buf (wr s) = Demo.b "abc" /\
  buf (wr (snd (Close s))) = [] /\
  file (wr (snd (Close s))) = Some (mkFile true).
Proof.
  intros s. split; [reflexivity|].
  apply (nil_means_nothing_pending s (snd (Close s))). reflexivity.
Defined.

Lemma run_app a b s :
  run (a ++ b) s =
  (fst (run a s) ++ fst (run b (snd (run a s))),
   snd (run b (snd (run a s)))).
Proof.
  revert s. induction a as [|o a IH]; intros s; cbn [app run].
  - unfold ret. cbn. now destruct (run b s).
  - unfold bind. destruct (step o s) as [r s1]. rewrite IH.
    destruct (run a s1) as [ra s2]. cbn.
    destruct (run b s2) as [rb s3]. reflexivity.
Qed.

(** X6.  The round trip at a flush point.  If a run of calls that all
    return nil ends with [Flush] or [Close], and no rotation renamed to a
    name already in the directory, then the files alone - archives in
    rotation order, then the active file - hold what the directory held
    when the Writer was made followed by every byte written, in order. *)
Theorem roundtrip_at_a_flush_point dir opts x w x0 ops final :
  New dir opts x = (inl w, x0) ->
  final = OpFlush \/ final = OpClose ->
  let s0 := mkSt w x0 in
  let rs := fst (run (ops ++ [final]) s0) in
  let s1 := snd (run (ops ++ [final]) s0) in
  Forall (fun r => err r = None) rs ->
  NoDup (names x0 ++ renamed_to (calls_between s0 s1)) ->
  on_disk s1 = on_disk s0 ++ accepted (ops ++ [final]) rs.
Proof.
  intros HN Hfin s0 rs s1 Hok Hnd.
  assert (R : reachable s0) by (eapply reach_New; eauto).
  destruct (run_roundtrip (ops ++ [final]) s0 rs s1 R
              (surjective_pairing _) Hok) as (new & T & K).
  rewrite (calls_between_app _ _ _ T) in Hnd.
  specialize (K Hnd). cbn [s0 wr] in K.
  rewrite (New_buf _ _ _ _ _ HN) in K. cbn [app] in K. rewrite <- K.
  assert (E : buf (wr s1) = []); [|now rewrite E, app_nil_r].
  subst rs s1. rewrite run_app in *. cbn [fst snd] in *.
  set (s2 := snd (run ops s0)) in *.
  apply Forall_app in Hok as [_ Hlast].
  cbn [run] in *. unfold bind, ret in *.
  destruct (step final s2) as [r s3] eqn:E3. cbn [fst snd] in *.
  inversion Hlast as [|? ? Hr _]; subst.
  destruct Hfin as [-> | ->]; cbn [step] in E3; unfold bind, ret in E3.
  - destruct (Flush s2) as [e s4] eqn:EF. injection E3 as <- <-.
    cbn in Hr. subst e. exact (flush_ok_empty s2 s4 EF).
  - destruct (Close s2) as [e s4] eqn:EC. injection E3 as <- <-.
    cbn in Hr. subst e. exact (proj1 (Close_ok_closed s2 s4 EC)).
Qed.

Lemma roundtrip_at_a_flush_point_witness :
  let s0 := Demo.start [WithMaxFileSize 20; WithMaxBufSize 5]
              (Demo.prior [] []) in
  let ops := [OpWrite (Demo.b "abcde"); OpWrite (Demo.b "xy");
              OpWrite (Demo.b "z")] in
  on_disk (snd (run (ops ++ [OpClose]) s0)) =
  Demo.b "123456789012345678" ++ Demo.b "abcdexyz".
Proof.
  intros s0 ops.
  refine (roundtrip_at_a_flush_point "logs"
            [WithMaxFileSize 20; WithMaxBufSize 5] (Demo.prior [] [])
            (wr s0) (os s0) ops OpClose eq_refl (or_intror eq_refl) _ _).
  - vm_compute. repeat constructor.
  - vm_compute. repeat (constructor; [cbn; intuition discriminate|]).
    constructor.
Defined.

(** ** Writes that stay in memory *)

Lemma set_buf_same w : set_buf (buf w) w = w.
Proof. now destruct w. Qed.

Lemma age_young s : stays_young s -> age s < maxBufAge (wr s).
Proof.
  unfold stays_young, age, clock_read. intros H.
  inversion H as [|? ? H0 H1]; subst.
  destruct (future (os s)); cbn; [exact H0|].
  now inversion H1.
Qed.

Lemma ticked_young s : stays_young s -> stays_young (ticked s).
Proof.
  unfold stays_young, ticked, clock_read. intros H. cbn.
  destruct (future (os s)) eqn:E; cbn; [now rewrite E|].
  now inversion H.
Qed.

(** X7.  Writes that keep the buffer below [maxBufSize], made while the
    clock stays within [maxBufAge] of the last flush, all return
    [(len(p), nil)], make no system call and leave every file as it was:
    the bytes are in the buffer, in order, and nowhere else. *)
Theorem small_writes_stay_in_memory ps s :
  Z.of_nat (List.length (buf (wr s) ++ List.concat ps)) < maxBufSize (wr s) ->
  stays_young s ->
  let rs := fst (run (map OpWrite ps) s) in
  let s' := snd (run (map OpWrite ps) s) in
  rs = map (fun p => Ret (Z.of_nat (List.length p)) None) ps /\
  wr s' = set_buf (buf (wr s) ++ List.concat ps) (wr s) /\
  files (os s') = files (os s) /\
  trace (os s') = trace (os s).
Proof.
  revert s. induction ps as [|p ps IH]; intros s Hsz Hy; cbn zeta.
  - cbn. rewrite app_nil_r, set_buf_same. auto.
  - cbn [map run List.concat] in *. unfold bind, ret.
    cbn [step]. unfold bind, ret.
    assert (EW : Write p s =
                 ((Z.of_nat (List.length p), None), ticked (appended p s))).
    { rewrite Write_eq. cbn zeta.
      change (buf (wr (appended p s))) with (buf (wr s) ++ p).
      change (maxBufSize (wr (appended p s))) with (maxBufSize (wr s)).
      change (maxBufAge (wr (appended p s))) with (maxBufAge (wr s)).
      change (age (appended p s)) with (age s).
      pose proof (age_young s Hy).
      rewrite !length_app in Hsz.
      destruct (Z.geb_spec (Z.of_nat (List.length (buf (wr s) ++ p)))
                           (maxBufSize (wr s)));
        [rewrite length_app in *; lia|].
      destruct (Z.geb_spec (age s) (maxBufAge (wr s))); [lia|reflexivity]. }
    rewrite EW. cbn [fst snd].
    set (s1 := ticked (appended p s)).
    assert (Hy1 : stays_young s1).
    { apply ticked_young. exact Hy. }
    specialize (IH s1).
    cbn zeta in IH.
    destruct IH as (A & B & C & D); [|exact Hy1|].
    { subst s1. cbn. rewrite <- app_assoc. exact Hsz. }
    destruct (run (map OpWrite ps) s1) as [rs s2]. cbn [fst snd] in *.
    subst rs. split; [reflexivity|].
    rewrite B, C, D. subst s1. cbn.
    rewrite clock_read_files, clock_read_trace, <- app_assoc. auto.
Qed.

Lemma small_writes_stay_in_memory_witness :
  let s := Demo.start [WithMaxBufSize 10] (Demo.world [] []) in
  let ps := [Demo.b "123"; []; Demo.b "45678"] in
  buf (wr (snd (run (map OpWrite ps) s))) = Demo.b "12345678" /\
  trace (os (snd (run (map OpWrite ps) s))) = trace (os s).
Proof.
  intros s ps.
  destruct (small_writes_stay_in_memory ps s) as (_ & B & _ & D).
  - vm_compute. reflexivity.
  - repeat constructor.
  - rewrite B. split; [reflexivity | exact D].
Defined.

(** ** A Writer whose rotation failed *)

(** X8.  A rotation that fails loses no bytes of the active file: they
    are still under the active path, or under the archive name if the
    rename went through.  Unless it was the close that failed, the Writer
    is left with no handle; its buffer is as it was. *)
Theorem failed_rotation_keeps_the_bytes s e s' old :
  file (wr s) = Some (mkFile false) ->
  fs_lookup (filePath (wr s)) (files (os s)) = Some old ->
  rotate s = (Some e, s') ->
  let path := filePath (wr s) in
  let arch := archive_path (dirPath (wr s)) (fst (clock_read (os s))) in
  buf (wr s') = buf (wr s) /\
  (fs_lookup path (files (os s')) = Some old \/
   fs_lookup arch (files (os s')) = Some old) /\
  (e = ErrIO (SysClose path) /\ file (wr s') = Some (mkFile true) \/
   e <> ErrIO (SysClose path) /\ file (wr s') = None).
Proof.
  intros Hf Hl. rewrite rotate_open_eq by assumption. cbn zeta.
  destruct (next_outcome (os s)).
  2:{ intros [= <- <-]. cbn. auto. }
  unfold sys_rename. rewrite clock_read_files.
  set (x2 := snd (clock_read _)).
  rewrite clock_read_after_syscall. cbn [files syscall_step].
  destruct (next_outcome x2).
  2:{ cbn. intros [= <- <-]. cbn. subst x2. rewrite ?clock_read_files. cbn.
      split; [reflexivity|]. split; [auto|].
      right. split; [discriminate | auto]. }
  unfold fs_rename. rewrite Hl. cbn [fst snd].
  unfold sys_open.
  match goal with |- context [next_outcome ?x] => destruct (next_outcome x) end;
    cbn [fst snd]; [discriminate|].
  intros [= <- <-]. cbn.
  split; [reflexivity|]. split.
  - right. rewrite fs_lookup_snoc, fs_lookup_remove, !String.eqb_refl.
    reflexivity.
  - right. split; [discriminate | reflexivity].
Qed.

Lemma failed_rotation_keeps_the_bytes_witness :
  let s := Demo.start []
             (Demo.prior [Succeeds; Succeeds; Succeeds; Succeeds; Fails 0] []) in
  let s' := snd (rotate s) in
  let old := Demo.b "123456789012345678" in
  let path := filePath (wr s) in
  let arch := archive_path (dirPath (wr s)) (fst (clock_read (os s))) in
  buf (wr s') = buf (wr s) /\
  (fs_lookup path (files (os s')) = Some old \/
   fs_lookup arch (files (os s')) = Some old) /\
  (ErrIO (SysOpen "logs/latest.log") = ErrIO (SysClose path) /\
   file (wr s') = Some (mkFile true) \/
   ErrIO (SysOpen "logs/latest.log") <> ErrIO (SysClose path) /\
   file (wr s') = None).
Proof.
  intros s s' old.
  apply (failed_rotation_keeps_the_bytes s
           (ErrIO (SysOpen "logs/latest.log")) s' old);
    vm_compute; reflexivity.
Defined.




(** ** The size of the active file *)

(** X10.  After a flush that succeeds the active file is below
    [maxFileSize], or holds exactly the bytes of that one flush (a buffer
    that alone reaches the limit goes to a fresh file of its own). *)
Theorem active_file_stays_below_maxFileSize s s' :
  reachable s -> buf (wr s) <> [] ->
  size_of (filePath (wr s)) (files (os s)) +
  Z.of_nat (List.length (buf (wr s))) <= maxInt64 ->
  flush s = (None, s') ->
  size_of (filePath (wr s)) (files (os s')) < maxFileSize (wr s) \/
  fs_lookup (filePath (wr s)) (files (os s')) = Some (buf (wr s)).
Proof.
  intros R Hb Hfit H.
  destruct (flush_ok_files s s' (reachable_wf s R) H Hb)
    as (old & El & [[Hd E] | [_ E]]); [|now right].
  left. unfold size_of in *. rewrite El in Hfit. rewrite E.
  unfold rotation_due, int64_add in Hd.
  rewrite wrap64_small in Hd by (unfold minInt64; lia).
  rewrite length_app.
  destruct (Z.geb_spec (Z.of_nat (List.length old) +
                        Z.of_nat (List.length (buf (wr s))))
                       (maxFileSize (wr s))); [discriminate | lia].
Qed.

Lemma active_file_stays_below_maxFileSize_witness :
  let s := Demo.after [OpWrite (Demo.b "a")]
             (Demo.start [WithMaxFileSize 20] (Demo.prior [] [])) in
  size_of "logs/latest.log" (files (os (snd (flush s)))) < 20.
Proof.
  intros s.
  assert (R : reachable s).
  { apply after_reachable, start_reachable. vm_compute. eauto. }
  destruct (active_file_stays_below_maxFileSize s (snd (flush s)) R)
    as [H|H]; [vm_compute; discriminate | vm_compute; discriminate
              | reflexivity | exact H | vm_compute in H; discriminate].
Defined.

(** ** Calls confined to the active file *)

Lemma confined_refl s : confined s s.
Proof.
  split; [apply same_config_refl|]. exists [].
  rewrite app_nil_r. auto.
Qed.

Lemma confined_trans a b c : confined a b -> confined b c -> confined a c.
Proof.
  intros (C1 & n1 & T1 & F1 & L1) (C2 & n2 & T2 & F2 & L2).
  split; [eapply same_config_trans; eauto|].
  destruct C1 as (Hd & Hp & _).
  exists (n1 ++ n2). rewrite T2, T1, app_assoc. split; [reflexivity|].
  rewrite Hd, Hp in *. split; [apply Forall_app; auto|].
  intros q Hq Hn. rewrite renamed_to_app, in_app_iff in Hn.
  rewrite L2, L1; auto.
Qed.

(** One call, on the active file, that leaves the other files alone. *)
Lemma confined_one s (w' : Writer) c fs ok :
  same_config (wr s) w' ->
  own_call (filePath (wr s)) (dirPath (wr s)) (Event c ok) ->
  (forall q, q <> filePath (wr s) ->
             ~ In q (renamed_to [Event c ok]) ->
             fs_lookup q fs = fs_lookup q (files (os s))) ->
  confined s (mkSt w' (syscall_step c fs ok (os s))).
Proof.
  intros C O L. split; [exact C|].
  exists [Event c ok]. cbn. auto.
Qed.

Lemma confined_file_Stat s : confined s (snd (file_Stat s)).
Proof.
  rewrite file_Stat_eq.
  destruct (on_file_cases (@inr Z error) (lift (sys_fstat (filePath (wr s)))) s)
    as [[_ ->]|[[_ ->]|[_ ->]]]; try apply confined_refl.
  rewrite lift_eq. unfold sys_fstat.
  destruct (next_outcome (os s)); cbn [snd];
    (apply confined_one; [apply same_config_refl | reflexivity | auto]).
Qed.

Lemma confined_file_Write d s : confined s (snd (file_Write d s)).
Proof.
  rewrite file_Write_eq.
  destruct (on_file_cases (@Some error) (lift (sys_write (filePath (wr s)) d)) s)
    as [[_ ->]|[[_ ->]|[_ ->]]]; try apply confined_refl.
  rewrite lift_eq. unfold sys_write.
  destruct (next_outcome (os s)); cbn [snd];
    (apply confined_one; [apply same_config_refl | reflexivity |]);
    intros q Hq _; rewrite fs_lookup_append;
    (destruct (String.eqb_spec q (filePath (wr s))); [contradiction|]);
    reflexivity.
Qed.

Lemma confined_file_Sync s : confined s (snd (file_Sync s)).
Proof.
  rewrite file_Sync_eq.
  destruct (on_file_cases (@Some error) (lift (sys_fsync (filePath (wr s)))) s)
    as [[_ ->]|[[_ ->]|[_ ->]]]; try apply confined_refl.
  rewrite lift_eq. unfold sys_fsync.
  destruct (next_outcome (os s)); cbn [snd];
    (apply confined_one; [apply same_config_refl | reflexivity | auto]).
Qed.

Lemma confined_file_Close s : confined s (snd (file_Close s)).
Proof.
  rewrite file_Close_eq.
  destruct (file (wr s)) as [[[|]]|]; try apply confined_refl.
  cbn [snd closed].
  apply confined_one; [repeat split | reflexivity | auto].
Qed.

Lemma confined_writer s w' :
  same_config (wr s) w' -> confined s (mkSt w' (os s)).
Proof.
  intros C. split; [exact C|]. exists []. rewrite app_nil_r. auto.
Qed.

Lemma confined_clock s w' :
  same_config (wr s) w' -> confined s (mkSt w' (snd (clock_read (os s)))).
Proof.
  intros C. split; [exact C|]. exists []. cbn.
  rewrite app_nil_r, clock_read_trace, clock_read_files. auto.
Qed.

Lemma confined_sys_rename s arch :
  (exists t, arch = archive_path (dirPath (wr s)) t) ->
  confined s (mkSt (wr s) (snd (sys_rename (filePath (wr s)) arch (os s)))).
Proof.
  intros Ha. unfold sys_rename.
  assert (O : forall ok,
             own_call (filePath (wr s)) (dirPath (wr s))
                      (Event (SysRename (filePath (wr s)) arch) ok)).
  { intros ok. cbn. auto. }
  destruct (next_outcome (os s)); cbn [snd].
  2:{ apply confined_one; [apply same_config_refl | apply O | auto]. }
  destruct (fs_rename (filePath (wr s)) arch (files (os s))) as [fs|] eqn:Er;
    cbn [snd].
  2:{ apply confined_one; [apply same_config_refl | apply O | auto]. }
  apply confined_one; [apply same_config_refl | apply O |].
  intros q Hq Hn. cbn in Hn. unfold fs_rename in Er.
  destruct (fs_lookup (filePath (wr s)) (files (os s))) as [c|];
    [|discriminate].
  injection Er as <-.
  rewrite fs_lookup_snoc, !fs_lookup_remove.
  destruct (String.eqb_spec q arch) as [->|Hqa]; [tauto|].
  destruct (String.eqb_spec q (filePath (wr s))); [contradiction|].
  now destruct (fs_lookup q (files (os s))).
Qed.

Lemma confined_sys_open s :
  confined s (mkSt (wr s) (snd (sys_open (filePath (wr s)) (os s)))).
Proof.
  unfold sys_open. destruct (next_outcome (os s)); cbn [snd];
    (apply confined_one; [apply same_config_refl | reflexivity |]);
    intros q Hq _; [|reflexivity].
  now apply fs_lookup_create_other.
Qed.

Lemma confined_rotate s :
  file (wr s) = Some (mkFile false) -> confined s (snd (rotate s)).
Proof.
  intros Hf. rewrite rotate_open_eq by assumption. cbn zeta.
  destruct (next_outcome (os s)); cbn [snd].
  2:{ apply confined_one; [repeat split | reflexivity | auto]. }
  pose (s1 := mkSt (wr s)
                   (syscall_step (SysClose (filePath (wr s))) (files (os s))
                                 true (os s))).
  assert (C1 : confined s s1).
  { apply confined_one; [apply same_config_refl | reflexivity | auto]. }
  pose (s2 := mkSt (wr s) (snd (clock_read (os s1)))).
  assert (C2 : confined s s2).
  { eapply confined_trans; [exact C1|].
    exact (confined_clock s1 (wr s) (same_config_refl _)). }
  pose (arch := archive_path (dirPath (wr s)) (fst (clock_read (os s1)))).
  assert (C3 : confined s
                 (mkSt (wr s)
                       (snd (sys_rename (filePath (wr s)) arch (os s2))))).
  { eapply confined_trans; [exact C2|].
    exact (confined_sys_rename s2 arch (ex_intro _ _ eq_refl)). }
  change (confined s
            (snd (match fst (sys_rename (filePath (wr s)) arch (os s2)) with
                  | Some e =>
                      (Some e,
                       mkSt (set_file None (wr s))
                            (snd (sys_rename (filePath (wr s)) arch (os s2))))
                  | None =>
                      match fst (sys_open (filePath (wr s))
                                   (snd (sys_rename (filePath (wr s)) arch
                                           (os s2)))) with
                      | inr e =>
                          (Some e,
                           mkSt (set_file None (wr s))
                                (snd (sys_open (filePath (wr s))
                                        (snd (sys_rename (filePath (wr s))
                                                arch (os s2))))))
                      | inl f =>
                          (None,
                           mkSt (set_file (Some f) (wr s))
                                (snd (sys_open (filePath (wr s))
                                        (snd (sys_rename (filePath (wr s))
                                                arch (os s2))))))
                      end
                  end))).
  destruct (sys_rename (filePath (wr s)) arch (os s2)) as [r x3].
  cbn [fst snd] in *. clearbody s1 s2 arch.
  destruct r as [e|]; cbn [snd].
  { eapply confined_trans; [exact C3|].
    apply (confined_writer (mkSt (wr s) x3)). repeat split. }
  pose proof (confined_sys_open (mkSt (wr s) x3)) as C4. cbn [wr os] in C4.
  destruct (sys_open (filePath (wr s)) x3) as [[f|e] x4]; cbn [fst snd] in *;
    (eapply confined_trans; [exact C3|]);
    (eapply confined_trans; [exact C4|]);
    apply (confined_writer (mkSt (wr s) x4)); repeat split.
Qed.

Lemma confined_flush s : confined s (snd (flush s)).
Proof.
  destruct (file (wr s)) eqn:Hf.
  2:{ rewrite flush_nil_file by assumption. apply confined_refl. }
  destruct (buf (wr s)) eqn:Hb.
  { rewrite flush_empty by congruence. apply confined_refl. }
  destruct (flush s) as [r s'] eqn:H. cbn [snd].
  apply flush_paths in H; [|congruence|congruence].
  destruct H as [(e & HS & _) | (size & s1 & HS & H)].
  { pose proof (confined_file_Stat s) as C. now rewrite HS in C. }
  pose proof (confined_file_Stat s) as C1. rewrite HS in C1. cbn [snd] in C1.
  apply file_Stat_ok in HS as (Hopen & _ & _ & Hs1).
  assert (Hf1 : file (wr s1) = Some (mkFile false)) by now subst s1.
  destruct H as [(e & _ & HR & _) | (s2 & HR & H)].
  { eapply confined_trans; [exact C1|].
    pose proof (confined_rotate s1 Hf1) as C. now rewrite HR in C. }
  assert (C2 : confined s s2).
  { destruct (rotation_due size (wr s)).
    - eapply confined_trans; [exact C1|].
      pose proof (confined_rotate s1 Hf1) as C. now rewrite HR in C.
    - now subst s2. }
  destruct H as [(e & HW & _) | (s3 & HW & H)].
  { eapply confined_trans; [exact C2|].
    pose proof (confined_file_Write (buf (wr s)) s2) as C. now rewrite HW in C. }
  assert (C3 : confined s s3).
  { eapply confined_trans; [exact C2|].
    pose proof (confined_file_Write (buf (wr s)) s2) as C. now rewrite HW in C. }
  destruct H as [(e & HY & _) | (s4 & HY & _ & ->)].
  { eapply confined_trans; [exact C3|].
    pose proof (confined_file_Sync s3) as C. now rewrite HY in C. }
  eapply confined_trans; [exact C3|].
  eapply confined_trans.
  { pose proof (confined_file_Sync s3) as C. rewrite HY in C. exact C. }
  unfold flushed. apply confined_clock. repeat split.
Qed.

Lemma confined_step o s : confined s (snd (step o s)).
Proof.
  destruct o as [p| |]; cbn [step]; unfold bind, ret.
  - destruct (Write p s) as [r s'] eqn:E. cbn [snd].
    assert (s' = snd (Write p s)) as -> by now rewrite E.
    rewrite Write_eq. cbn zeta.
    assert (A : confined s (appended p s)).
    { apply confined_writer. repeat split. }
    assert (T : confined s (ticked (appended p s))).
    { eapply confined_trans; [exact A|].
      apply confined_clock. apply same_config_refl. }
    destruct (_ >=? _).
    { rewrite answer_snd. eapply confined_trans; [exact A|].
      apply confined_flush. }
    destruct (_ >=? _); [|exact T].
    rewrite answer_snd. eapply confined_trans; [exact T|].
    apply confined_flush.
  - pose proof (confined_flush s) as C. unfold Flush, locked.
    destruct (flush s) as [e s']. exact C.
  - destruct (Close s) as [e s'] eqn:E. cbn [snd].
    assert (s' = snd (Close s)) as -> by now rewrite E.
    rewrite Close_eq.
    pose proof (confined_flush s) as C.
    destruct (fst (flush s)); [exact C|].
    eapply confined_trans; [exact C|]. apply confined_file_Close.
Qed.

(** X11.  Whatever is called on a Writer, every system call it makes
    is on its active file (a rename taking it to an archive name of its
    directory), and any other file that no rename was aimed at holds
    afterwards what it held before: archives are never written to,
    truncated or removed. *)
Theorem calls_are_confined_to_the_active_file ops s :
  confined s (snd (run ops s)).
Proof.
  revert s. induction ops as [|o ops IH]; intros s; cbn [run].
  - apply confined_refl.
  - unfold bind, ret. pose proof (confined_step o s) as C.
    destruct (step o s) as [r s1]. cbn [snd] in C.
    specialize (IH s1). destruct (run ops s1) as [rs s2]. cbn [snd] in *.
    eapply confined_trans; eauto.
Qed.

(** ** The Logger on top of the Writer *)

Lemma SetLevel_cases level L :
  Logger_IsClosed (lg L) = false ->
  match level_rank (strings_ToLower level) with
  | Some n =>
      0 <= n <= 4 /\
      Logger_SetLevel level L =
      (None,
       mkLSt (set_outputs (sink_for n levelDebug) (sink_for n levelInfo)
                          (sink_for n levelWarn) (sink_for n levelError)
                          n (lg L))
             (core L) (reported L))
  | None => Logger_SetLevel level L = (Some (ErrInvalidLogLevel level), L)
  end.
Proof.
  intros Hc. unfold Logger_SetLevel, level_rank. rewrite Hc. cbn zeta.
  destruct (String.eqb _ "debug"); [split; [cbv; intuition discriminate | reflexivity]|].
  destruct (String.eqb _ "info"); [split; [cbv; intuition discriminate | reflexivity]|].
  destruct (String.eqb _ "warn"); [split; [cbv; intuition discriminate | reflexivity]|].
  destruct (String.eqb _ "error"); [split; [cbv; intuition discriminate | reflexivity]|].
  destruct (String.eqb _ "none"); [split; [cbv; intuition discriminate | reflexivity]|].
  reflexivity.
Qed.

Lemma SetLevel_in_step level L :
  in_step (lg L) -> in_step (lg (snd (Logger_SetLevel level L))).
Proof.
  intros H. destruct (Logger_IsClosed (lg L)) eqn:Hc.
  { unfold Logger_SetLevel. now rewrite Hc. }
  pose proof (SetLevel_cases level L Hc) as K.
  destruct (level_rank (strings_ToLower level)) as [n|]; [|now rewrite K].
  destruct K as [Hn ->]. cbn.
  destruct H as [(C & _) | (C & W & _)].
  { unfold Logger_IsClosed in Hc. rewrite C in Hc. discriminate. }
  right. cbn. auto 10.
Qed.

Lemma emit_lg level out e L : lg (emit level out e L) = lg L.
Proof.
  unfold emit, log_Output, log_Printf.
  destruct (isLevelEnabled (lg L) level); [|reflexivity].
  destruct (out (lg L)); [reflexivity|].
  destruct (time_Now (core L)) as [t s0].
  destruct (Write (e t) s0) as [[n [err|]] s]; cbn [snd lg core];
    [destruct (time_Now s)|]; reflexivity.
Qed.

Lemma log_at_lg sv e L : lg (log_at sv e L) = lg L.
Proof. destruct sv; apply emit_lg. Qed.

Lemma lstep_in_step o L : in_step (lg L) -> in_step (lg (snd (lstep o L))).
Proof.
  intros H. destruct o as [sv e|level| |]; cbn [lstep snd].
  - now rewrite log_at_lg.
  - now apply SetLevel_in_step.
  - unfold Logger_Flush. destruct (Logger_IsClosed (lg L)); [exact H|].
    destruct (Flush (core L)). exact H.
  - unfold Logger_Close. destruct (Logger_IsClosed (lg L)); [exact H|].
    cbn [lg_writer]. destruct (lg_writer (lg L)) eqn:Ew.
    + destruct (Close (core L)). left. cbn. auto 10.
    + destruct H as [(C & _) | (_ & W & _)]; [|congruence].
      left. cbn. auto 10.
Qed.

Lemma sound_evolves s s' : evolves s s' -> wf s' -> sound s -> sound s'.
Proof.
  intros [(_ & _ & A & B & C & D) _] W [_ (M & F & S & G)].
  split; [exact W|]. red. rewrite A, B, C, D. auto.
Qed.

Lemma sound_ticked s : sound s -> sound (ticked s).
Proof. intros [W C]. split; [now apply ticked_wf | exact C]. Qed.

Lemma time_Now_ticked s : time_Now s = (fst (clock_read (os s)), ticked s).
Proof.
  unfold time_Now, lift, ticked. now destruct (clock_read (os s)).
Qed.

Lemma sound_Write p s : sound s -> sound (snd (Write p s)).
Proof.
  intros H. apply (sound_evolves s); [| apply Write_wf, H | exact H].
  pose proof (evolves_step (OpWrite p) s) as E.
  cbn [step] in E. unfold bind, ret in E.
  destruct (Write p s) as [[n e] s1]. exact E.
Qed.

Lemma sound_step o s : sound s -> sound (snd (step o s)).
Proof.
  intros H. apply (sound_evolves s);
    [apply evolves_step | apply step_wf, H | exact H].
Qed.

Lemma emit_sound level out e L :
  sound (core L) -> sound (core (emit level out e L)).
Proof.
  intros H. unfold emit, log_Output, log_Printf.
  destruct (isLevelEnabled (lg L) level); [|exact H].
  destruct (out (lg L)); [exact H|].
  rewrite time_Now_ticked.
  pose proof (sound_Write (e (fst (clock_read (os (core L)))))
                _ (sound_ticked _ H)) as H1.
  destruct (Write _ (ticked (core L))) as [[n [err|]] s];
    cbn [snd core] in *; [|exact H1].
  rewrite time_Now_ticked. cbn [core]. now apply sound_ticked.
Qed.

Lemma logger_New_in_step dir level x L e :
  logger_New dir level x = NewLogger L e ->
  in_step (lg L) /\ sound (core L).
Proof.
  unfold logger_New.
  destruct (sys_mkdir_all dir x) as [[err|] x1]; [discriminate|].
  destruct (New dir [WithSync] x1) as [[w|err] x2] eqn:EN; [|discriminate].
  set (L0 := mkLSt _ _ _).
  assert (H0 : in_step (lg L0)).
  { right. cbn. repeat split; cbv; discriminate. }
  pose proof (SetLevel_in_step level L0 H0) as H1.
  assert (C : core (snd (Logger_SetLevel level L0)) = core L0).
  { unfold Logger_SetLevel. cbn [Logger_IsClosed lg L0 lg_closed].
    change (0 =? 1) with false. cbn zeta.
    repeat (destruct (String.eqb _ _); [reflexivity|]). reflexivity. }
  destruct (Logger_SetLevel level L0) as [e0 L1]. cbn [snd] in *.
  intros [= <- _]. split; [exact H1|]. rewrite C. cbn [core L0].
  split; [eapply New_wf; eauto|].
  clear - EN. unfold New in EN.
  destruct (sys_stat_path dir x1) as [[e|] x3]; [discriminate|].
  destruct (clock_read x3) as [t x4].
  cbn [fold_left apply_Option] in EN.
  destruct (sys_open _ _) as [[f|e] x5]; [|discriminate].
  injection EN as <- _. repeat split.
Qed.

Lemma lstep_core_sound o L : sound (core L) -> sound (core (snd (lstep o L))).
Proof.
  intros R. destruct o as [sv e|level| |]; cbn [lstep snd].
  - destruct sv; apply emit_sound, R.
  - unfold Logger_SetLevel. destruct (Logger_IsClosed (lg L)); [exact R|].
    cbn zeta. repeat (destruct (String.eqb _ _); [exact R|]). exact R.
  - unfold Logger_Flush. destruct (Logger_IsClosed (lg L)); [exact R|].
    pose proof (sound_step OpFlush (core L) R) as R1.
    cbn [step] in R1. unfold bind, ret in R1.
    destruct (Flush (core L)). exact R1.
  - unfold Logger_Close. destruct (Logger_IsClosed (lg L)); [exact R|].
    cbn [lg_writer]. destruct (lg_writer (lg L)); [|exact R].
    pose proof (sound_step OpClose (core L) R) as R1.
    cbn [step] in R1. unfold bind, ret in R1.
    destruct (Close (core L)). exact R1.
Qed.

Lemma lreachable_in_step L :
  lreachable L -> in_step (lg L) /\ sound (core L).
Proof.
  induction 1 as [dir level x L e H | o L _ [IH1 IH2]].
  - eapply logger_New_in_step; eauto.
  - split; [now apply lstep_in_step | now apply lstep_core_sound].
Qed.

(** X12.  The two gates of the Logger never part, and its Writer
    stays as [logger.New] set it up.  In every state a program can reach,
    an open Logger has a Writer and the standard loggers that write to it
    are exactly those of the severities at or above the level, and a
    closed Logger has no Writer and discards everything; the Writer
    underneath is synchronized, has the default limits, and keeps the
    Writer's own invariant. *)
Theorem Logger_outputs_follow_the_level L :
  lreachable L ->
  in_step (lg L) /\ wf (core L) /\ as_the_Logger_made_it (wr (core L)).
Proof. intros R. apply lreachable_in_step in R as [H [W C]]. auto. Qed.

Lemma Logger_outputs_follow_the_level_witness :
  match logger_New "logs" "info" (Demo.world [] []) with
  | NewLogger L _ =>
      in_step (lg (snd (lrun [LLog SInfo (plain (Demo.b "x"));
                              LSetLevel "error"] L)))
  | NoLogger _ _ => False
  end.
Proof.
  destruct (logger_New "logs" "info" (Demo.world [] [])) as [e x|L e] eqn:E;
    [vm_compute in E; discriminate|].
  assert (R : lreachable L) by (eapply lreach_New; eauto).
  apply (lreach_step (LLog SInfo (plain (Demo.b "x")))) in R.
  apply (lreach_step (LSetLevel "error")) in R.
  apply Logger_outputs_follow_the_level in R as [H _].
  cbn [lrun]. destruct (lstep (LLog SInfo (plain (Demo.b "x"))) L) as [r1 L1].
  cbn [snd] in *. destruct (lstep (LSetLevel "error") L1) as [r2 L2].
  exact H.
Defined.

Lemma emit_enabled level out e L :
  isLevelEnabled (lg L) level = true -> out (lg L) = ToWriter ->
  emit level out e L = handed_over e L.
Proof.
  intros He Ho. unfold emit, log_Output, log_Printf, handed_over.
  rewrite He, Ho, time_Now_ticked. cbv zeta.
  destruct (Write _ (ticked (core L))) as [[n [err|]] s]; cbn;
    [now rewrite time_Now_ticked | reflexivity].
Qed.

Lemma emit_disabled level out e L :
  isLevelEnabled (lg L) level = false -> emit level out e L = L.
Proof. intros He. unfold emit. now rewrite He. Qed.

(** X13.  An entry reaches the Writer exactly when its severity is
    enabled: then the Logger makes one [Write] of the entry and hands an
    error, if [Write] returns one, to the standard logger instead of the
    caller; otherwise the call changes nothing at all, the clock is not
    even read. *)
Theorem entries_pass_at_or_above_the_level L sv e :
  lreachable L ->
  (isLevelEnabled (lg L) (severity_level sv) = true ->
   log_at sv e L = handed_over e L) /\
  (isLevelEnabled (lg L) (severity_level sv) = false ->
   log_at sv e L = L).
Proof.
  intros R. apply lreachable_in_step in R as [H _].
  split.
  - intros He. unfold isLevelEnabled in He.
    destruct (Logger_IsClosed (lg L)) eqn:Hc; [discriminate|].
    destruct H as [(C & _) | (_ & _ & _ & Sd & Si & Sw & Se)].
    { unfold Logger_IsClosed in Hc. rewrite C in Hc. discriminate. }
    destruct sv; cbn [log_at severity_level] in *;
      apply emit_enabled;
      try (unfold isLevelEnabled; rewrite Hc; exact He);
      unfold sink_for in *; rewrite He in *; assumption.
  - intros He. destruct sv; now apply emit_disabled.
Qed.

Lemma entries_pass_at_or_above_the_level_witness :
  match logger_New "logs" "WARN" (Demo.world [] []) with
  | NewLogger L _ =>
      log_at SInfo (plain (Demo.b "fyi")) L = L /\
      buf (wr (core (log_at SError (plain (Demo.b "bad")) L))) =
      Demo.b "bad"
  | NoLogger _ _ => False
  end.
Proof.
  destruct (logger_New "logs" "WARN" (Demo.world [] [])) as [e x|L e] eqn:E;
    [vm_compute in E; discriminate|].
  assert (R : lreachable L) by (eapply lreach_New; eauto).
  vm_compute in E. injection E as <- <-.
  split.
  - apply (entries_pass_at_or_above_the_level _ SInfo (plain (Demo.b "fyi")) R).
    reflexivity.
  - destruct (entries_pass_at_or_above_the_level _ SError
                (plain (Demo.b "bad")) R) as [H _].
    rewrite H by reflexivity. reflexivity.
Defined.

(** X14.  [SetLevel] knows five names, in any mix of upper and lower
    case.  Given one of them it returns nil and enables exactly the
    severities at or above the level named, touching neither the Writer
    nor the files; given anything else it returns the invalid-level error
    and leaves the Logger as it was. *)
Theorem SetLevel_knows_five_names level L :
  Logger_IsClosed (lg L) = false -> is_ascii level = true ->
  match level_rank (strings_ToLower level) with
  | Some n =>
      fst (Logger_SetLevel level L) = None /\
      core (snd (Logger_SetLevel level L)) = core L /\
      forall sv,
        isLevelEnabled (lg (snd (Logger_SetLevel level L)))
                       (severity_level sv) =
        (n <=? severity_level sv)
  | None => Logger_SetLevel level L = (Some (ErrInvalidLogLevel level), L)
  end.
Proof.
  intros Hc _. pose proof (SetLevel_cases level L Hc) as K.
  destruct (level_rank (strings_ToLower level)) as [n|]; [|exact K].
  destruct K as [_ ->]. cbn. repeat split.
  intros sv. unfold isLevelEnabled, Logger_IsClosed in *. cbn.
  now rewrite Hc.
Qed.

Lemma SetLevel_knows_five_names_witness :
  match logger_New "logs" "none" (Demo.world [] []) with
  | NewLogger L _ =>
      fst (Logger_SetLevel "WaRn" L) = None /\
      isLevelEnabled (lg (snd (Logger_SetLevel "WaRn" L))) levelInfo = false /\
      isLevelEnabled (lg (snd (Logger_SetLevel "WaRn" L))) levelError = true /\
      Logger_SetLevel "verbose" L = (Some (ErrInvalidLogLevel "verbose"), L)
  | NoLogger _ _ => False
  end.
Proof.
  destruct (logger_New "logs" "none" (Demo.world [] [])) as [e x|L e] eqn:E;
    [vm_compute in E; discriminate|].
  vm_compute in E. injection E as EL _.
  assert (Hc : Logger_IsClosed (lg L) = false) by (now rewrite <- EL).
  pose proof (SetLevel_knows_five_names "WaRn" L Hc eq_refl) as H.
  pose proof (SetLevel_knows_five_names "verbose" L Hc eq_refl) as K.
  cbn [level_rank] in H, K.
  split; [apply H|]. split; [apply (proj2 (proj2 H) SInfo)|].
  split; [apply (proj2 (proj2 H) SError) | exact K].
Defined.

Lemma closed_lstep o L :
  Logger_IsClosed (lg L) = true -> lstep o L = (closed_answer o, L).
Proof.
  intros Hc. destruct o as [sv entry|level| |]; cbn [lstep closed_answer].
  - f_equal. destruct sv; apply emit_disabled;
      unfold isLevelEnabled; now rewrite Hc.
  - unfold Logger_SetLevel. now rewrite Hc.
  - unfold Logger_Flush. now rewrite Hc.
  - unfold Logger_Close. now rewrite Hc.
Qed.

(** X15.  [Close] closes the Logger whatever the Writer answers: it
    calls the Writer's [Close] once, returns its error wrapped, and the
    Logger is closed either way.  From then on nothing happens: logging
    calls do nothing, [SetLevel], [Flush] and [Close] return the
    closed-logger error, and neither the Logger nor the Writer nor any
    file changes again. *)
Theorem Logger_Close_is_final L :
  (lreachable L -> Logger_IsClosed (lg L) = false ->
   fst (Logger_Close L) = option_map ErrClose (fst (Close (core L))) /\
   core (snd (Logger_Close L)) = snd (Close (core L)) /\
   Logger_IsClosed (lg (snd (Logger_Close L))) = true) /\
  (Logger_IsClosed (lg L) = true ->
   forall ops, lrun ops L = (map closed_answer ops, L)).
Proof.
  split.
  - intros R Hc. apply lreachable_in_step in R as [H _].
    destruct H as [(C & _) | (_ & W & _)].
    { unfold Logger_IsClosed in Hc. rewrite C in Hc. discriminate. }
    unfold Logger_Close. rewrite Hc. cbn [lg_writer]. rewrite W.
    destruct (Close (core L)) as [e s]. cbn. auto.
  - intros Hc ops. induction ops as [|o ops IH]; [reflexivity|].
    cbn [lrun map]. rewrite closed_lstep by assumption. now rewrite IH.
Qed.

Lemma Logger_Close_is_final_witness :
  match logger_New "logs" "debug" (Demo.world [] []) with
  | NewLogger L _ =>
      let L' := snd (Logger_Close (Logger_Debug (plain (Demo.b "bye")) L)) in
      fs_lookup "logs/latest.log" (files (os (core L'))) =
      Some (Demo.b "bye") /\
      lrun [LLog SError (plain (Demo.b "late")); LFlush; LClose] L' =
      ([None; Some ErrClosed; Some ErrClosed], L')
  | NoLogger _ _ => False
  end.
Proof.
  destruct (logger_New "logs" "debug" (Demo.world [] [])) as [e x|L e] eqn:E;
    [vm_compute in E; discriminate|].
  assert (R : lreachable L) by (eapply lreach_New; eauto).
  apply (lreach_step (LLog SDebug (plain (Demo.b "bye")))) in R.
  cbn [lstep snd log_at] in R.
  vm_compute in E. injection E as EL _. cbv zeta.
  destruct (Logger_Close_is_final (Logger_Debug (plain (Demo.b "bye")) L))
    as [H _].
  assert (Hc : Logger_IsClosed (lg (Logger_Debug (plain (Demo.b "bye")) L)) = false)
    by (now rewrite <- EL).
  destruct (H R Hc) as (_ & C & D).
  split.
  - rewrite C, <- EL. reflexivity.
  - destruct (Logger_Close_is_final
                (snd (Logger_Close
                        (Logger_Debug (plain (Demo.b "bye")) L))))
      as [_ K].
    apply (K D).
Defined.




(** ** From the logging call to the disk *)

Lemma emit_reported level out e L :
  exists more, reported (emit level out e L) = reported L ++ more.
Proof.
  unfold emit, log_Output, log_Printf.
  destruct (isLevelEnabled (lg L) level);
    [|exists []; now rewrite app_nil_r].
  destruct (out (lg L)); [exists []; now rewrite app_nil_r|].
  destruct (time_Now (core L)) as [t s0].
  destruct (Write (e t) s0) as [[n [err|]] s]; cbn [snd lg core reported].
  - destruct (time_Now s). now exists [err].
  - exists []. now rewrite app_nil_r.
Qed.

Lemma lstep_reported o L :
  exists more, reported (snd (lstep o L)) = reported L ++ more.
Proof.
  destruct o as [sv e|level| |]; cbn [lstep snd].
  - destruct sv; apply emit_reported.
  - exists []. rewrite app_nil_r. unfold Logger_SetLevel.
    destruct (Logger_IsClosed (lg L)); [reflexivity|]. cbn zeta.
    repeat (destruct (String.eqb _ _); [reflexivity|]). reflexivity.
  - exists []. rewrite app_nil_r. unfold Logger_Flush.
    destruct (Logger_IsClosed (lg L)); [reflexivity|].
    now destruct (Flush (core L)).
  - exists []. rewrite app_nil_r. unfold Logger_Close.
    destruct (Logger_IsClosed (lg L)); [reflexivity|]. cbn [lg_writer].
    destruct (lg_writer (lg L)); [|reflexivity].
    now destruct (Close (core L)).
Qed.

Lemma lrun_reported ops L :
  exists more, reported (snd (lrun ops L)) = reported L ++ more.
Proof.
  revert L. induction ops as [|o ops IH]; intros L; cbn [lrun].
  - exists []. now rewrite app_nil_r.
  - destruct (lstep_reported o L) as (m1 & E1).
    destruct (lstep o L) as [r L1]. cbn [snd] in E1.
    destruct (IH L1) as (m2 & E2).
    destruct (lrun ops L1) as [rs L2]. cbn [snd] in *.
    exists (m1 ++ m2). now rewrite E2, E1, app_assoc.
Qed.

Lemma app_eq_self {A} (l m : list A) : l = l ++ m -> m = [].
Proof.
  intros H. apply (f_equal (@List.length A)) in H.
  rewrite length_app in H. destruct m; [reflexivity | cbn in H; lia].
Qed.

Lemma on_disk_ticked s : on_disk (ticked s) = on_disk s.
Proof. apply on_disk_same; [reflexivity | apply clock_read_files]. Qed.

(** One call of the Logger that returns nil and reports nothing, seen
    from the directory. *)
Lemma lstep_roundtrip o L r L1 :
  in_step (lg L) -> wf (core L) -> lstep o L = (r, L1) -> r = None ->
  reported L1 = reported L ->
  exists new,
    trace (os (core L1)) = trace (os (core L)) ++ new /\
    (NoDup (names (os (core L))) ->
     (forall dst, In dst (renamed_to new) -> ~ In dst (names (os (core L)))) ->
     on_disk (core L1) ++ buf (wr (core L1)) =
     on_disk (core L) ++ buf (wr (core L)) ++ entries_of [o] L /\
     NoDup (names (os (core L1))) /\
     Permutation (names (os (core L1)))
                 (names (os (core L)) ++ renamed_to new)).
Proof.
  intros HI W H Hr Hrep.
  assert (Same : L1 = L \/ core L1 = core L ->
                 entries_of [o] L = [] ->
                 exists new,
                   trace (os (core L1)) = trace (os (core L)) ++ new /\
                   (NoDup (names (os (core L))) ->
                    (forall dst, In dst (renamed_to new) ->
                                 ~ In dst (names (os (core L)))) ->
                    on_disk (core L1) ++ buf (wr (core L1)) =
                    on_disk (core L) ++ buf (wr (core L)) ++ entries_of [o] L /\
                    NoDup (names (os (core L1))) /\
                    Permutation (names (os (core L1)))
                                (names (os (core L)) ++ renamed_to new))).
  { intros E ->. assert (E' : core L1 = core L) by (destruct E; congruence).
    rewrite E'. exists []. rewrite !app_nil_r. split; [reflexivity|].
    intros Hnd _. cbn. rewrite ?app_nil_r. auto. }
  assert (Via : forall c s1 r1,
             step c (core L) = (r1, s1) -> err r1 = None ->
             core L1 = s1 -> entries_of [o] L = payload c ->
             exists new,
               trace (os (core L1)) = trace (os (core L)) ++ new /\
               (NoDup (names (os (core L))) ->
                (forall dst, In dst (renamed_to new) ->
                             ~ In dst (names (os (core L)))) ->
                on_disk (core L1) ++ buf (wr (core L1)) =
                on_disk (core L) ++ buf (wr (core L)) ++ entries_of [o] L /\
                NoDup (names (os (core L1))) /\
                Permutation (names (os (core L1)))
                            (names (os (core L)) ++ renamed_to new))).
  { intros c s1 r1 Hs He -> ->.
    exact (step_roundtrip c (core L) r1 s1 W Hs He). }
  destruct o as [sv e|level| |]; cbn [lstep] in H.
  - (* a logging call *)
    injection H as _ <-.
    destruct (isLevelEnabled (lg L) (severity_level sv)) eqn:He.
    2:{ apply Same; [left|cbn; now rewrite He].
        destruct sv; now apply emit_disabled. }
    assert (E : log_at sv e L = handed_over e L).
    { unfold isLevelEnabled in He.
      destruct (Logger_IsClosed (lg L)) eqn:Hc; [discriminate|].
      destruct HI as [(C & _) | (_ & _ & _ & Sd & Si & Sw & Se)].
      { unfold Logger_IsClosed in Hc. rewrite C in Hc. discriminate. }
      destruct sv; cbn [log_at severity_level] in *;
        apply emit_enabled;
        try (unfold isLevelEnabled; rewrite Hc; exact He);
        unfold sink_for in *; rewrite He in *; assumption. }
    rewrite E in *. unfold handed_over in *. cbv zeta in *.
    set (t := fst (clock_read (os (core L)))) in *.
    destruct (Write (e t) (ticked (core L))) as [[n oe] s1] eqn:EW.
    cbn [fst snd] in *.
    destruct oe as [err|].
    { cbn [reported] in Hrep. symmetry in Hrep.
      apply app_eq_self in Hrep. discriminate. }
    cbn [core]. 
    destruct (step_roundtrip (OpWrite (e t)) (ticked (core L))
                (Ret n None) s1 (ticked_wf _ W)) as (new & T & K).
    { cbn [step]. unfold bind, ret. now rewrite EW. }
    { reflexivity. }
    exists new. cbn [ticked os wr] in T, K.
    rewrite clock_read_trace in T. split; [exact T|].
    unfold names in *. rewrite clock_read_files in K.
    intros Hnd Hfresh. destruct (K Hnd Hfresh) as (A & B & C).
    rewrite on_disk_ticked in A. cbn [entries_of payload] in *.
    rewrite He, app_nil_r. auto.
  - (* SetLevel *)
    apply Same; [right|reflexivity].
    unfold Logger_SetLevel in H.
    destruct (Logger_IsClosed (lg L)); [now injection H as _ <-|].
    cbn zeta in H.
    repeat (destruct (String.eqb _ _); [now injection H as _ <-|]).
    now injection H as _ <-.
  - (* Flush *)
    unfold Logger_Flush in H.
    destruct (Logger_IsClosed (lg L)); [congruence|].
    destruct (Flush (core L)) as [oe s1] eqn:EF.
    injection H as Hoe <-. subst r.
    destruct oe; [discriminate|].
    apply (Via OpFlush s1 (Ret 0 None)); try reflexivity.
    cbn [step]. unfold bind, ret. now rewrite EF.
  - (* Close *)
    unfold Logger_Close in H.
    destruct (Logger_IsClosed (lg L)) eqn:Hc; [congruence|].
    cbn [lg_writer] in H.
    destruct (lg_writer (lg L)) eqn:Ew.
    2:{ apply Same; [right|reflexivity]. now injection H as _ <-. }
    destruct (Close (core L)) as [oe s1] eqn:EC.
    injection H as Hoe <-. subst r.
    destruct oe; [discriminate|].
    apply (Via OpClose s1 (Ret 0 None)); try reflexivity.
    cbn [step]. unfold bind, ret. now rewrite EC.
Qed.

Lemma entries_of_cons o ops L :
  entries_of (o :: ops) L = entries_of [o] L ++ entries_of ops (snd (lstep o L)).
Proof. cbn [entries_of]. now rewrite ?app_nil_r. Qed.

Lemma lrun_roundtrip ops L rs L' :
  in_step (lg L) -> sound (core L) -> lrun ops L = (rs, L') ->
  Forall (fun r => r = None) rs -> reported L' = reported L ->
  exists new,
    trace (os (core L')) = trace (os (core L)) ++ new /\
    (NoDup (names (os (core L)) ++ renamed_to new) ->
     on_disk (core L') ++ buf (wr (core L')) =
     on_disk (core L) ++ buf (wr (core L)) ++ entries_of ops L).
Proof.
  revert L rs L'. induction ops as [|o rest IH]; intros L rs L' HI W H Hok Hrep.
  - injection H as <- <-. exists []. rewrite !app_nil_r.
    split; [reflexivity|]. intros _. cbn. now rewrite ?app_nil_r.
  - cbn [lrun] in H.
    destruct (lstep o L) as [r L1] eqn:H1.
    destruct (lrun rest L1) as [rs1 L2] eqn:H2.
    injection H as <- <-.
    inversion Hok as [|? ? Hr Hrest]; subst.
    destruct (lstep_reported o L) as (m1 & E1). rewrite H1 in E1.
    destruct (lrun_reported rest L1) as (m2 & E2). rewrite H2 in E2.
    cbn [snd] in E1, E2.
    assert (Hm : m1 = [] /\ m2 = []).
    { rewrite E2, E1, <- app_assoc in Hrep. symmetry in Hrep.
      apply app_eq_self in Hrep. now apply app_eq_nil in Hrep. }
    destruct Hm as [-> ->]. rewrite app_nil_r in E1, E2.
    pose proof (lstep_in_step o L HI) as HI1.
    pose proof (lstep_core_sound o L W) as W1.
    rewrite H1 in HI1, W1. cbn [snd] in HI1, W1.
    destruct (lstep_roundtrip o L None L1 HI (proj1 W) H1 eq_refl E1)
      as (new1 & T1 & K1).
    destruct (IH L1 rs1 L2 HI1 W1 H2 Hrest E2) as (new2 & T2 & K2).
    exists (new1 ++ new2). split; [now rewrite T2, T1, app_assoc|].
    rewrite renamed_to_app. intros Hnd.
    assert (Hnd1 : NoDup (names (os (core L)) ++ renamed_to new1)).
    { rewrite app_assoc in Hnd. now apply NoDup_app_remove_r in Hnd. }
    destruct K1 as (A1 & _ & P1).
    { now apply NoDup_app_remove_r in Hnd1. }
    { intros dst Hd. now apply (NoDup_app_disjoint _ _ _ Hnd1). }
    rewrite K2.
    + rewrite entries_of_cons, H1. cbn [snd].
      rewrite app_assoc, A1, <- !app_assoc. reflexivity.
    + rewrite app_assoc in Hnd.
      eapply Permutation_NoDup; [|exact Hnd].
      apply Permutation_app_tail. now apply Permutation_sym.
Qed.

Lemma lrun_app a b L :
  lrun (a ++ b) L =
  (fst (lrun a L) ++ fst (lrun b (snd (lrun a L))),
   snd (lrun b (snd (lrun a L)))).
Proof.
  revert L. induction a as [|o a IH]; intros L; cbn [app lrun].
  - cbn. now destruct (lrun b L).
  - destruct (lstep o L) as [r L1]. rewrite IH.
    destruct (lrun a L1) as [ra L2]. cbn.
    destruct (lrun b L2) as [rb L3]. reflexivity.
Qed.

Lemma entries_of_app a b L :
  entries_of (a ++ b) L = entries_of a L ++ entries_of b (snd (lrun a L)).
Proof.
  revert L. induction a as [|o a IH]; intros L; cbn [app lrun entries_of].
  - reflexivity.
  - rewrite IH, <- app_assoc. destruct (lstep o L) as [r L1]. cbn [snd].
    now destruct (lrun a L1).
Qed.

(** X17.  What was logged is what is on disk after [Close].  Take a
    Logger in any state a program can reach and a run of calls ending
    with [Close]; if every call returns nil, no logging call had an error
    to report, and no rotation renamed to a name already in the
    directory, then the files - archives in rotation order, then the
    active file - hold what the directory and the buffer held before,
    followed by the entries of the enabled severities, each dated with
    the clock reading of its call, in call order.  Entries of disabled
    severities leave no byte. *)
Theorem what_was_logged_is_on_disk_after_Close L ops :
  lreachable L ->
  let rs := fst (lrun (ops ++ [LClose]) L) in
  let L' := snd (lrun (ops ++ [LClose]) L) in
  Forall (fun r => r = None) rs ->
  reported L' = reported L ->
  NoDup (names (os (core L)) ++
         renamed_to (calls_between (core L) (core L'))) ->
  on_disk (core L') =
  on_disk (core L) ++ buf (wr (core L)) ++ entries_of ops L.
Proof.
  intros R rs L' Hok Hrep Hnd.
  apply lreachable_in_step in R as [HI W].
  destruct (lrun_roundtrip (ops ++ [LClose]) L rs L' HI W
              (surjective_pairing _) Hok Hrep) as (new & T & K).
  rewrite (calls_between_app _ _ _ T) in Hnd.
  specialize (K Hnd). rewrite entries_of_app in K.
  cbn [entries_of] in K. rewrite !app_nil_r in K. rewrite <- K.
  assert (E : buf (wr (core L')) = []); [|now rewrite E, app_nil_r].
  subst rs L'. rewrite lrun_app in *. cbn [fst snd] in *.
  set (L2 := snd (lrun ops L)) in *.
  apply Forall_app in Hok as [_ Hlast].
  cbn [lrun lstep] in *.
  assert (HI2 : in_step (lg L2)).
  { subst L2. clear - HI. revert L HI.
    induction ops as [|o ops IH]; intros L HI; cbn [lrun]; [exact HI|].
    pose proof (lstep_in_step o L HI) as H1.
    destruct (lstep o L) as [r L1]. cbn [snd] in H1.
    specialize (IH L1 H1). now destruct (lrun ops L1). }
  unfold Logger_Close in *.
  destruct (Logger_IsClosed (lg L2)) eqn:Hc.
  { cbn in Hlast. inversion Hlast; discriminate. }
  cbn [lg_writer] in *.
  destruct HI2 as [(C & _) | (_ & Wt & _)].
  { unfold Logger_IsClosed in Hc. rewrite C in Hc. discriminate. }
  rewrite Wt in *.
  destruct (Close (core L2)) as [oe s1] eqn:EC. cbn [fst snd core] in *.
  inversion Hlast as [|? ? Hr _]; subst.
  destruct oe; [discriminate|].
  exact (proj1 (Close_ok_closed _ _ EC)).
Qed.

Lemma what_was_logged_is_on_disk_after_Close_witness :
  match logger_New "logs" "info" (Demo.world [] []) with
  | NewLogger L _ =>
      let ops := [LLog SDebug (plain (Demo.b "zero "));
                  LLog SInfo (plain (Demo.b "one "));
                  LSetLevel "debug";
                  LLog SDebug (plain (Demo.b "two"))] in
      entries_of ops L = Demo.b "one two" /\
      on_disk (core (snd (lrun (ops ++ [LClose]) L))) =
      on_disk (core L) ++ buf (wr (core L)) ++ entries_of ops L
  | NoLogger _ _ => False
  end.
Proof.
  destruct (logger_New "logs" "info" (Demo.world [] [])) as [e x|L e] eqn:E;
    [vm_compute in E; discriminate|].
  assert (R : lreachable L) by (eapply lreach_New; eauto).
  vm_compute in E. injection E as EL _.
  intros ops. split; [rewrite <- EL; vm_compute; reflexivity|].
  apply (what_was_logged_is_on_disk_after_Close L ops R); rewrite <- EL.
  - vm_compute. repeat constructor.
  - vm_compute. reflexivity.
  - vm_compute. constructor; [intros [] | constructor].
Defined.
